(** * Monte-Carlo tree search for tic-tac-toe: a shallow embedding of main.py

    The game-state functions ([get_valid_actions], [apply_action],
    [check_win_conditions]) are pure and fallible: Python raises
    [IndexError] on a board that is not 3x3 or on a coordinate out of
    range, so they return a [result].  The search tree is a graph of
    mutable objects with parent back references; it is modelled as a
    store of nodes indexed by address, threaded through a state and
    exception monad.  [random.choice] draws from an explicit oracle, and
    the float arithmetic of the selection score is an interface. *)

From Stdlib Require Import ZArith QArith Lia Bool List.
From Stdlib Require String.
Import String.StringSyntax.
From stdpp Require Import base list.
Import ListNotations.

Local Open Scope Z_scope.
Delimit Scope string_scope with string.

(** ** Exceptions and the pure error monad *)

(** The Python exceptions the core can raise, and two outcomes that belong to
    the model only: an address that is not in the store, and a loop that used
    up the fuel it was given. *)
Inductive exn : Type :=
| IndexError
| ValueError
| ZeroDivisionError
| TypeError
| StopIteration
| OverflowError
| DanglingRef
| OutOfFuel.

Inductive result (A : Type) : Type :=
| Ok (a : A)
| Raise (e : exn).
Arguments Ok {A} a.
Arguments Raise {A} e.

Definition rbind {A B} (m : result A) (k : A -> result B) : result B :=
  match m with
  | Ok a => k a
  | Raise e => Raise e
  end.

Notation "'let?' x := m 'in' k" := (rbind m (fun x => k))
  (at level 10, x pattern, m at level 100, k at level 200).

(** ** Python lists indexed by an integer *)

(** [l[i]] accepts [-len <= i < len]; a negative index counts from the end. *)
Definition norm_index {A} (l : list A) (i : Z) : result nat :=
  let n := Z.of_nat (length l) in
  if (0 <=? i) && (i <? n) then Ok (Z.to_nat i)
  else if (- n <=? i) && (i <? 0) then Ok (Z.to_nat (n + i))
  else Raise IndexError.

Definition getitem {A} (l : list A) (i : Z) : result A :=
  let? k := norm_index l i in
  match l !! k with
  | Some v => Ok v
  | None => Raise IndexError
  end.

Definition setitem {A} (l : list A) (i : Z) (v : A) : result (list A) :=
  let? k := norm_index l i in
  Ok (<[k:=v]> l).

(** ** Game state *)

Module Turn.
Inductive t : Type := x | o.

Definition value (p : t) : Z :=
  match p with
  | x => 1
  | o => 2
  end.

Definition eqb (p q : t) : bool :=
  match p, q with
  | x, x | o, o => true
  | _, _ => false
  end.

Definition other (p : t) : t :=
  match p with
  | x => o
  | o => x
  end.
End Turn.

Record State : Type := mkState {
  board : list (list Z);
  turn : Turn.t
}.

Definition action : Type := (Z * Z)%type.

Definition range3 : list Z := [0; 1; 2].

(** The pairs [(x, y)] in the order of [for x in range(3) for y in range(3)]. *)
Definition cells3x3 : list action :=
  flat_map (fun x => map (fun y => (x, y)) range3) range3.

Definition cell (b : list (list Z)) (p : action) : result Z :=
  let? row := getitem b (fst p) in
  getitem row (snd p).

(** The list comprehension of [get_valid_actions]: every [board[x][y]] is
    read in turn, and the first read out of range aborts the whole scan. *)
Fixpoint scan_cells (b : list (list Z)) (ps : list action) : result (list action) :=
  match ps with
  | [] => Ok []
  | p :: ps' =>
      let? c := cell b p in
      let? rest := scan_cells b ps' in
      Ok (if c =? 0 then p :: rest else rest)
  end.

Definition get_valid_actions (s : State) : result (list action) :=
  scan_cells (board s) cells3x3.

Definition apply_action (a : action) (s : State) : result State :=
  let '(x, y) := a in
  let new_board := board s in
  let? row := getitem new_board x in
  let? row' := setitem row y (Turn.value (turn s)) in
  let? new_board' := setitem new_board x row' in
  let new_turn := match turn s with Turn.x => Turn.o | Turn.o => Turn.x end in
  Ok {| board := new_board'; turn := new_turn |}.

(** [zip( *board)]: as many columns as the shortest row has cells, none for
    a board without rows. *)
Definition min_width (b : list (list Z)) : nat :=
  match b with
  | [] => O
  | r :: rs => fold_right (fun r' m => Nat.min (length r') m) (length r) rs
  end.

Definition zip_star (b : list (list Z)) : list (list Z) :=
  map (fun j => map (fun r => nth j r 0) b) (seq 0 (min_width b)).

Fixpoint read_cells (b : list (list Z)) (ps : list action) : result (list Z) :=
  match ps with
  | [] => Ok []
  | p :: ps' =>
      let? c := cell b p in
      let? rest := read_cells b ps' in
      Ok (c :: rest)
  end.

Definition line_eqb (l1 l2 : list Z) : bool :=
  bool_decide (l1 = l2).

Definition check_win_conditions (s : State) : result (option Turn.t) :=
  let? d1 := read_cells (board s) (map (fun i => (i, i)) range3) in
  let? d2 := read_cells (board s) (map (fun i => (i, 2 - i)) range3) in
  let lines := board s ++ zip_star (board s) ++ [d1; d2] in
  let v := Turn.value (turn s) in
  Ok (if existsb (line_eqb [v; v; v]) lines then Some (turn s) else None).

Definition empty_board : list (list Z) := [[0; 0; 0]; [0; 0; 0]; [0; 0; 0]].

Definition scenario : State :=
  {| board := [[1; 1; 0]; [0; 2; 0]; [0; 0; 2]]; turn := Turn.x |}.

(** ** Float arithmetic of the selection score *)

(** The score of [select_child] is computed in Python floats with
    [math.sqrt] and [math.log].  The arithmetic is an interface: a carrier
    with the operations the score uses, the comparison [>] that [max]
    applies to the keys, the value [float('inf')], and the test for a NaN. *)
Class PyFloat : Type := {
  float : Type;
  Finf : float;
  Fnan : float -> bool;
  FofZ : Z -> float;
  FofQ : Q -> float;
  Fadd : float -> float -> float;
  Fmul : float -> float -> float;
  Fdiv : float -> float -> float;
  Fsqrt : float -> float;
  Flog : float -> float;
  Fgt : float -> float -> bool
}.

(** What the search needs of the arithmetic to run without a fault:
    [math.sqrt] is applied to arguments that are not negative. *)
Class PyFloatDomain `{PyFloat} : Prop := {
  sqrt_arg_100 : Fgt (FofZ 0) (FofZ 100) = false;
  sqrt_arg_log :
    forall n s : Z, 1 <= n -> 1 <= s ->
      Fgt (FofZ 0) (Fdiv (Flog (FofZ n)) (FofZ s)) = false
}.

(** What [max] needs of [>] to return a maximal key.  The comparison is
    irreflexive and transitive, and a value that is not a NaN falls on one
    side of any two values that [>] separates; the score of a visited child
    under a visited node is not a NaN; and [sqrt(100)] is exactly [10]. *)
Class PyFloatOrder `{PyFloat} : Prop := {
  Fgt_irrefl : forall a, Fgt a a = false;
  Fgt_trans : forall a b c, Fgt a b = true -> Fgt b c = true -> Fgt a c = true;
  Fgt_cotrans : forall a b c,
    Fnan b = false -> Fgt a c = true -> Fgt a b = true \/ Fgt b c = true;
  score_not_nan : forall (q : Q) (n s : Z), 1 <= n -> 1 <= s ->
    Fnan (Fadd (Fdiv (FofQ q) (FofZ s))
               (Fmul (FofZ 10) (Fsqrt (Fdiv (Flog (FofZ n)) (FofZ s))))) = false;
  sqrt_100 : Fsqrt (FofZ 100) = FofZ 10
}.

(** ** The search tree: a store of nodes *)

(** Objects are named by their position in the store. *)
Abbreviation addr := nat.

Record Node : Type := mkNode {
  parent : option addr;
  state : State;
  simulations : Z;
  wins : Q;
  children : option (list addr)
}.

Record SearchTree : Type := mkSearchTree { root : addr }.

(** The store, the source of [random.choice], and a history of the calls to
    [expand] (the node and its [children] field when the call was made).  The
    history is ghost state: no function reads it. *)
Record World : Type := mkWorld {
  heap : list Node;
  rng : nat -> nat;
  expand_log : list (addr * option (list addr))
}.

Definition M (A : Type) : Type := World -> World * result A.

Definition ret {A} (a : A) : M A := fun w => (w, Ok a).

Definition raise {A} (e : exn) : M A := fun w => (w, Raise e).

Definition bind {A B} (m : M A) (k : A -> M B) : M B :=
  fun w =>
    match m w with
    | (w', Ok a) => k a w'
    | (w', Raise e) => (w', Raise e)
    end.

Notation "'let!' x := m 'in' k" := (bind m (fun x => k))
  (at level 10, x pattern, m at level 100, k at level 200).
Notation "m ;;; k" := (bind m (fun _ => k))
  (at level 100, k at level 200, right associativity).

Definition lift {A} (r : result A) : M A := fun w => (w, r).

Definition load (a : addr) : M Node :=
  fun w =>
    match heap w !! a with
    | Some n => (w, Ok n)
    | None => (w, Raise DanglingRef)
    end.

Definition store (a : addr) (n : Node) : M unit :=
  fun w => ({| heap := <[a:=n]> (heap w); rng := rng w; expand_log := expand_log w |}, Ok tt).

(** A new object gets the next free address. *)
Definition alloc (n : Node) : M addr :=
  fun w => ({| heap := heap w ++ [n]; rng := rng w; expand_log := expand_log w |},
            Ok (length (heap w))).

(** [random.choice(seq)]: [IndexError] on an empty sequence, else the element
    at the position the oracle draws. *)
Definition choice {A} (l : list A) : M A :=
  fun w =>
    match l !! (rng w O mod length l)%nat with
    | Some v =>
        ({| heap := heap w; rng := fun i => rng w (S i); expand_log := expand_log w |}, Ok v)
    | None => (w, Raise IndexError)
    end.

Definition record_expand (a : addr) (cs : option (list addr)) : M unit :=
  fun w => ({| heap := heap w; rng := rng w; expand_log := expand_log w ++ [(a, cs)] |}, Ok tt).

Fixpoint mapM {A B} (f : A -> M B) (l : list A) : M (list B) :=
  match l with
  | [] => ret []
  | a :: l' =>
      let! b := f a in
      let! bs := mapM f l' in
      ret (b :: bs)
  end.

(** The truth value of a [children] field: [None] and [[]] are false. *)
Definition truthy {A} (cs : option (list A)) : bool :=
  match cs with
  | Some (_ :: _) => true
  | _ => false
  end.

Definition set_children (n : Node) (cs : option (list addr)) : Node :=
  {| parent := parent n; state := state n; simulations := simulations n;
     wins := wins n; children := cs |}.

Definition set_parent (n : Node) (p : option addr) : Node :=
  {| parent := p; state := state n; simulations := simulations n;
     wins := wins n; children := children n |}.

Definition new_child (a : addr) (s : State) : Node :=
  {| parent := Some a; state := s; simulations := 0; wins := 0; children := None |}.

Definition expand (a : addr) : M addr :=
  let! n := load a in
  record_expand a (children n) ;;;
  let! valid_actions := lift (get_valid_actions (state n)) in
  let! cs := mapM (fun act =>
                     let! s' := lift (apply_action act (state n)) in
                     alloc (new_child a s')) valid_actions in
  let! n' := load a in
  store a (set_children n' (Some cs)) ;;;
  ret a.

(** ** Selection, search loop, rollout *)

(** The source has three loops without a bound of their own: the descent of
    [mcts], the playout and the walk up the parents of [random_rollout].
    Each of them takes fuel here and answers [OutOfFuel] when it is used up;
    ten units are shown to be enough on every well-formed tree. *)

Section Search.
Context `{PyFloat}.

(** [a / b] raises on a zero divisor; here the divisor is always the integer
    [child.simulations].  The divisor is taken to be in the range of floats;
    [truediv_checked] below has the [OverflowError] of one that is not,
    [select_child_checked] and [mcts_checked] are [select_child] and [mcts]
    with it, and [mcts_checked_in_range] shows that they compute the same as
    long as the counts stay in that range. *)
Definition truediv (a : float) (b : Z) : result float :=
  if b =? 0 then Raise ZeroDivisionError else Ok (Fdiv a (FofZ b)).

(** [math.log] of an integer: a domain error unless it is positive. *)
Definition math_log (n : Z) : result float :=
  if n <=? 0 then Raise ValueError else Ok (Flog (FofZ n)).

(** [math.sqrt]: a domain error on a negative argument. *)
Definition math_sqrt (v : float) : result float :=
  if Fgt (FofZ 0) v then Raise ValueError else Ok (Fsqrt v).

(** The key of [select_child].  The lambda body is one conditional
    expression, [(rate + c * sqrt(..)) if child.simulations else inf], whose
    first operand holds a conditional of its own around the win rate. *)
Definition ucb_key (exploration_constant : float) (node child : Node) : result float :=
  if negb (simulations child =? 0) then
    let? rate := (if negb (simulations child =? 0)
                  then truediv (FofQ (wins child)) (simulations child)
                  else Ok Finf) in
    let? l := math_log (simulations node) in
    let? q := truediv l (simulations child) in
    let? r := math_sqrt q in
    Ok (Fadd rate (Fmul exploration_constant r))
  else Ok Finf.

(** [max(seq, key=f)] after its first element: the key of every element is
    computed once, in order, and an element replaces the best one so far
    only when its key is strictly greater. *)
Fixpoint max_by (f : addr -> M float) (best : addr) (best_key : float)
    (l : list addr) : M addr :=
  match l with
  | [] => ret best
  | c :: l' =>
      let! k := f c in
      if Fgt k best_key then max_by f c k l' else max_by f best best_key l'
  end.

Definition py_max (f : addr -> M float) (l : list addr) : M addr :=
  match l with
  | [] => raise ValueError
  | c :: l' => let! k := f c in max_by f c k l'
  end.

Definition select_child (a : addr) : M addr :=
  let! exploration_constant := lift (math_sqrt (FofZ 100)) in
  let! node := load a in
  match children node with
  | None => raise TypeError
  | Some cs =>
      py_max (fun c =>
                let! child := load c in
                let! node := load a in
                lift (ucb_key exploration_constant node child)) cs
  end.

(** [all(child.simulations > 0 for child in children)] *)
Fixpoint all_simulated (cs : list addr) : M bool :=
  match cs with
  | [] => ret true
  | c :: cs' =>
      let! child := load c in
      if simulations child >? 0 then all_simulated cs' else ret false
  end.

(** [next(child for child in children if child.simulations == 0)] *)
Fixpoint first_unsimulated (cs : list addr) : M addr :=
  match cs with
  | [] => raise StopIteration
  | c :: cs' =>
      let! child := load c in
      if simulations child =? 0 then ret c else first_unsimulated cs'
  end.

(** The descent [while curr_node.children: ...] of one iteration. *)
Fixpoint descend (fuel : nat) (curr_node : addr) : M addr :=
  match fuel with
  | O => raise OutOfFuel
  | S fuel' =>
      let! node := load curr_node in
      match children node with
      | Some (c :: cs) =>
          let! every := all_simulated (c :: cs) in
          if every
          then let! next := select_child curr_node in descend fuel' next
          else first_unsimulated (c :: cs)
      | _ => ret curr_node
      end
  end.

(** The playout [while True: ...] of [random_rollout]; it returns the value
    of [winner] at the [break]. *)
Fixpoint playout (fuel : nat) (s : State) : M (option Turn.t) :=
  match fuel with
  | O => raise OutOfFuel
  | S fuel' =>
      let! winner := lift (check_win_conditions s) in
      match winner with
      | Some _ => ret winner
      | None =>
          let! avail := lift (get_valid_actions s) in
          match avail with
          | [] => ret winner
          | _ :: _ =>
              let! again := lift (get_valid_actions s) in
              let! act := choice again in
              let! s' := lift (apply_action act s) in
              playout fuel' s'
          end
      end
  end.

(** [1 if winner == initial_turn else 0 if winner else 0.5] *)
Definition rollout_result (winner : option Turn.t) (initial_turn : Turn.t) : Q :=
  match winner with
  | Some t => if Turn.eqb t initial_turn then 1%Q else 0%Q
  | None => (1 # 2)%Q
  end.

Definition bump (r : Q) (n : Node) : Node :=
  {| parent := parent n; state := state n;
     simulations := simulations n + 1;
     wins := (wins n + r)%Q;
     children := children n |}.

(** The walk [while node: ...] up the parent references. *)
Fixpoint backpropagate (fuel : nat) (node : option addr) (r : Q) : M unit :=
  match node with
  | None => ret tt
  | Some a =>
      match fuel with
      | O => raise OutOfFuel
      | S fuel' =>
          let! n := load a in
          store a (bump r n) ;;;
          backpropagate fuel' (parent n) r
      end
  end.

Definition random_rollout (fuel : nat) (a : addr) : M unit :=
  let! node := load a in
  let s := state node in
  let initial_turn := turn s in
  let! winner := playout fuel s in
  let r := rollout_result winner initial_turn in
  backpropagate fuel (Some a) r.

(** One pass through the body of the [for] loop of [mcts]. *)
Definition mcts_step (fuel : nat) (root_node : addr) : M unit :=
  let! r := load root_node in
  (if negb (truthy (children r)) then expand root_node else ret root_node) ;;;
  let! curr_node := descend fuel root_node in
  let! curr := load curr_node in
  let! curr_node :=
    (if simulations curr >? 0 then
       expand curr_node ;;;
       let! curr' := load curr_node in
       match children curr' with
       | Some (c :: cs) => choice (c :: cs)
       | _ => ret curr_node
       end
     else ret curr_node) in
  random_rollout fuel curr_node.

Fixpoint mcts_loop (fuel : nat) (root_node : addr) (steps : nat) : M unit :=
  match steps with
  | O => ret tt
  | S steps' => mcts_step fuel root_node ;;; mcts_loop fuel root_node steps'
  end.

(** [range(max_steps)] is empty for a negative [max_steps]. *)
Definition mcts (fuel : nat) (search_tree : SearchTree) (max_steps : Z) : M unit :=
  mcts_loop fuel (root search_tree) (Z.to_nat max_steps).

(** [max(node.children, key=lambda child: child.simulations)] *)
Fixpoint max_sims (best : addr) (best_key : Z) (l : list addr) : M addr :=
  match l with
  | [] => ret best
  | c :: l' =>
      let! child := load c in
      if simulations child >? best_key
      then max_sims c (simulations child) l'
      else max_sims best best_key l'
  end.

Definition best_action (a : addr) : M addr :=
  let! node := load a in
  match children node with
  | None => raise TypeError
  | Some [] => raise ValueError
  | Some (c :: cs) => let! child := load c in max_sims c (simulations child) cs
  end.
End Search.

(** ** Advancing the root: the tree update of [play_game] *)

Definition board_eqb (b1 b2 : list (list Z)) : bool := bool_decide (b1 = b2).

(** [next((child for child in children if child.state.board == board), None)] *)
Fixpoint find_child (b : list (list Z)) (cs : list addr) : M (option addr) :=
  match cs with
  | [] => ret None
  | c :: cs' =>
      let! child := load c in
      if board_eqb (board (state child)) b then ret (Some c) else find_child b cs'
  end.

Definition fresh_root (s : State) : Node :=
  {| parent := None; state := s; simulations := 0; wins := 0; children := None |}.

(** Lines 152 to 162 of [play_game]: the move is applied to the current state
    and the root of the tree is moved to the matching child, or replaced. *)
Definition advance (tree : SearchTree) (current_state : State) (act : action)
    : M (SearchTree * State) :=
  let! current_state := lift (apply_action act current_state) in
  let! r := load (root tree) in
  match children r with
  | Some (c :: cs) =>
      let! found := find_child (board current_state) (c :: cs) in
      match found with
      | None =>
          let! a := alloc (fresh_root current_state) in
          ret ({| root := a |}, current_state)
      | Some a =>
          let! n := load a in
          store a (set_parent n None) ;;;
          ret ({| root := a |}, current_state)
      end
  | _ =>
      let! a := alloc (fresh_root current_state) in
      ret ({| root := a |}, current_state)
  end.

(** ** An instance of the arithmetic that computes *)

(** Fixed-point numbers with six decimals and an infinity ([None]).  The
    instance runs the search on concrete trees; the logarithm is the binary
    one scaled by [ln 2]. *)
Module Fixed.
Definition unit_ : Z := 1000000.

Definition of_Z (n : Z) : option Z := Some (n * unit_).

Definition of_Q (q : Q) : option Z := Some (Qnum q * unit_ / Zpos (Qden q)).

Definition add (a b : option Z) : option Z :=
  match a, b with
  | Some u, Some v => Some (u + v)
  | _, _ => None
  end.

Definition mul (a b : option Z) : option Z :=
  match a, b with
  | Some u, Some v => Some (u * v / unit_)
  | _, _ => None
  end.

Definition div (a b : option Z) : option Z :=
  match a, b with
  | Some u, Some v => if v =? 0 then None else Some (u * unit_ / v)
  | Some _, None => Some 0
  | None, _ => None
  end.

Definition sqrt (a : option Z) : option Z :=
  match a with
  | Some u => Some (Z.sqrt (u * unit_))
  | None => None
  end.

Definition log (a : option Z) : option Z :=
  match a with
  | Some u => Some (Z.log2 (u / unit_) * 693147)
  | None => None
  end.

Definition gt (a b : option Z) : bool :=
  match a, b with
  | Some u, Some v => u >? v
  | None, Some _ => true
  | _, None => false
  end.

#[export] Instance ops : PyFloat := {|
  float := option Z;
  Finf := None;
  Fnan := fun _ => false;
  FofZ := of_Z;
  FofQ := of_Q;
  Fadd := add;
  Fmul := mul;
  Fdiv := div;
  Fsqrt := sqrt;
  Flog := log;
  Fgt := gt
|}.
End Fixed.

(** ** Derived notions used by the statements *)

(** A board as the program builds it: three rows of three cells. *)
Definition wf_board (b : list (list Z)) : Prop :=
  length b = 3%nat /\ Forall (fun r => length r = 3%nat) b.

(** The number of legal moves of a state (0 when the scan faults). *)
Definition empties (s : State) : nat :=
  match get_valid_actions s with
  | Ok l => length l
  | Raise _ => O
  end.

(** Reading a cell by row and column number, without Python's index rules. *)
Definition lookup2 (b : list (list Z)) (i j : nat) : option Z :=
  match b !! i with
  | Some row => row !! j
  | None => None
  end.

(** The parent references followed from a node up to a node that has none:
    [chain h a l] lists the addresses met, [a] first. *)
Inductive chain (h : list Node) : addr -> list addr -> Prop :=
| chain_top a n :
    h !! a = Some n -> parent n = None -> chain h a [a]
| chain_up a n p l :
    h !! a = Some n -> parent n = Some p -> chain h p l -> chain h a (a :: l).

(** The shape of a tree that [expand] and the rollouts have built.  [L]
    holds the addresses of the tree (the store may hold nodes dropped by an
    advance of the root as well): they are allocated, their boards are 3x3
    and their counts are not negative; the parent of a node of [L] is in [L],
    has more empty cells, and has been simulated if the child has; the
    children of a node of [L] are in [L], point back to it and have boards
    that differ from one another. *)
Record tree_ok (L : addr -> Prop) (h : list Node) : Prop := {
  ok_alloc : forall a, L a -> exists n, h !! a = Some n;
  ok_board : forall a n, L a -> h !! a = Some n -> wf_board (board (state n));
  ok_sims : forall a n, L a -> h !! a = Some n -> 0 <= simulations n;
  ok_parent : forall a n p,
    L a -> h !! a = Some n -> parent n = Some p ->
    L p /\
    exists np, h !! p = Some np /\
               (empties (state n) < empties (state np))%nat /\
               (0 < simulations n -> 0 < simulations np);
  ok_children : forall a n cs c,
    L a -> h !! a = Some n -> children n = Some cs -> In c cs ->
    L c /\ exists nc, h !! c = Some nc /\ parent nc = Some a;
  ok_distinct : forall a n cs i j ci cj ni nj,
    L a -> h !! a = Some n -> children n = Some cs ->
    cs !! i = Some ci -> cs !! j = Some cj -> i <> j ->
    h !! ci = Some ni -> h !! cj = Some nj ->
    board (state ni) <> board (state nj)
}.

(** The world in which a search starts: one node, never expanded. *)
Definition fresh_world (s : State) (r : nat -> nat) : World :=
  {| heap := [fresh_root s]; rng := r; expand_log := [] |}.

(** A store of two nodes: a root on the scenario board, expanded by hand to
    the one child that plays (0, 2). *)
Definition two_node_world (r : nat -> nat) : World :=
  {| heap :=
       [ {| parent := None; state := scenario; simulations := 0; wins := 0;
            children := Some [1%nat] |};
         new_child 0%nat
           {| board := [[1; 1; 1]; [0; 2; 0]; [0; 0; 2]]; turn := Turn.o |} ];
     rng := r;
     expand_log := [] |}.

(** The store after [expand] has run on the node [n] at [a]: the children,
    one per successor state in [ss], are allocated at the end of the store
    and the node lists their addresses. *)
Definition expanded (h : list Node) (a : addr) (n : Node) (ss : list State) : list Node :=
  <[a := set_children n (Some (seq (length h) (length ss)))]>
    (h ++ map (new_child a) ss).

(** The score of the specification, in its words: the win rate
    [wins / simulations] of the child plus 10 times the square root of
    [ln(parent.simulations) / child.simulations]. *)
Definition ucb_score `{PyFloat} (node child : Node) : float :=
  Fadd (Fdiv (FofQ (wins child)) (FofZ (simulations child)))
       (Fmul (FofZ 10)
             (Fsqrt (Fdiv (Flog (FofZ (simulations node))) (FofZ (simulations child))))).

(** The score of the child stored at [c] under the node [node]. *)
Definition score_at `{PyFloat} (h : list Node) (node : Node) (c : addr) : float :=
  match h !! c with
  | Some child => ucb_score node child
  | None => Finf
  end.

(** [c] is the first element of [l] with a maximal value of [g]: it stands at
    position [i], no element has a greater value, and every element before
    position [i] has a smaller one. *)
Definition first_maximal `{PyFloat} (g : addr -> float) (l : list addr) (i : nat) (c : addr)
    : Prop :=
  l !! i = Some c /\
  (forall j cj, l !! j = Some cj -> Fgt (g cj) (g c) = false) /\
  (forall j cj, (j < i)%nat -> l !! j = Some cj -> Fgt (g c) (g cj) = true).

(** What [max_by] computes when the keys are given by a function. *)
Fixpoint fold_max `{PyFloat} (g : addr -> float) (best : addr) (l : list addr) : addr :=
  match l with
  | [] => best
  | c :: l' => if Fgt (g c) (g best) then fold_max g c l' else fold_max g best l'
  end.

(** [anc h a c]: the node at [a] is [c] itself or is met on the way up the
    parent references from [c]. *)
Inductive anc (h : list Node) (a : addr) : addr -> Prop :=
| anc_self : anc h a a
| anc_up c nc p :
    h !! c = Some nc -> parent nc = Some p -> anc h a p -> anc h a c.

(** Between two stores, no list of children that is not empty has changed. *)
Definition kids_stable (h h' : list Node) : Prop :=
  forall b nb,
    h !! b = Some nb -> truthy (children nb) = true ->
    exists nb', h' !! b = Some nb' /\ children nb' = children nb.

(** The calls to [expand] made between two worlds, oldest first. *)
Definition expand_calls (w w' : World) (new : list (addr * option (list addr))) : Prop :=
  expand_log w' = expand_log w ++ new.

(** A [children] field that is [None] or the empty list. *)
Definition childless (cs : option (list addr)) : Prop :=
  cs = None \/ cs = Some [].

(** A computation that leaves the history of [expand] as it found it, and
    one that leaves the whole world as it found it, whatever its outcome. *)
Definition keeps_log {A} (m : M A) : Prop :=
  forall w, expand_log (fst (m w)) = expand_log w.

Definition read_only {A} (m : M A) : Prop :=
  forall w, fst (m w) = w.

(** A full board without a line, as play from the empty board reaches it. *)
Definition drawn_state : State :=
  {| board := [[1; 2; 1]; [1; 2; 2]; [2; 1; 1]]; turn := Turn.o |}.

(** A root with four simulations and three visited children; the second and
    the third child have the same statistics. *)
Definition selection_world : World :=
  {| heap :=
       [ {| parent := None; state := {| board := empty_board; turn := Turn.x |};
            simulations := 4; wins := 2; children := Some [1%nat; 2%nat; 3%nat] |};
         {| parent := Some 0%nat;
            state := {| board := [[1; 0; 0]; [0; 0; 0]; [0; 0; 0]]; turn := Turn.o |};
            simulations := 2; wins := 1; children := None |};
         {| parent := Some 0%nat;
            state := {| board := [[0; 1; 0]; [0; 0; 0]; [0; 0; 0]]; turn := Turn.o |};
            simulations := 1; wins := 1 # 2; children := None |};
         {| parent := Some 0%nat;
            state := {| board := [[0; 0; 1]; [0; 0; 0]; [0; 0; 0]]; turn := Turn.o |};
            simulations := 1; wins := 1 # 2; children := None |} ];
     rng := fun i => i;
     expand_log := [] |}.

(** The eight lines of the board, as lists of coordinates: three rows, three
    columns, two diagonals. *)
Definition lines3x3 : list (list action) :=
  [ [(0, 0); (0, 1); (0, 2)]; [(1, 0); (1, 1); (1, 2)]; [(2, 0); (2, 1); (2, 2)];
    [(0, 0); (1, 0); (2, 0)]; [(0, 1); (1, 1); (2, 1)]; [(0, 2); (1, 2); (2, 2)];
    [(0, 0); (1, 1); (2, 2)]; [(0, 2); (1, 1); (2, 0)] ].

(** One of the eight lines holds the value [v] in its three cells. *)
Definition has_line (b : list (list Z)) (v : Z) : Prop :=
  exists line, In line lines3x3 /\ forall p, In p line -> cell b p = Ok v.

(** The boards of a list of states are pairwise different. *)
Definition distinct_boards (ss : list State) : Prop :=
  forall i j si sj,
    ss !! i = Some si -> ss !! j = Some sj -> i <> j -> board si <> board sj.

(** The test of the comprehension of [get_valid_actions] on one cell: the
    cell exists and holds 0. *)
Definition is_empty_cell (b : list (list Z)) (p : action) : bool :=
  match cell b p with
  | Ok c => c =? 0
  | Raise _ => false
  end.

(** A ragged board: the second row has two cells. *)
Definition ragged_state : State :=
  {| board := [[0; 0; 0]; [0; 0]; [0; 0; 0]]; turn := Turn.x |}.

(** ** The moves of [play_game] *)

(** Lines 140 to 147 of [play_game]: the two nested loops over [range(3)]
    that look for a cell in which the board of the root and the board of the
    best child differ, and leave both loops at the first one.  [None] means
    that no cell differs, in which case the source assigns nothing to
    [action]. *)
Fixpoint differing_cell (b1 b2 : list (list Z)) (ps : list action)
    : result (option action) :=
  match ps with
  | [] => Ok None
  | p :: ps' =>
      let? c1 := cell b1 p in
      let? c2 := cell b2 p in
      if negb (c1 =? c2) then Ok (Some p) else differing_cell b1 b2 ps'
  end.

Definition infer_action (root_board child_board : list (list Z)) : result (option action) :=
  differing_cell root_board child_board cells3x3.

(** The test of [get_human_action] on the two numbers read:
    [0 <= x < 3 and 0 <= y < 3 and state.board[x][y] == 0]; the cell is read
    only when both numbers are in range. *)
Definition human_move_ok (x y : Z) (s : State) : result bool :=
  if (0 <=? x) && (x <? 3) then
    if (0 <=? y) && (y <? 3) then
      let? c := cell (board s) (x, y) in Ok (c =? 0)
    else Ok false
  else Ok false.

(** What [get_human_action] does with the lines that [input()] delivers.  A
    line is given by what [map(int, line.split())] makes of it: two integers,
    or [None] when the unpacking or [int] raises [ValueError], which the loop
    catches.  The loop takes lines until one passes the test; when the input
    ends first, [input()] raises [EOFError], which nothing catches: the
    answer is [None].  The answer carries the lines left unread. *)
Fixpoint get_human_action (lines : list (option (Z * Z))) (s : State)
    : result (option (action * list (option (Z * Z)))) :=
  match lines with
  | [] => Ok None
  | None :: rest => get_human_action rest s
  | Some (x, y) :: rest =>
      let? ok := human_move_ok x y s in
      if ok then Ok (Some ((x, y), rest)) else get_human_action rest s
  end.

(** [c] is the first child of [l] with the most simulations: it stands at
    position [i], no child has more, every child before it has fewer. *)
Definition most_visited (g : addr -> Z) (l : list addr) (i : nat) (c : addr) : Prop :=
  l !! i = Some c /\
  (forall j cj, l !! j = Some cj -> g cj <= g c) /\
  (forall j cj, (j < i)%nat -> l !! j = Some cj -> g cj < g c).

(** The simulations of the node stored at [c] (0 when there is none). *)
Definition sims_at (h : list Node) (c : addr) : Z :=
  match h !! c with
  | Some n => simulations n
  | None => 0
  end.

(** ** The changes that the search makes to the store *)

(** The two kinds of change of one iteration of [mcts].  An expansion fills
    the [children] of a node that had none, or an empty list of them: the
    root, or a node simulated before.  A rollout adds one simulation and the
    result [r] to the node it starts from and to every node above it; it
    starts from a node without children, or from one that was never
    simulated and is not the root. *)
Inductive store_step (root_node : addr) (h : list Node) : list Node -> Prop :=
| step_expand a n l ss :
    h !! a = Some n ->
    truthy (children n) = false ->
    a = root_node \/ 0 < simulations n ->
    get_valid_actions (state n) = Ok l ->
    Forall2 (fun act s' => apply_action act (state n) = Ok s') l ss ->
    store_step root_node h (expanded h a n ss)
| step_rollout a n l r h' :
    h !! a = Some n ->
    truthy (children n) = false \/ (simulations n = 0 /\ a <> root_node) ->
    (children n = None -> simulations n = 0 /\ a <> root_node) ->
    chain h a l ->
    r = 0%Q \/ r = (1 # 2)%Q \/ r = 1%Q ->
    (forall b, In b l -> h' !! b = bump r <$> h !! b) ->
    (forall b, ~ In b l -> h' !! b = h !! b) ->
    store_step root_node h h'.

Inductive store_steps (root_node : addr) : list Node -> list Node -> Prop :=
| steps_refl h : store_steps root_node h h
| steps_cons h1 h2 h3 :
    store_step root_node h1 h2 -> store_steps root_node h2 h3 ->
    store_steps root_node h1 h3.

(** The children [cs] of a node with the state [s] stand for the legal moves
    of [s], one each and in their order: the state of a child is the one
    that [apply_action] builds from its move. *)
Definition children_of_moves (h : list Node) (s : State) (cs : list addr) : Prop :=
  exists l,
    get_valid_actions s = Ok l /\
    Forall2 (fun c act => exists nc, h !! c = Some nc /\ apply_action act s = Ok (state nc)) cs l.

Definition moves_ok (h : list Node) : Prop :=
  forall a n cs,
    h !! a = Some n -> children n = Some cs -> children_of_moves h (state n) cs.

(** Lines 137 to 147 of [play_game], the move of the machine: the root is
    expanded when it has no children, [best_action] picks a child, and the
    move is the first cell in which the boards of the root and of that child
    differ ([None] when no cell differs and nothing is assigned). *)
Definition ai_move (tree : SearchTree) : M (option action) :=
  let! r := load (root tree) in
  (if negb (truthy (children r)) then expand (root tree) else ret (root tree)) ;;;
  let! best_child := best_action (root tree) in
  let! r' := load (root tree) in
  let! bc := load best_child in
  lift (infer_action (board (state r')) (board (state bc))).

(** The win rate of every node of the store is between 0 and 1: its wins are
    not negative and not more than its simulations. *)
Definition rates_ok (h : list Node) : Prop :=
  forall a n, h !! a = Some n -> (0 <= wins n)%Q /\ (wins n <= inject_Z (simulations n))%Q.

(** ** The counts of a tree grown from a fresh root *)

(** The simulations of the nodes [cs], added up. *)
Definition sum_sims (h : list Node) (cs : list addr) : Z :=
  fold_right (fun c acc => sims_at h c + acc) 0 cs.

(** The whole store is one well-formed tree. *)
Definition whole_ok (h : list Node) : Prop :=
  tree_ok (fun a => (a < length h)%nat) h.

(** How the counts of a tree that [mcts] has grown from a fresh root hang
    together.  A node with a parent is one of the children of that parent.  A
    node that was never expanded has no simulations, or one if it is not the
    root: its next visit expands it.  And the simulations of a node that has
    children are those of its children added up, plus the one rollout that
    started from the node itself before it was expanded; the root was
    expanded before any rollout. *)
Record counts_ok (root_node : addr) (h : list Node) : Prop := {
  cnt_listed : forall a n p,
    h !! a = Some n -> parent n = Some p ->
    exists np cs, h !! p = Some np /\ children np = Some cs /\ In a cs;
  cnt_unexpanded : forall a n,
    h !! a = Some n -> children n = None ->
    simulations n = 0 \/ (simulations n = 1 /\ a <> root_node);
  cnt_sum : forall a n cs,
    h !! a = Some n -> children n = Some cs -> cs <> [] ->
    simulations n = (if decide (a = root_node) then 0 else 1) + sum_sims h cs
}.

(** ** The game loop *)

(** The exceptions of [play_game]: those of the core functions, the
    [KeyError] of [symbols[cell]], the read of [action] before any
    assignment, and [input()] at the end of the input. *)
Inductive game_exn : Type :=
| Core (e : exn)
| KeyError
| UnboundLocalError
| EOFError.

Inductive outcome (A : Type) : Type :=
| Done (a : A)
| Failed (e : game_exn).
Arguments Done {A} a.
Arguments Failed {A} e.

(** The three messages that end the game. *)
Inductive verdict : Type := YouWin | AIWins | Draw.

(** [symbols[cell]] with [symbols = {0: ' ', 1: 'X', 2: 'O'}] *)
Definition symbol (c : Z) : option String.string :=
  if c =? 0 then Some " "%string
  else if c =? 1 then Some "X"%string
  else if c =? 2 then Some "O"%string
  else None.

(** ['|'.join(...)] *)
Fixpoint join (sep : String.string) (l : list String.string) : String.string :=
  match l with
  | [] => ""%string
  | [s] => s
  | s :: l' => String.append s (String.append sep (join sep l'))
  end.

Fixpoint symbols_of (row : list Z) : option (list String.string) :=
  match row with
  | [] => Some []
  | c :: row' =>
      match symbol c with
      | None => None
      | Some s =>
          match symbols_of row' with
          | None => None
          | Some ss => Some (s :: ss)
          end
      end
  end.

(** The lines that [print_board] prints, two for each row.  A cell without a
    symbol raises [KeyError] when its row is put together; the rows before
    it have been printed by then. *)
Fixpoint print_board (b : list (list Z)) : outcome (list String.string) :=
  match b with
  | [] => Done []
  | row :: b' =>
      match symbols_of row with
      | None => Failed KeyError
      | Some ss =>
          match print_board b' with
          | Failed e => Failed e
          | Done lines =>
              Done (String.append "|"%string
                      (String.append (join "|"%string ss) "|"%string)
                    :: "-------"%string :: lines)
          end
      end
  end.

(** [f"{'You win!' if winner == Turn.o else 'AI wins!'}"] *)
Definition announce (winner : Turn.t) : verdict :=
  if Turn.eqb winner Turn.o then YouWin else AIWins.

(** The move of one pass of the loop of [play_game]: the machine's when
    the turn is [x], else the first legal one that the input gives.  [act]
    is the variable [action], which keeps its value from one pass to the
    next, so that a search for a differing cell that finds none leaves the
    move of the pass before; [input] holds the lines still to be read. *)
Definition game_move (tree : SearchTree) (current_state : State)
    (act : option action) (input : list (option (Z * Z))) (w : World)
    : World * outcome (action * list (option (Z * Z))) :=
  if Turn.eqb (turn current_state) Turn.x then
    match ai_move tree w with
    | (w1, Raise e) => (w1, Failed (Core e))
    | (w1, Ok found) =>
        match (match found with Some a => Some a | None => act end) with
        | None => (w1, Failed UnboundLocalError)
        | Some a => (w1, Done (a, input))
        end
    end
  else
    match get_human_action input current_state with
    | Raise e => (w, Failed (Core e))
    | Ok None => (w, Failed EOFError)
    | Ok (Some (a, rest)) => (w, Done (a, rest))
    end.

(** The loop of [play_game].  What is printed is left out; [print_board]
    is run for the [KeyError] it can raise.  The answer is the message that
    ends the game and the state it ends in. *)
Fixpoint play_loop (fuel : nat) (tree : SearchTree) (current_state : State)
    (act : option action) (input : list (option (Z * Z))) (w : World)
    : World * outcome (verdict * State) :=
  match fuel with
  | O => (w, Failed (Core OutOfFuel))
  | S fuel' =>
      match print_board (board current_state) with
      | Failed e => (w, Failed e)
      | Done _ =>
          match game_move tree current_state act input w with
          | (w1, Failed e) => (w1, Failed e)
          | (w1, Done (a, input')) =>
              match advance tree current_state a w1 with
              | (w2, Raise e) => (w2, Failed (Core e))
              | (w2, Ok (tree', current_state')) =>
                  match check_win_conditions current_state' with
                  | Raise e => (w2, Failed (Core e))
                  | Ok (Some winner) =>
                      match print_board (board current_state') with
                      | Failed e => (w2, Failed e)
                      | Done _ => (w2, Done (announce winner, current_state'))
                      end
                  | Ok None =>
                      match get_valid_actions current_state' with
                      | Raise e => (w2, Failed (Core e))
                      | Ok [] =>
                          match print_board (board current_state') with
                          | Failed e => (w2, Failed e)
                          | Done _ => (w2, Done (Draw, current_state'))
                          end
                      | Ok (_ :: _) =>
                          play_loop fuel' tree' current_state' (Some a) input' w2
                      end
                  end
              end
          end
      end
  end.

Definition play_game (fuel : nat) (tree : SearchTree) (input : list (option (Z * Z)))
    (w : World) : World * outcome (verdict * State) :=
  match load (root tree) w with
  | (w0, Raise e) => (w0, Failed (Core e))
  | (w0, Ok r) => play_loop fuel tree (state r) None input w0
  end.

(** The cells of a board that the game has filled: 0, 1 or 2. *)
Definition marks_ok (b : list (list Z)) : Prop :=
  forall row c, In row b -> In c row -> c = 0 \/ c = 1 \/ c = 2.

(** A run of legal moves from one state to another. *)
Inductive legal_run : State -> State -> Prop :=
| run_refl s : legal_run s s
| run_step s a l s1 s2 :
    get_valid_actions s = Ok l -> In a l -> apply_action a s = Ok s1 ->
    legal_run s1 s2 -> legal_run s s2.



(** ** The program *)




(** The scenario after the moves (0, 2) and (1, 2). *)
Definition scenario_after_two : State :=
  {| board := [[1; 1; 1]; [0; 2; 2]; [0; 0; 2]]; turn := Turn.x |}.

(** ** The score with the range of floats *)

(** An int converts to a float when its magnitude is below [2^1024 - 2^970],
    the least one that rounds past the largest double; from there on the
    conversion raises [OverflowError]. *)
Definition float_limit : Z := 2 ^ 1024 - 2 ^ 970.

Definition int_fits (n : Z) : bool := Z.abs n <? float_limit.

(** [wins] starts as the int 0 and stays an int as long as the results added
    are the ints 0 and 1; the first 0.5 makes it a float for good.  The
    store adds the results as fractions without reducing them, so that the
    denominator of [wins] is 1 exactly as long as [wins] is an int. *)
Definition wins_is_int (q : Q) : bool := (Qden q =? 1)%positive.

Section CheckedScore.
Context `{PyFloat}.

(** [a / b] for a float [a] and an int [b]: [b] is converted to a float,
    which raises [OverflowError] when it is too large, and a zero divisor
    raises [ZeroDivisionError]. *)
Definition truediv_checked (a : float) (b : Z) : result float :=
  if negb (int_fits b) then Raise OverflowError
  else if b =? 0 then Raise ZeroDivisionError
  else Ok (Fdiv a (FofZ b)).

(** [child.wins / child.simulations].  For an int [wins] this is the
    division of two ints, which converts neither of them: it raises
    [ZeroDivisionError] on a zero divisor and [OverflowError] when the
    quotient is too large for a float.  For a float [wins] it is the division
    of a float by an int. *)
Definition truediv_wins (q : Q) (b : Z) : result float :=
  if wins_is_int q then
    if b =? 0 then Raise ZeroDivisionError
    else if Z.abs (Qnum q) <? float_limit * Z.abs b then Ok (Fdiv (FofQ q) (FofZ b))
    else Raise OverflowError
  else truediv_checked (FofQ q) b.

(** The key of [select_child], as [ucb_key], with these divisions.
    [math.log] takes an int of any size. *)
Definition ucb_key_checked (exploration_constant : float) (node child : Node)
    : result float :=
  if negb (simulations child =? 0) then
    let? rate := (if negb (simulations child =? 0)
                  then truediv_wins (wins child) (simulations child)
                  else Ok Finf) in
    let? l := math_log (simulations node) in
    let? q := truediv_checked l (simulations child) in
    let? r := math_sqrt q in
    Ok (Fadd rate (Fmul exploration_constant r))
  else Ok Finf.

Definition select_child_checked (a : addr) : M addr :=
  let! exploration_constant := lift (math_sqrt (FofZ 100)) in
  let! node := load a in
  match children node with
  | None => raise TypeError
  | Some cs =>
      py_max (fun c =>
                let! child := load c in
                let! node := load a in
                lift (ucb_key_checked exploration_constant node child)) cs
  end.

(** The search with this [select_child]: the descent, one pass through the
    body of the [for] loop of [mcts], and the loop. *)
Fixpoint descend_checked (fuel : nat) (curr_node : addr) : M addr :=
  match fuel with
  | O => raise OutOfFuel
  | S fuel' =>
      let! node := load curr_node in
      match children node with
      | Some (c :: cs) =>
          let! every := all_simulated (c :: cs) in
          if every
          then let! next := select_child_checked curr_node in descend_checked fuel' next
          else first_unsimulated (c :: cs)
      | _ => ret curr_node
      end
  end.

Definition mcts_step_checked (fuel : nat) (root_node : addr) : M unit :=
  let! r := load root_node in
  (if negb (truthy (children r)) then expand root_node else ret root_node) ;;;
  let! curr_node := descend_checked fuel root_node in
  let! curr := load curr_node in
  let! curr_node :=
    (if simulations curr >? 0 then
       expand curr_node ;;;
       let! curr' := load curr_node in
       match children curr' with
       | Some (c :: cs) => choice (c :: cs)
       | _ => ret curr_node
       end
     else ret curr_node) in
  random_rollout fuel curr_node.

Fixpoint mcts_loop_checked (fuel : nat) (root_node : addr) (steps : nat) : M unit :=
  match steps with
  | O => ret tt
  | S steps' =>
      mcts_step_checked fuel root_node ;;; mcts_loop_checked fuel root_node steps'
  end.

Definition mcts_checked (fuel : nat) (search_tree : SearchTree) (max_steps : Z) : M unit :=
  mcts_loop_checked fuel (root search_tree) (Z.to_nat max_steps).
End CheckedScore.

(** Both divisions of the score of a child are in the range of floats; the
    score of a child without simulations has no division. *)
Definition score_in_range (child : Node) : bool :=
  (simulations child =? 0) ||
  (int_fits (simulations child) &&
   (if wins_is_int (wins child)
    then Z.abs (Qnum (wins child)) <? float_limit * Z.abs (simulations child)
    else true)).

(** The divisions of every score of the store are in the range of floats. *)
Definition heap_in_range (h : list Node) : Prop :=
  forall b nb, h !! b = Some nb -> score_in_range nb = true.

(** From the store [h] to the store [h'] no count of simulations has grown
    by more than [k]; a node that [h] does not hold has at most [k]. *)
Definition sims_grow (k : Z) (h h' : list Node) : Prop :=
  forall b nb',
    h' !! b = Some nb' ->
    simulations nb' <= k \/
    exists nb, h !! b = Some nb /\ simulations nb' <= simulations nb + k.

(** A node with four simulations whose one child has more simulations than
    a float can hold. *)
Definition overflow_world : World :=
  {| heap :=
       [ {| parent := None; state := scenario; simulations := 4; wins := 2;
            children := Some [1%nat] |};
         {| parent := Some 0%nat;
            state := {| board := [[1; 1; 1]; [0; 2; 0]; [0; 0; 2]]; turn := Turn.o |};
            simulations := 10 ^ 400; wins := 0; children := None |} ];
     rng := fun i => i;
     expand_log := [] |}.

(** A node without simulations whose one child has been simulated once. *)
Definition unvisited_parent_world : World :=
  {| heap :=
       [ {| parent := None; state := scenario; simulations := 0; wins := 0;
            children := Some [1%nat] |};
         {| parent := Some 0%nat;
            state := {| board := [[1; 1; 1]; [0; 2; 0]; [0; 0; 2]]; turn := Turn.o |};
            simulations := 1; wins := 1; children := None |} ];
     rng := fun i => i;
     expand_log := [] |}.

(** The states that a playout visits.  [playout_run r s s' k]: from [s], with
    the draws [r 0], [r 1], ... of [random.choice], the playout makes [k]
    moves and stops in [s'].  It stops in the first state in which the side
    to move holds a line or no cell is empty; until then it plays the move
    that stands, in the list of the legal moves, at the position drawn
    modulo their number. *)
Inductive playout_run : (nat -> nat) -> State -> State -> nat -> Prop :=
| playout_stop_line r s :
    has_line (board s) (Turn.value (turn s)) ->
    playout_run r s s 0
| playout_stop_full r s :
    ~ has_line (board s) (Turn.value (turn s)) ->
    get_valid_actions s = Ok [] ->
    playout_run r s s 0
| playout_move r s l a s1 s' k :
    ~ has_line (board s) (Turn.value (turn s)) ->
    get_valid_actions s = Ok l ->
    l !! (r 0%nat mod length l)%nat = Some a ->
    apply_action a s = Ok s1 ->
    playout_run (fun i => r (S i)) s1 s' k ->
    playout_run r s s' (S k).

(** One move of the game from [s], with the lines [input] still to be read,
    to [s1], with the lines [rest] left.  The move is a legal move of [s].
    When the turn is [x] the machine makes it and no line is read; when the
    turn is [o] it is the first legal move among the lines of the input, and
    the lines up to it are used up. *)
Definition game_step (s : State) (input : list (option (Z * Z)))
    (s1 : State) (rest : list (option (Z * Z))) : Prop :=
  exists l a,
    get_valid_actions s = Ok l /\ In a l /\ apply_action a s = Ok s1 /\
    match turn s with
    | Turn.x => rest = input
    | Turn.o =>
        exists skipped,
          input = skipped ++ Some a :: rest /\
          forall p, In (Some p) skipped -> ~ In p l
    end.

(** The side to move holds no line and some cell is empty: the loop of
    [play_game] goes on. *)
Definition undecided (s : State) : Prop :=
  ~ has_line (board s) (Turn.value (turn s)) /\
  exists l, get_valid_actions s = Ok l /\ l <> [].

(** One move or more of the game; after every move but the last the state
    reached was undecided. *)
Inductive game_run : State -> list (option (Z * Z)) ->
                     State -> list (option (Z * Z)) -> Prop :=
| game_last s input s1 rest :
    game_step s input s1 rest -> game_run s input s1 rest
| game_more s input s1 rest s' input' :
    game_step s input s1 rest ->
    undecided s1 ->
    game_run s1 rest s' input' ->
    game_run s input s' input'.



(** * Properties of the game state *)

Example scenario_moves :
  get_valid_actions scenario = Ok [(0, 2); (1, 0); (1, 2); (2, 0); (2, 1)].
Proof. reflexivity. Qed.

Example scenario_apply :
  apply_action (0, 2) scenario
  = Ok {| board := [[1; 1; 1]; [0; 2; 0]; [0; 0; 2]]; turn := Turn.o |}.
Proof. reflexivity. Qed.

Example scenario_winner :
  (let? s := apply_action (0, 2) scenario in check_win_conditions s) = Ok None.
Proof. vm_compute. reflexivity. Qed.


Lemma wf_board_inv b :
  wf_board b ->
  exists a0 a1 a2 a3 a4 a5 a6 a7 a8,
    b = [[a0; a1; a2]; [a3; a4; a5]; [a6; a7; a8]].
Proof.
  intros [Hl Hr].
  destruct b as [|r0 [|r1 [|r2 [|? ?]]]]; try discriminate Hl.
  inversion Hr as [|? ? H0 Hr1]; subst.
  inversion Hr1 as [|? ? H1 Hr2]; subst.
  inversion Hr2 as [|? ? H2 _]; subst.
  destruct r0 as [|? [|? [|? [|? ?]]]]; try discriminate H0.
  destruct r1 as [|? [|? [|? [|? ?]]]]; try discriminate H1.
  destruct r2 as [|? [|? [|? [|? ?]]]]; try discriminate H2.
  repeat eexists.
Qed.

Lemma wf_board_grid a0 a1 a2 a3 a4 a5 a6 a7 a8 :
  wf_board [[a0; a1; a2]; [a3; a4; a5]; [a6; a7; a8]].
Proof. split; [reflexivity | repeat constructor]. Qed.

Lemma cells3x3_cases (p : action) :
  In p cells3x3 ->
  p = (0, 0) \/ p = (0, 1) \/ p = (0, 2) \/ p = (1, 0) \/ p = (1, 1) \/
  p = (1, 2) \/ p = (2, 0) \/ p = (2, 1) \/ p = (2, 2).
Proof.
  cbn. intros Hp.
  repeat (destruct Hp as [Hp | Hp]; [symmetry in Hp; tauto |]).
  destruct Hp.
Qed.

Lemma cells3x3_nodup : List.NoDup cells3x3.
Proof.
  cbn. repeat (constructor; [cbn; intuition congruence |]). constructor.
Qed.

Lemma scan_cells_in b ps l p :
  scan_cells b ps = Ok l ->
  In p l <-> In p ps /\ cell b p = Ok 0.
Proof.
  revert l. induction ps as [|q ps IH]; intros l Hs; cbn in Hs.
  - inversion Hs; subst. cbn. tauto.
  - destruct (cell b q) as [c|] eqn:Hc; cbn in Hs; [|discriminate].
    destruct (scan_cells b ps) as [rest|] eqn:Hrest; cbn in Hs; [|discriminate].
    specialize (IH rest eq_refl).
    inversion Hs; subst; clear Hs.
    destruct (Z.eqb_spec c 0) as [->|Hne]; cbn.
    + rewrite IH. split.
      * intros [->|[? ?]]; auto.
      * intros [[->|?] ?]; auto.
    + rewrite IH. split.
      * intros [? ?]; auto.
      * intros [[->|?] Hp]; auto. rewrite Hc in Hp. congruence.
Qed.

(** Writing a non-zero value into an empty cell of the scanned region removes
    exactly that cell from the scan. *)
Lemma scan_cells_update b b' ps l a v :
  List.NoDup ps ->
  In a ps ->
  cell b a = Ok 0 ->
  cell b' a = Ok v ->
  v <> 0 ->
  (forall p, In p ps -> p <> a -> cell b' p = cell b p) ->
  scan_cells b ps = Ok l ->
  exists l', scan_cells b' ps = Ok l' /\ length l = S (length l').
Proof.
  intros Hnd. revert l. induction Hnd as [|q ps Hq Hnd IH]; intros l Hin Ha Ha' Hv Hsame Hs.
  - destruct Hin.
  - cbn in Hs |- *.
    destruct (cell b q) as [c|] eqn:Hc; cbn in Hs; [|discriminate].
    destruct (scan_cells b ps) as [rest|] eqn:Hrest; cbn in Hs; [|discriminate].
    inversion Hs; subst; clear Hs.
    destruct Hin as [->|Hin].
    + rewrite Ha'. cbn.
      assert (Hrest' : scan_cells b' ps = Ok rest).
      { clear IH. revert rest Hrest.
        assert (Hsame' : forall p, In p ps -> cell b' p = cell b p).
        { intros p Hp. apply Hsame; [right; exact Hp|]. intros ->. contradiction. }
        clear Hsame Hq Hnd. induction ps as [|p ps IHps]; intros rest Hrest; [exact Hrest|].
        cbn in Hrest |- *. rewrite Hsame' by (left; reflexivity).
        destruct (cell b p); cbn in *; [|discriminate].
        destruct (scan_cells b ps) as [rest0|]; cbn in *; [|discriminate].
        rewrite (IHps (fun p0 Hp0 => Hsame' p0 (or_intror Hp0)) rest0 eq_refl). exact Hrest. }
      rewrite Hrest'. cbn.
      rewrite Ha in Hc. inversion Hc; subst. cbn.
      destruct (Z.eqb_spec v 0); [contradiction|]. eauto.
    + assert (Hqa : q <> a) by (intros ->; contradiction).
      rewrite (Hsame q (or_introl eq_refl) Hqa), Hc. cbn.
      destruct (IH rest Hin Ha Ha' Hv (fun p Hp => Hsame p (or_intror Hp)) eq_refl)
        as (l' & -> & Hlen).
      cbn. exists (if c =? 0 then q :: l' else l'). split; [reflexivity|].
      destruct (c =? 0); cbn; lia.
Qed.

Lemma turn_value_nonzero t : Turn.value t <> 0.
Proof. destruct t; discriminate. Qed.

Lemma get_valid_actions_wf s :
  wf_board (board s) -> exists l, get_valid_actions s = Ok l.
Proof.
  intros Hwf. destruct (wf_board_inv _ Hwf) as (a0&a1&a2&a3&a4&a5&a6&a7&a8&Hb).
  unfold get_valid_actions. rewrite Hb. cbn. eauto.
Qed.

Lemma empties_le_9 s : (empties s <= 9)%nat.
Proof.
  unfold empties, get_valid_actions.
  destruct (scan_cells (board s) cells3x3) as [l|] eqn:Hs; [|lia].
  assert (Hgen : forall ps l0, scan_cells (board s) ps = Ok l0 -> (length l0 <= length ps)%nat).
  { induction ps as [|q ps IH]; intros l0 H0; cbn in H0.
    - inversion H0; cbn; lia.
    - destruct (cell (board s) q); cbn in H0; [|discriminate].
      destruct (scan_cells (board s) ps) as [rest|]; cbn in H0; [|discriminate].
      specialize (IH rest eq_refl). inversion H0; subst.
      destruct (_ =? 0); cbn; lia. }
  apply (Hgen _ _ Hs).
Qed.

(** A legal move on a well-formed board is applied without a fault, keeps the
    board well formed, flips the turn and leaves one legal move fewer. *)
Lemma apply_action_valid s l a :
  wf_board (board s) ->
  get_valid_actions s = Ok l ->
  In a l ->
  exists s',
    apply_action a s = Ok s' /\
    wf_board (board s') /\
    turn s' = Turn.other (turn s) /\
    empties s = S (empties s').
Proof.
  intros Hwf Hl Ha.
  destruct (wf_board_inv _ Hwf) as (a0&a1&a2&a3&a4&a5&a6&a7&a8&Hb).
  destruct s as [b t]. cbn in Hb. subst b.
  pose proof (proj1 (scan_cells_in _ _ _ a Hl) Ha) as [Hin Hcell].
  assert (Hstep : exists b',
             apply_action a {| board := [[a0; a1; a2]; [a3; a4; a5]; [a6; a7; a8]]; turn := t |}
             = Ok {| board := b'; turn := Turn.other t |} /\
             wf_board b' /\
             cell b' a = Ok (Turn.value t) /\
             (forall p, In p cells3x3 -> p <> a ->
                cell b' p = cell [[a0; a1; a2]; [a3; a4; a5]; [a6; a7; a8]] p)).
  { destruct (cells3x3_cases _ Hin) as [-> | [-> | [-> | [-> | [-> | [-> | [-> | [-> | ->]]]]]]]];
      (eexists; split; [destruct t; reflexivity|];
       split; [apply wf_board_grid|];
       split; [reflexivity|];
       intros p Hp Hne;
       destruct (cells3x3_cases _ Hp) as [-> | [-> | [-> | [-> | [-> | [-> | [-> | [-> | ->]]]]]]]];
       first [reflexivity | congruence]). }
  destruct Hstep as (b' & Happ & Hwf' & Hv & Hsame).
  exists {| board := b'; turn := Turn.other t |}.
  split; [exact Happ|]. split; [exact Hwf'|]. split; [reflexivity|].
  unfold get_valid_actions in Hl. cbn [board] in Hl, Hcell.
  destruct (scan_cells_update _ b' _ _ a (Turn.value t) cells3x3_nodup Hin Hcell Hv
              (turn_value_nonzero t) Hsame Hl) as (l' & Hl' & Hlen).
  unfold empties, get_valid_actions. cbn [board].
  rewrite Hl, Hl'. exact Hlen.
Qed.

Lemma scan_cells_nodup b ps : forall l,
  List.NoDup ps -> scan_cells b ps = Ok l -> List.NoDup l.
Proof.
  induction ps as [|p ps IH]; intros l Hnd Hs; cbn in Hs.
  - inversion Hs. constructor.
  - inversion Hnd as [|? ? Hp Hnd']; subst.
    destruct (cell b p) as [c|]; cbn [rbind] in Hs; [|discriminate].
    destruct (scan_cells b ps) as [rest|] eqn:Hrest; cbn [rbind] in Hs; [|discriminate].
    inversion Hs; subst; clear Hs.
    specialize (IH rest Hnd' eq_refl).
    destruct (c =? 0); [|exact IH].
    constructor; [|exact IH].
    intros Hin. apply Hp. apply (scan_cells_in _ _ _ p Hrest). exact Hin.
Qed.

(** Two different legal moves lead to different boards. *)
Lemma apply_action_distinct s l a1 a2 s1 s2 :
  wf_board (board s) ->
  get_valid_actions s = Ok l ->
  In a1 l -> In a2 l -> a1 <> a2 ->
  apply_action a1 s = Ok s1 ->
  apply_action a2 s = Ok s2 ->
  board s1 <> board s2.
Proof.
  intros Hwf Hl H1 H2 Hne Happ1 Happ2.
  destruct (wf_board_inv _ Hwf) as (a0&b1&b2&b3&b4&b5&b6&b7&b8&Hb).
  destruct s as [b t]. cbn [board] in Hb. subst b.
  unfold get_valid_actions in Hl. cbn [board] in Hl.
  pose proof (proj1 (scan_cells_in _ _ _ a1 Hl) H1) as [Hin1 Hc1].
  pose proof (proj1 (scan_cells_in _ _ _ a2 Hl) H2) as [Hin2 Hc2].
  pose proof (turn_value_nonzero t) as Hv.
  clear Hl H1 H2 Hwf.
  destruct (cells3x3_cases _ Hin1) as [-> | [-> | [-> | [-> | [-> | [-> | [-> | [-> | ->]]]]]]]];
    destruct (cells3x3_cases _ Hin2) as [-> | [-> | [-> | [-> | [-> | [-> | [-> | [-> | ->]]]]]]]];
    try (exfalso; apply Hne; reflexivity);
    cbn in Hc1, Hc2; inversion Hc1; inversion Hc2; subst;
    cbn in Happ1, Happ2; inversion Happ1; inversion Happ2; subst; cbn [board];
    intros Heq; inversion Heq; congruence.
Qed.

Lemma check_win_conditions_wf s :
  wf_board (board s) -> exists r, check_win_conditions s = Ok r.
Proof.
  intros Hwf. destruct (wf_board_inv _ Hwf) as (a0&a1&a2&a3&a4&a5&a6&a7&a8&Hb).
  unfold check_win_conditions. rewrite Hb. cbn. eauto.
Qed.

Lemma norm_index_lt {A} (l : list A) i k :
  norm_index l i = Ok k -> (k < length l)%nat.
Proof.
  unfold norm_index. intros Hk.
  destruct ((0 <=? i) && (i <? Z.of_nat (length l))) eqn:E1.
  - inversion Hk; subst. apply andb_true_iff in E1 as [? ?]. lia.
  - destruct ((- Z.of_nat (length l) <=? i) && (i <? 0)) eqn:E2; [|discriminate].
    inversion Hk; subst. apply andb_true_iff in E2 as [? ?]. lia.
Qed.

Lemma getitem_ok {A} (l : list A) i v :
  getitem l i = Ok v <-> exists k, norm_index l i = Ok k /\ l !! k = Some v.
Proof.
  unfold getitem. destruct (norm_index l i) as [k|e] eqn:Hk; cbn.
  - destruct (l !! k) as [u|] eqn:Hu.
    + split; [intros [= ->]; eauto|]. intros (k' & [= <-] & Hv). congruence.
    + split; [discriminate|]. intros (k' & [= <-] & Hv). congruence.
  - split; [discriminate|]. intros (k' & Hk' & _). discriminate.
Qed.

Lemma getitem_raise {A} (l : list A) i e :
  getitem l i = Raise e -> e = IndexError /\ norm_index l i = Raise IndexError.
Proof.
  unfold getitem. destruct (norm_index l i) as [k|e'] eqn:Hk; cbn.
  - pose proof (norm_index_lt _ _ _ Hk) as Hlt.
    destruct (lookup_lt_is_Some_2 l k Hlt) as [v ->]. discriminate.
  - intros [= ->]. unfold norm_index in Hk.
    destruct (_ && _); [discriminate|]. destruct (_ && _); [discriminate|].
    inversion Hk; auto.
Qed.

Lemma cell_ok b p c :
  cell b p = Ok c <->
  exists i j row,
    norm_index b (fst p) = Ok i /\ b !! i = Some row /\
    norm_index row (snd p) = Ok j /\ row !! j = Some c.
Proof.
  unfold cell. split.
  - destruct (getitem b (fst p)) as [row|] eqn:Hrow; cbn; [|discriminate].
    intros Hc. apply getitem_ok in Hrow as (i & Hi & Hrow).
    apply getitem_ok in Hc as (j & Hj & Hc). eauto 8.
  - intros (i & j & row & Hi & Hrow & Hj & Hc).
    assert (Hg : getitem b (fst p) = Ok row) by (apply getitem_ok; eauto).
    rewrite Hg. cbn. apply getitem_ok. eauto.
Qed.

Lemma check_win_conditions_grid a0 a1 a2 a3 a4 a5 a6 a7 a8 t :
  check_win_conditions
    {| board := [[a0; a1; a2]; [a3; a4; a5]; [a6; a7; a8]]; turn := t |}
  = Ok (if existsb (line_eqb [Turn.value t; Turn.value t; Turn.value t])
             [[a0; a1; a2]; [a3; a4; a5]; [a6; a7; a8];
              [a0; a3; a6]; [a1; a4; a7]; [a2; a5; a8];
              [a0; a4; a8]; [a2; a4; a6]]
        then Some t else None).
Proof. reflexivity. Qed.

(** On a 3x3 board the winner check finds each of the eight lines, when the
    line holds the value of the side to move, and only then names a winner. *)
Lemma check_win_conditions_lines (s : State) :
  wf_board (board s) ->
  has_line (board s) (Turn.value (turn s)) <->
  check_win_conditions s = Ok (Some (turn s)).
Proof.
  intros Hwf. destruct (wf_board_inv _ Hwf) as (a0&a1&a2&a3&a4&a5&a6&a7&a8&Hb).
  destruct s as [b t]. cbn [board turn] in *. subst b.
  rewrite check_win_conditions_grid. generalize (Turn.value t). intros v.
  split.
  - intros (line & Hline & Hcells).
    assert (Hex : existsb (line_eqb [v; v; v])
                    [[a0; a1; a2]; [a3; a4; a5]; [a6; a7; a8];
                     [a0; a3; a6]; [a1; a4; a7]; [a2; a5; a8];
                     [a0; a4; a8]; [a2; a4; a6]] = true).
    { apply existsb_exists. cbn in Hline.
      repeat (destruct Hline as [<-|Hline];
              [ pose proof (Hcells _ (or_introl eq_refl)) as H1;
                pose proof (Hcells _ (or_intror (or_introl eq_refl))) as H2;
                pose proof (Hcells _ (or_intror (or_intror (or_introl eq_refl)))) as H3;
                cbn in H1, H2, H3; inversion H1; inversion H2; inversion H3; subst;
                exists [v; v; v]; split; [cbn; tauto | apply bool_decide_eq_true; reflexivity]
              | ]).
      destruct Hline. }
    rewrite Hex. reflexivity.
  - destruct (existsb _ _) eqn:Hex; [|discriminate]. intros _.
    apply existsb_exists in Hex as (l & Hl & Heq).
    apply bool_decide_eq_true in Heq. subst l. cbn in Hl.
    destruct Hl as [Hl|[Hl|[Hl|[Hl|[Hl|[Hl|[Hl|[Hl|[]]]]]]]]]; inversion Hl; subst.
    + exists [(0, 0); (0, 1); (0, 2)]. split; [cbn; tauto|].
      intros p [<-|[<-|[<-|[]]]]; reflexivity.
    + exists [(1, 0); (1, 1); (1, 2)]. split; [cbn; tauto|].
      intros p [<-|[<-|[<-|[]]]]; reflexivity.
    + exists [(2, 0); (2, 1); (2, 2)]. split; [cbn; tauto|].
      intros p [<-|[<-|[<-|[]]]]; reflexivity.
    + exists [(0, 0); (1, 0); (2, 0)]. split; [cbn; tauto|].
      intros p [<-|[<-|[<-|[]]]]; reflexivity.
    + exists [(0, 1); (1, 1); (2, 1)]. split; [cbn; tauto|].
      intros p [<-|[<-|[<-|[]]]]; reflexivity.
    + exists [(0, 2); (1, 2); (2, 2)]. split; [cbn; tauto|].
      intros p [<-|[<-|[<-|[]]]]; reflexivity.
    + exists [(0, 0); (1, 1); (2, 2)]. split; [cbn; tauto|].
      intros p [<-|[<-|[<-|[]]]]; reflexivity.
    + exists [(0, 2); (1, 1); (2, 0)]. split; [cbn; tauto|].
      intros p [<-|[<-|[<-|[]]]]; reflexivity.
Qed.

(** * C10: the winner check reports the side to move or nothing *)

(** C10.  Whatever the state, [check_win_conditions] answers [None] or the
    side to move at that state.  So on a state that [apply_action] has just
    produced it never names the side that made the move: the turn has been
    flipped before the lines are compared. *)
Theorem check_win_conditions_side_to_move (s : State) (r : option Turn.t) :
  check_win_conditions s = Ok r ->
  (r = None \/ r = Some (turn s)) /\
  (forall a s0, apply_action a s0 = Ok s -> r <> Some (turn s0)).
Proof.
  unfold check_win_conditions. intros Hr.
  destruct (read_cells _ _) as [d1|]; cbn [rbind] in Hr; [|discriminate].
  destruct (read_cells _ _) as [d2|]; cbn [rbind] in Hr; [|discriminate].
  inversion Hr as [Hr']; clear Hr.
  split.
  - destruct (existsb _ _); auto.
  - intros [x y] s0 Happ. unfold apply_action in Happ.
    destruct (getitem _ _); cbn in Happ; [|discriminate].
    destruct (setitem _ _ _); cbn in Happ; [|discriminate].
    destruct (setitem _ _ _); cbn in Happ; [|discriminate].
    inversion Happ; subst; clear Happ. cbn.
    destruct (existsb _ _); [|discriminate].
    destruct (turn s0); discriminate.
Qed.

Lemma check_win_conditions_side_to_move_witness :
  (@None Turn.t = None \/ None = Some Turn.o) /\ None <> Some (turn scenario).
Proof.
  pose proof (check_win_conditions_side_to_move
                {| board := [[1; 1; 1]; [0; 2; 0]; [0; 0; 2]]; turn := Turn.o |}
                None eq_refl) as [H1 H2].
  split; [exact H1|]. exact (H2 (0, 2) scenario eq_refl).
Defined.

(** * C1: the scenario of the specification *)

(** C1, evaluated on the code.  On the board [[1,1,0],[0,2,0],[0,0,2]] with
    x to move, [(0, 2)] is a legal move and applying it completes the top
    row for x; [check_win_conditions] on the resulting state answers [None],
    because it looks for three cells of the value of o, now to move. *)
Theorem scenario_completed_row_not_reported :
  (exists l, get_valid_actions scenario = Ok l /\ In (0, 2) l) /\
  exists s',
    apply_action (0, 2) scenario = Ok s' /\
    has_line (board s') (Turn.value Turn.x) /\
    turn s' = Turn.o /\
    check_win_conditions s' = Ok None.
Proof.
  split.
  - exists [(0, 2); (1, 0); (1, 2); (2, 0); (2, 1)]. split; [reflexivity|].
    left; reflexivity.
  - eexists. split; [reflexivity|]. split; [|split; reflexivity].
    exists [(0, 0); (0, 1); (0, 2)]. split; [left; reflexivity|].
    intros p [<-|[<-|[<-|[]]]]; reflexivity.
Qed.

(** A full board whose last move completed a line is reported as having no
    winner and no legal move: the caller takes it for a draw. *)
Example full_board_line_missed :
  let s := {| board := [[1; 2; 1]; [2; 1; 2]; [0; 2; 1]]; turn := Turn.x |} in
  exists s',
    apply_action (2, 0) s = Ok s' /\
    check_win_conditions s' = Ok None /\
    get_valid_actions s' = Ok [].
Proof. eexists. repeat split. Qed.

(** * C2: a move onto an occupied cell *)

(** C2 fails as stated: the cell (1, 1) of the scenario board holds 2, and
    [apply_action] answers a state in which it holds 1. *)
Lemma apply_action_overwrites_occupied :
  cell (board scenario) (1, 1) = Ok 2 /\
  apply_action (1, 1) scenario
  = Ok {| board := [[1; 1; 0]; [0; 1; 0]; [0; 0; 2]]; turn := Turn.o |}.
Proof. split; reflexivity. Qed.

Lemma apply_action_ok (s : State) (a : action) (c : Z) :
  cell (board s) a = Ok c ->
  exists s' i j,
    apply_action a s = Ok s' /\
    turn s' = Turn.other (turn s) /\
    lookup2 (board s) i j = Some c /\
    forall i' j',
      lookup2 (board s') i' j'
      = if decide (i' = i /\ j' = j) then Some (Turn.value (turn s))
        else lookup2 (board s) i' j'.
Proof.
  intros Hc. apply cell_ok in Hc as (i & j & row & Hi & Hrow & Hj & Hc).
  destruct a as [x y]. cbn [fst snd] in Hi, Hj.
  assert (Hg : getitem (board s) x = Ok row) by (apply getitem_ok; eauto).
  eexists _, i, j. unfold apply_action. rewrite Hg. cbn.
  unfold setitem. rewrite Hj, Hi. cbn.
  split; [reflexivity|]. cbn [board turn].
  split; [destruct (turn s); reflexivity|].
  split; [unfold lookup2; rewrite Hrow; exact Hc|].
  intros i' j'. unfold lookup2.
  pose proof (norm_index_lt _ _ _ Hi) as Hilt.
  pose proof (norm_index_lt _ _ _ Hj) as Hjlt.
  destruct (decide (i' = i)) as [->|Hne].
  - rewrite list_lookup_insert_eq by exact Hilt. rewrite Hrow.
    destruct (decide (j' = j)) as [->|Hnej].
    + rewrite list_lookup_insert_eq by exact Hjlt.
      destruct (decide _) as [_|Hn]; [reflexivity|]. exfalso; apply Hn; auto.
    + rewrite list_lookup_insert_ne by congruence.
      destruct (decide _) as [[_ ?]|_]; [contradiction|reflexivity].
  - rewrite list_lookup_insert_ne by congruence.
    destruct (decide _) as [[? _]|_]; [contradiction|reflexivity].
Qed.

(** The only fault of [apply_action] is an index out of range. *)
Lemma apply_action_raise s a e :
  apply_action a s = Raise e ->
  e = IndexError /\ cell (board s) a = Raise IndexError.
Proof.
  destruct a as [x y]. unfold apply_action, cell. cbn [fst snd].
  destruct (getitem (board s) x) as [row|e0] eqn:Hrow; cbn.
  - unfold setitem at 1. unfold getitem at 1.
    destruct (norm_index row y) as [j|e1] eqn:Hj; cbn.
    + unfold setitem. apply getitem_ok in Hrow as (i & -> & _). cbn. discriminate.
    + intros [= ->]. unfold norm_index in Hj.
      destruct (_ && _); [discriminate|]. destruct (_ && _); [discriminate|].
      inversion Hj; auto.
  - intros [= ->]. apply getitem_raise in Hrow as [-> _]. auto.
Qed.

(** The position that an accepted index names: the index itself, or, for a
    negative one, the index counted from the end. *)
Lemma norm_index_mod {A} (l : list A) (i : Z) (k : nat) :
  norm_index l i = Ok k ->
  - Z.of_nat (length l) <= i < Z.of_nat (length l) /\
  Z.of_nat k = i mod Z.of_nat (length l).
Proof.
  unfold norm_index. intros Hk.
  destruct ((0 <=? i) && (i <? Z.of_nat (length l))) eqn:E1.
  - inversion Hk; subst. apply andb_true_iff in E1 as [?%Z.leb_le ?%Z.ltb_lt].
    split; [lia|]. rewrite Z.mod_small by lia. lia.
  - destruct ((- Z.of_nat (length l) <=? i) && (i <? 0)) eqn:E2; [|discriminate].
    inversion Hk; subst. apply andb_true_iff in E2 as [?%Z.leb_le ?%Z.ltb_lt].
    split; [lia|]. apply Z.mod_unique with (q := -1); lia.
Qed.

(** [apply_action] on coordinates that name a cell: the row [i] of the board
    is replaced by a copy in which the position [j] holds the value of the
    side that moved. *)
Lemma apply_action_at (s : State) (x y : Z) (i j : nat) (row : list Z) :
  norm_index (board s) x = Ok i ->
  board s !! i = Some row ->
  norm_index row y = Ok j ->
  apply_action (x, y) s
  = Ok {| board := <[i := <[j := Turn.value (turn s)]> row]> (board s);
          turn := Turn.other (turn s) |}.
Proof.
  intros Hi Hrow Hj.
  assert (Hg : getitem (board s) x = Ok row) by (apply getitem_ok; eauto).
  unfold apply_action. rewrite Hg. cbn.
  unfold setitem. rewrite Hj, Hi. cbn. destruct (turn s); reflexivity.
Qed.

Lemma lookup2_insert (b : list (list Z)) (i j : nat) (row : list Z) (v : Z) :
  b !! i = Some row -> (j < length row)%nat ->
  forall i' j',
    lookup2 (<[i := <[j := v]> row]> b) i' j'
    = if decide (i' = i /\ j' = j) then Some v else lookup2 b i' j'.
Proof.
  intros Hrow Hjlt i' j'. unfold lookup2.
  pose proof (lookup_lt_Some _ _ _ Hrow) as Hilt.
  destruct (decide (i' = i)) as [->|Hne].
  - rewrite list_lookup_insert_eq by exact Hilt. rewrite Hrow.
    destruct (decide (j' = j)) as [->|Hnej].
    + rewrite list_lookup_insert_eq by exact Hjlt.
      destruct (decide _) as [_|Hn]; [reflexivity|]. exfalso; apply Hn; auto.
    + rewrite list_lookup_insert_ne by congruence.
      destruct (decide _) as [[_ ?]|_]; [contradiction|reflexivity].
  - rewrite list_lookup_insert_ne by congruence.
    destruct (decide _) as [[? _]|_]; [contradiction|reflexivity].
Qed.

(** C2, amended.  [apply_action] checks the coordinates only.  When the cell
    [board[x][y]] exists, whatever it holds, the answer is the state whose
    turn is flipped and whose board is the input board with the value of the
    side that moved written at row [x], column [y], a negative coordinate
    counting from the end: the row [i] and the column [j] written are [x] and
    [y] modulo the lengths, the cell read by [board[x][y]] is that one, and
    the new board differs from the old one there and nowhere else.  The only
    fault is [IndexError], raised when the coordinates name no cell. *)
Theorem apply_action_writes_any_cell (s : State) (x y : Z) :
  (forall c, cell (board s) (x, y) = Ok c ->
     exists i j row,
       Z.of_nat i = x mod Z.of_nat (length (board s)) /\
       board s !! i = Some row /\
       Z.of_nat j = y mod Z.of_nat (length row) /\
       row !! j = Some c /\
       apply_action (x, y) s
       = Ok {| board := <[i := <[j := Turn.value (turn s)]> row]> (board s);
               turn := Turn.other (turn s) |} /\
       forall i' j',
         lookup2 (<[i := <[j := Turn.value (turn s)]> row]> (board s)) i' j'
         = if decide (i' = i /\ j' = j) then Some (Turn.value (turn s))
           else lookup2 (board s) i' j') /\
  (forall e, apply_action (x, y) s = Raise e ->
     e = IndexError /\ cell (board s) (x, y) = Raise IndexError).
Proof.
  split.
  - intros c Hc. apply cell_ok in Hc as (i & j & row & Hi & Hrow & Hj & Hc).
    cbn [fst snd] in Hi, Hj.
    exists i, j, row.
    split; [apply (norm_index_mod _ _ _ Hi)|]. split; [exact Hrow|].
    split; [apply (norm_index_mod _ _ _ Hj)|]. split; [exact Hc|].
    split; [apply apply_action_at; assumption|].
    apply lookup2_insert; [exact Hrow | exact (norm_index_lt _ _ _ Hj)].
  - intros e He. apply apply_action_raise. exact He.
Qed.

Lemma apply_action_writes_any_cell_witness :
  exists i j row,
    Z.of_nat i = 1 mod Z.of_nat (length (board scenario)) /\
    board scenario !! i = Some row /\
    Z.of_nat j = 1 mod Z.of_nat (length row) /\
    row !! j = Some 2 /\
    apply_action (1, 1) scenario
    = Ok {| board := <[i := <[j := Turn.value (turn scenario)]> row]> (board scenario);
            turn := Turn.other (turn scenario) |} /\
    forall i' j',
      lookup2 (<[i := <[j := Turn.value (turn scenario)]> row]> (board scenario)) i' j'
      = if decide (i' = i /\ j' = j) then Some (Turn.value (turn scenario))
        else lookup2 (board scenario) i' j'.
Proof.
  apply (proj1 (apply_action_writes_any_cell scenario 1 1) 2). reflexivity.
Defined.

(** * The state and exception monad *)

Lemma bind_run {A B} (m : M A) (k : A -> M B) w w1 a :
  m w = (w1, Ok a) -> bind m k w = k a w1.
Proof. intros Hm. unfold bind. rewrite Hm. reflexivity. Qed.

Lemma bind_raise {A B} (m : M A) (k : A -> M B) w w1 e :
  m w = (w1, Raise e) -> bind m k w = (w1, Raise e).
Proof. intros Hm. unfold bind. rewrite Hm. reflexivity. Qed.

Lemma load_run w a n : heap w !! a = Some n -> load a w = (w, Ok n).
Proof. intros Hn. unfold load. rewrite Hn. reflexivity. Qed.

Lemma world_eta w :
  {| heap := heap w; rng := rng w; expand_log := expand_log w |} = w.
Proof. destruct w; reflexivity. Qed.

Lemma choice_run {A} (l : list A) w :
  l <> [] ->
  exists v,
    In v l /\
    choice l w
    = ({| heap := heap w; rng := fun i => rng w (S i); expand_log := expand_log w |}, Ok v).
Proof.
  intros Hne. unfold choice.
  assert (Hlt : (rng w O mod length l < length l)%nat).
  { apply Nat.mod_upper_bound. destruct l; [contradiction | discriminate]. }
  destruct (lookup_lt_is_Some_2 l _ Hlt) as [v Hv].
  exists v. rewrite Hv. split; [|reflexivity].
  apply list_elem_of_In. eapply list_elem_of_lookup_2. exact Hv.
Qed.

Lemma lift_run {A} (r : result A) w : lift r w = (w, r).
Proof. reflexivity. Qed.

(** Run the first action of a sequence with a known outcome. *)
Ltac run_with H :=
  erewrite bind_run by
    (first [ exact H
           | rewrite lift_run; rewrite H; reflexivity
           | apply load_run; exact H ]);
  cbv beta iota.

(** * The playout ends *)

(** The playout loop ends after at most as many moves as the state has empty
    cells; it reads the store but does not change it. *)
Lemma playout_terminates fuel : forall s w,
  wf_board (board s) ->
  (empties s < fuel)%nat ->
  exists winner w',
    playout fuel s w = (w', Ok winner) /\
    heap w' = heap w /\ expand_log w' = expand_log w.
Proof.
  induction fuel as [|fuel IH]; intros s w Hwf Hfuel; [lia|].
  cbn [playout].
  destruct (check_win_conditions_wf s Hwf) as [winner Hwin].
  run_with Hwin.
  destruct winner as [t|]; [exists (Some t), w; auto|].
  destruct (get_valid_actions_wf s Hwf) as [l Hl].
  run_with Hl.
  destruct l as [|a l]; [exists None, w; auto|].
  run_with Hl.
  destruct (choice_run (a :: l) w) as (act & Hact & Hch); [discriminate|].
  run_with Hch.
  destruct (apply_action_valid s (a :: l) act Hwf Hl Hact) as (s' & Happ & Hwf' & _ & Hdec).
  run_with Happ.
  destruct (IH s' {| heap := heap w; rng := fun i => rng w (S i); expand_log := expand_log w |}
              Hwf' ltac:(lia)) as (winner & w' & Hrun & Hh & Hlog).
  exists winner, w'. auto.
Qed.

(** * Parent chains and backpropagation *)

Lemma chain_head h a l : chain h a l -> exists l', l = a :: l'.
Proof. intros Hc; inversion Hc; eauto. Qed.

Lemma chain_det h a l1 : chain h a l1 -> forall l2, chain h a l2 -> l1 = l2.
Proof.
  induction 1 as [a n Hn Hp | a n p l Hn Hp Hc IH]; intros l2 H2; inversion H2; subst;
    try congruence.
  assert (p0 = p) by congruence. subst. f_equal. auto.
Qed.

Lemma chain_sub h a l :
  chain h a l ->
  forall b, In b l -> exists l2, chain h b l2 /\ (length l2 <= length l)%nat.
Proof.
  induction 1 as [a n Hn Hp | a n p l Hn Hp Hc IH]; intros b Hb.
  - destruct Hb as [<-|[]]. exists [a]. split; [econstructor; eauto | lia].
  - destruct Hb as [<-|Hb].
    + exists (a :: l). split; [econstructor 2; eauto | lia].
    + destruct (IH b Hb) as (l2 & Hc2 & Hlen). exists l2. split; [exact Hc2 | cbn; lia].
Qed.

(** A chain ends, so it meets no address twice. *)
Lemma chain_fresh_head h a n p l :
  h !! a = Some n -> parent n = Some p -> chain h p l -> ~ In a l.
Proof.
  intros Hn Hp Hc Hin.
  destruct (chain_sub _ _ _ Hc a Hin) as (l2 & Hc2 & Hlen).
  assert (Hc' : chain h a (a :: l)) by (econstructor 2; eauto).
  pose proof (chain_det _ _ _ Hc2 _ Hc') as ->. cbn in Hlen. lia.
Qed.

Lemma chain_lookup h a l :
  chain h a l -> forall b, In b l -> exists nb, h !! b = Some nb.
Proof.
  induction 1 as [a n Hn Hp | a n p l Hn Hp Hc IH]; intros b Hb.
  - destruct Hb as [<-|[]]; eauto.
  - destruct Hb as [<-|Hb]; eauto.
Qed.

(** A chain holds the parent of each of its nodes. *)
Lemma chain_closed h a l :
  chain h a l ->
  forall b nb p, In b l -> h !! b = Some nb -> parent nb = Some p -> In p l.
Proof.
  induction 1 as [a n Hn Hp | a n p l Hn Hp Hc IH]; intros b nb q Hb Hnb Hq.
  - destruct Hb as [<-|[]]. congruence.
  - destruct Hb as [<-|Hb].
    + assert (q = p) by congruence. subst.
      destruct (chain_head _ _ _ Hc) as [l' ->]. right; left; reflexivity.
    + right. eauto.
Qed.


Lemma chain_ext h h' a l :
  chain h a l ->
  (forall b nb, In b l -> h !! b = Some nb ->
     exists nb', h' !! b = Some nb' /\ parent nb' = parent nb) ->
  chain h' a l.
Proof.
  induction 1 as [a n Hn Hp | a n p l Hn Hp Hc IH]; intros Hsame.
  - destruct (Hsame a n (or_introl eq_refl) Hn) as (n' & Hn' & Hp').
    econstructor; [exact Hn' | congruence].
  - destruct (Hsame a n (or_introl eq_refl) Hn) as (n' & Hn' & Hp').
    econstructor 2; [exact Hn' | rewrite Hp'; exact Hp |].
    apply IH. intros b nb Hb. apply Hsame. right; exact Hb.
Qed.

Lemma backpropagate_none fuel r w : backpropagate fuel None r w = (w, Ok tt).
Proof. destruct fuel; reflexivity. Qed.

(** The walk up the parent references visits the chain once: every node on
    it gets one more simulation and [r] more wins, and no other node of the
    store changes. *)
Lemma backpropagate_chain l : forall fuel a r w,
  chain (heap w) a l ->
  (length l <= fuel)%nat ->
  exists w',
    backpropagate fuel (Some a) r w = (w', Ok tt) /\
    rng w' = rng w /\ expand_log w' = expand_log w /\
    (forall b, In b l -> heap w' !! b = bump r <$> heap w !! b) /\
    (forall b, ~ In b l -> heap w' !! b = heap w !! b).
Proof.
  induction l as [|a0 l IH]; intros fuel a r w Hc Hfuel; [inversion Hc|].
  destruct fuel as [|fuel]; [cbn in Hfuel; lia|].
  cbn [backpropagate].
  inversion Hc as [a1 n Hn Hp | a1 n p l1 Hn Hp Hc1]; subst.
  - run_with Hn. unfold bind, store. rewrite Hp, backpropagate_none.
    eexists. split; [reflexivity|]. cbn [heap rng expand_log].
    split; [reflexivity|]. split; [reflexivity|].
    pose proof (lookup_lt_Some _ _ _ Hn) as Hlt.
    split.
    + intros b [<-|[]]. rewrite list_lookup_insert_eq by exact Hlt. rewrite Hn. reflexivity.
    + intros b Hb. apply list_lookup_insert_ne. intros <-. apply Hb. left; reflexivity.
  - run_with Hn.
    pose proof (lookup_lt_Some _ _ _ Hn) as Hlt.
    pose proof (chain_fresh_head _ _ _ _ _ Hn Hp Hc1) as Hfresh.
    set (w1 := {| heap := <[a0:=bump r n]> (heap w); rng := rng w; expand_log := expand_log w |}).
    assert (Hst : store a0 (bump r n) w = (w1, Ok tt)) by reflexivity.
    run_with Hst. rewrite Hp.
    assert (Hc1' : chain (heap w1) p l).
    { eapply chain_ext; [exact Hc1|]. intros b nb Hb Hnb. exists nb. split; [|reflexivity].
      cbn. rewrite list_lookup_insert_ne; [exact Hnb|]. intros <-. contradiction. }
    destruct (IH fuel p r w1 Hc1' ltac:(cbn in Hfuel; lia)) as (w' & Hrun & Hr & Hlog & Hin & Hout).
    exists w'. split; [exact Hrun|]. split; [exact Hr|]. split; [exact Hlog|].
    split.
    + intros b [<-|Hb].
      * rewrite (Hout _ Hfresh). cbn. rewrite list_lookup_insert_eq by exact Hlt.
        rewrite Hn. reflexivity.
      * rewrite (Hin b Hb). cbn. rewrite list_lookup_insert_ne; [reflexivity|].
        intros <-. contradiction.
    + intros b Hb. rewrite (Hout b); [|intros ?; apply Hb; right; assumption].
      cbn. apply list_lookup_insert_ne. intros <-. apply Hb. left; reflexivity.
Qed.

(** * Rollout *)


(** A rollout is a playout followed by the walk up the chain of the node. *)
Lemma random_rollout_run fuel a n l w :
  heap w !! a = Some n ->
  wf_board (board (state n)) ->
  chain (heap w) a l ->
  (empties (state n) < fuel)%nat ->
  (length l <= fuel)%nat ->
  exists winner w1 w',
    playout fuel (state n) w = (w1, Ok winner) /\
    random_rollout fuel a w = (w', Ok tt) /\
    expand_log w' = expand_log w /\
    (forall b, In b l ->
       heap w' !! b = bump (rollout_result winner (turn (state n))) <$> heap w !! b) /\
    (forall b, ~ In b l -> heap w' !! b = heap w !! b).
Proof.
  intros Hn Hwf Hc Hf1 Hf2.
  destruct (playout_terminates fuel (state n) w Hwf Hf1) as (winner & w1 & Hplay & Hh1 & Hlog1).
  assert (Hc1 : chain (heap w1) a l) by (rewrite Hh1; exact Hc).
  destruct (backpropagate_chain l fuel a (rollout_result winner (turn (state n))) w1 Hc1 Hf2)
    as (w' & Hback & _ & Hlog & Hin & Hout).
  exists winner, w1, w'. split; [exact Hplay|].
  split.
  { unfold random_rollout. run_with Hn. run_with Hplay. exact Hback. }
  split; [congruence|].
  split.
  - intros b Hb. rewrite (Hin b Hb), Hh1. reflexivity.
  - intros b Hb. rewrite (Hout b Hb), Hh1. reflexivity.
Qed.

(** * C3: what a rollout does to the statistics *)



Lemma two_node_tree_ok r : tree_ok (fun a => (a < 2)%nat) (heap (two_node_world r)).
Proof.
  split.
  - intros [|[|a]] Ha; [eexists; reflexivity | eexists; reflexivity | lia].
  - intros [|[|a]] n _ Hn; cbn in Hn; inversion Hn; subst; apply wf_board_grid.
  - intros [|[|a]] n _ Hn; cbn in Hn; inversion Hn; subst; cbn; lia.
  - intros [|[|a]] n p _ Hn Hp; cbn in Hn; inversion Hn; subst; cbn in Hp; inversion Hp; subst.
    split; [lia|]. eexists. split; [reflexivity|]. split; [vm_compute; lia | cbn; lia].
  - intros [|[|a]] n cs c _ Hn Hcs Hc; cbn in Hn; inversion Hn; subst; cbn in Hcs;
      inversion Hcs; subst.
    destruct Hc as [<-|[]]. split; [lia|]. eexists. split; reflexivity.
  - intros [|[|a]] n cs i j ci cj ni nj _ Hn Hcs Hi Hj Hij; cbn in Hn; inversion Hn; subst;
      cbn in Hcs; inversion Hcs; subst.
    destruct i as [|i], j as [|j]; cbn in Hi, Hj; try discriminate. congruence.
Qed.


(** * Expansion *)

Lemma expand_children_run a s acts : forall w,
  (forall act, In act acts -> exists s', apply_action act s = Ok s') ->
  exists ss,
    mapM (fun act => let! s' := lift (apply_action act s) in alloc (new_child a s')) acts w
    = ({| heap := heap w ++ map (new_child a) ss; rng := rng w; expand_log := expand_log w |},
       Ok (seq (length (heap w)) (length ss))) /\
    Forall2 (fun act s' => apply_action act s = Ok s') acts ss.
Proof.
  induction acts as [|act acts IH]; intros w Hok.
  - exists []. cbn. rewrite app_nil_r, world_eta. split; [reflexivity | constructor].
  - destruct (Hok act (or_introl eq_refl)) as [s1 Hs1].
    set (w1 := {| heap := heap w ++ [new_child a s1]; rng := rng w;
                  expand_log := expand_log w |}).
    destruct (IH w1 (fun act' Hin => Hok act' (or_intror Hin))) as (ss & Hrun & Hall).
    exists (s1 :: ss). split; [|constructor; assumption].
    cbn [mapM].
    assert (Hfirst : (let! s' := lift (apply_action act s) in alloc (new_child a s')) w
                     = (w1, Ok (length (heap w)))).
    { run_with Hs1. reflexivity. }
    run_with Hfirst. run_with Hrun. unfold ret, w1. cbn [heap rng expand_log map length seq].
    rewrite <- app_assoc. cbn [app].
    rewrite length_app. cbn [length]. rewrite Nat.add_1_r. reflexivity.
Qed.

Lemma expand_run a n w :
  heap w !! a = Some n ->
  wf_board (board (state n)) ->
  exists ss,
    expand a w
    = ({| heap := expanded (heap w) a n ss; rng := rng w;
          expand_log := expand_log w ++ [(a, children n)] |}, Ok a) /\
    length ss = empties (state n) /\
    Forall (fun s' => wf_board (board s') /\ empties (state n) = S (empties s')) ss /\
    distinct_boards ss.
Proof.
  intros Hn Hwf. unfold expand. run_with Hn.
  set (w0 := {| heap := heap w; rng := rng w; expand_log := expand_log w ++ [(a, children n)] |}).
  assert (Hrec : record_expand a (children n) w = (w0, Ok tt)) by reflexivity.
  run_with Hrec.
  destruct (get_valid_actions_wf _ Hwf) as [l Hl]. run_with Hl.
  destruct (expand_children_run a (state n) l w0) as (ss & Hrun & Hall).
  { intros act Hact. destruct (apply_action_valid _ _ _ Hwf Hl Hact) as (s' & Hs' & _). eauto. }
  exists ss. run_with Hrun.
  assert (Hn' : (heap w ++ map (new_child a) ss) !! a = Some n).
  { apply lookup_app_l_Some. exact Hn. }
  erewrite bind_run by (apply load_run; cbn [heap]; exact Hn'). cbv beta iota.
  split; [reflexivity|]. split; [|split].
  - unfold empties. rewrite Hl. symmetry. eapply Forall2_length. exact Hall.
  - assert (Hgen : forall acts ss0,
               (forall act, In act acts -> In act l) ->
               Forall2 (fun act s' => apply_action act (state n) = Ok s') acts ss0 ->
               Forall (fun s' => wf_board (board s') /\ empties (state n) = S (empties s')) ss0).
    { intros acts ss0 Hsub H2.
      induction H2 as [|act s' acts ss0 Happ H2 IH]; constructor.
      - destruct (apply_action_valid _ _ _ Hwf Hl (Hsub act (or_introl eq_refl)))
          as (s2 & Hs2 & Hwf2 & _ & Hdec).
        assert (s2 = s') by congruence. subst. auto.
      - apply IH. intros act' Hin. apply Hsub. right; exact Hin. }
    apply (Hgen l ss); auto.
  - intros i j si sj Hi Hj Hij.
    destruct (Forall2_lookup_r _ _ _ _ _ Hall Hi) as (acti & Hacti & Happi).
    destruct (Forall2_lookup_r _ _ _ _ _ Hall Hj) as (actj & Hactj & Happj).
    assert (Hnd : List.NoDup l).
    { unfold get_valid_actions in Hl. eapply scan_cells_nodup; [apply cells3x3_nodup | exact Hl]. }
    assert (Hini : In acti l).
    { apply list_elem_of_In. eapply list_elem_of_lookup_2. exact Hacti. }
    assert (Hinj : In actj l).
    { apply list_elem_of_In. eapply list_elem_of_lookup_2. exact Hactj. }
    apply (apply_action_distinct (state n) l acti actj si sj Hwf Hl Hini Hinj); try assumption.
    intros ->. apply Hij. eapply NoDup_lookup; [|exact Hacti | exact Hactj].
    apply NoDup_ListNoDup. exact Hnd.
Qed.

Lemma lookup_map {A B} (f : A -> B) (l : list A) (i : nat) :
  map f l !! i = match l !! i with Some v => Some (f v) | None => None end.
Proof.
  revert i. induction l as [|v l IH]; intros [|i]; cbn; auto.
Qed.

Lemma expanded_self h a n ss :
  h !! a = Some n ->
  expanded h a n ss !! a = Some (set_children n (Some (seq (length h) (length ss)))).
Proof.
  intros Hn. unfold expanded. apply list_lookup_insert_eq.
  rewrite length_app. pose proof (lookup_lt_Some _ _ _ Hn). lia.
Qed.

Lemma expanded_old h a n ss b nb :
  h !! b = Some nb -> b <> a -> expanded h a n ss !! b = Some nb.
Proof.
  intros Hb Hne. unfold expanded. rewrite list_lookup_insert_ne by congruence.
  apply lookup_app_l_Some. exact Hb.
Qed.

Lemma expanded_child h a n ss c :
  h !! a = Some n ->
  In c (seq (length h) (length ss)) ->
  exists s', In s' ss /\ expanded h a n ss !! c = Some (new_child a s').
Proof.
  intros Hn Hc. apply in_seq in Hc.
  pose proof (lookup_lt_Some _ _ _ Hn) as Hlt.
  unfold expanded. rewrite list_lookup_insert_ne by lia.
  rewrite lookup_app_r by lia. rewrite lookup_map.
  destruct (lookup_lt_is_Some_2 ss (c - length h)) as [s' Hs']; [lia|].
  rewrite Hs'. exists s'. split; [|reflexivity].
  apply list_elem_of_In. eapply list_elem_of_lookup_2. exact Hs'.
Qed.

Lemma expanded_inv h a n ss b nb :
  h !! a = Some n ->
  expanded h a n ss !! b = Some nb ->
  (b = a /\ nb = set_children n (Some (seq (length h) (length ss)))) \/
  (b <> a /\ h !! b = Some nb) \/
  (h !! b = None /\ exists s', In s' ss /\ nb = new_child a s').
Proof.
  intros Hn Hb. destruct (decide (b = a)) as [->|Hne].
  - left. rewrite (expanded_self _ _ _ _ Hn) in Hb. inversion Hb; auto.
  - right. unfold expanded in Hb. rewrite list_lookup_insert_ne in Hb by congruence.
    destruct (decide (b < length h)%nat) as [Hlt|Hge].
    + left. rewrite lookup_app_l in Hb by exact Hlt. auto.
    + right. rewrite lookup_app_r in Hb by lia. rewrite lookup_map in Hb.
      split; [apply lookup_ge_None; lia|].
      destruct (ss !! (b - length h)%nat) as [s'|] eqn:Hs'; [|discriminate].
      exists s'. split; [|congruence].
      apply list_elem_of_In. eapply list_elem_of_lookup_2. exact Hs'.
Qed.

(** Expansion keeps what an old node says about itself, but for the list of
    children of the expanded node. *)
Lemma expanded_keeps h a n ss b nb :
  h !! a = Some n ->
  h !! b = Some nb ->
  exists nb',
    expanded h a n ss !! b = Some nb' /\
    parent nb' = parent nb /\ state nb' = state nb /\
    simulations nb' = simulations nb /\ wins nb' = wins nb /\
    (b <> a -> nb' = nb).
Proof.
  intros Hn Hb. destruct (decide (b = a)) as [->|Hne].
  - assert (nb = n) by congruence. subst.
    eexists. split; [apply expanded_self; exact Hn|]. cbn. repeat split. contradiction.
  - exists nb. split; [apply expanded_old; assumption|]. repeat split.
Qed.

Lemma expanded_new h a n ss i ni :
  h !! a = Some n ->
  expanded h a n ss !! (length h + i)%nat = Some ni ->
  exists si, ss !! i = Some si /\ ni = new_child a si.
Proof.
  intros Hn Hi. pose proof (lookup_lt_Some _ _ _ Hn) as Hlt.
  unfold expanded in Hi. rewrite list_lookup_insert_ne in Hi by lia.
  rewrite lookup_app_r in Hi by lia. rewrite lookup_map in Hi.
  replace (length h + i - length h)%nat with i in Hi by lia.
  destruct (ss !! i) as [si|]; [|discriminate]. exists si. split; congruence.
Qed.

Lemma expanded_tree_ok L h a n ss :
  tree_ok L h ->
  L a ->
  h !! a = Some n ->
  Forall (fun s' => wf_board (board s') /\ empties (state n) = S (empties s')) ss ->
  distinct_boards ss ->
  tree_ok (fun b => L b \/ In b (seq (length h) (length ss))) (expanded h a n ss).
Proof.
  intros Hok HLa Hn Hss Hdist. rewrite List.Forall_forall in Hss.
  assert (Hold_in : forall b nb, h !! b = Some nb ->
            L b \/ In b (seq (length h) (length ss)) -> L b).
  { intros b nb Hb [HL|Hnew]; [exact HL|].
    apply in_seq in Hnew. pose proof (lookup_lt_Some _ _ _ Hb). lia. }
  split.
  - intros b [HL|Hnew].
    + destruct (ok_alloc _ _ Hok b HL) as [nb Hb].
      destruct (expanded_keeps h a n ss b nb Hn Hb) as (nb' & Hb' & _). eauto.
    + destruct (expanded_child h a n ss b Hn Hnew) as (s' & _ & Hb'). eauto.
  - intros b nb HL' Hb.
    destruct (expanded_inv _ _ _ _ _ _ Hn Hb) as [[-> ->]|[[Hne Hb']|[_ (s' & Hs' & ->)]]].
    + cbn. exact (ok_board _ _ Hok _ _ HLa Hn).
    + exact (ok_board _ _ Hok _ _ (Hold_in _ _ Hb' HL') Hb').
    + cbn. apply Hss; assumption.
  - intros b nb HL' Hb.
    destruct (expanded_inv _ _ _ _ _ _ Hn Hb) as [[-> ->]|[[Hne Hb']|[_ (s' & Hs' & ->)]]].
    + cbn. exact (ok_sims _ _ Hok _ _ HLa Hn).
    + exact (ok_sims _ _ Hok _ _ (Hold_in _ _ Hb' HL') Hb').
    + cbn. lia.
  - intros b nb p HL' Hb Hp.
    assert (Hold : forall nb0, L b -> h !! b = Some nb0 -> parent nb0 = Some p ->
                     state nb = state nb0 -> simulations nb = simulations nb0 ->
                     (L p \/ In p (seq (length h) (length ss))) /\
                     exists np, expanded h a n ss !! p = Some np /\
                                (empties (state nb) < empties (state np))%nat /\
                                (0 < simulations nb -> 0 < simulations np)).
    { intros nb0 HLb Hb0 Hp0 Hst Hsi.
      destruct (ok_parent _ _ Hok _ _ _ HLb Hb0 Hp0) as (HLp & np & Hnp & Hlt & Himp).
      destruct (expanded_keeps h a n ss p np Hn Hnp) as (np' & Hnp' & _ & Hst' & Hsi' & _).
      split; [left; exact HLp|].
      exists np'. rewrite Hst, Hsi, Hst', Hsi'. auto. }
    destruct (expanded_inv _ _ _ _ _ _ Hn Hb) as [[-> ->]|[[Hne Hb']|[_ (s' & Hs' & ->)]]].
    + apply (Hold n HLa Hn Hp); reflexivity.
    + apply (Hold nb (Hold_in _ _ Hb' HL') Hb' Hp); reflexivity.
    + cbn in Hp. inversion Hp; subst p. split; [left; exact HLa|].
      eexists. split; [apply expanded_self; exact Hn|]. cbn.
      split; [destruct (Hss s' Hs') as [_ ->]; lia | lia].
  - intros b nb cs c HL' Hb Hcs Hc.
    destruct (expanded_inv _ _ _ _ _ _ Hn Hb) as [[-> ->]|[[Hne Hb']|[_ (s' & Hs' & ->)]]].
    + cbn in Hcs. inversion Hcs; subst cs. split; [right; exact Hc|].
      destruct (expanded_child h a n ss c Hn Hc) as (s' & _ & Hc').
      eexists. split; [exact Hc' | reflexivity].
    + destruct (ok_children _ _ Hok _ _ _ _ (Hold_in _ _ Hb' HL') Hb' Hcs Hc)
        as (HLc & nc & Hnc & Hpc).
      split; [left; exact HLc|].
      destruct (expanded_keeps h a n ss c nc Hn Hnc) as (nc' & Hnc' & Hp' & _).
      exists nc'. split; [exact Hnc' | congruence].
    + discriminate Hcs.
  - intros b nb cs i j ci cj ni nj HL' Hb Hcs Hi Hj Hij Hci Hcj.
    destruct (expanded_inv _ _ _ _ _ _ Hn Hb) as [[-> ->]|[[Hne Hb']|[_ (s' & Hs' & ->)]]].
    + cbn in Hcs. inversion Hcs; subst cs.
      apply lookup_seq in Hi as [-> Hil]. apply lookup_seq in Hj as [-> Hjl].
      destruct (expanded_new _ _ _ _ _ _ Hn Hci) as (si & Hsi & ->).
      destruct (expanded_new _ _ _ _ _ _ Hn Hcj) as (sj & Hsj & ->).
      cbn. eapply Hdist; eauto.
    + pose proof (Hold_in _ _ Hb' HL') as HLb.
      assert (Hini : In ci cs).
      { apply list_elem_of_In. eapply list_elem_of_lookup_2. exact Hi. }
      assert (Hinj : In cj cs).
      { apply list_elem_of_In. eapply list_elem_of_lookup_2. exact Hj. }
      destruct (ok_children _ _ Hok _ _ _ _ HLb Hb' Hcs Hini) as (_ & ni0 & Hni0 & _).
      destruct (ok_children _ _ Hok _ _ _ _ HLb Hb' Hcs Hinj) as (_ & nj0 & Hnj0 & _).
      destruct (expanded_keeps h a n ss ci ni0 Hn Hni0) as (ni' & Hni' & _ & Hsti & _).
      destruct (expanded_keeps h a n ss cj nj0 Hn Hnj0) as (nj' & Hnj' & _ & Hstj & _).
      assert (ni' = ni) by congruence. assert (nj' = nj) by congruence. subst.
      rewrite Hsti, Hstj.
      exact (ok_distinct _ _ Hok _ _ _ _ _ _ _ _ _ HLb Hb' Hcs Hi Hj Hij Hni0 Hnj0).
    + discriminate Hcs.
Qed.

(** * Selection *)

Section Selection.
Context `{PyFloat}.

Lemma max_by_run (f : addr -> M float) (g : addr -> float) w l : forall best,
  (forall c, In c l -> f c w = (w, Ok (g c))) ->
  max_by f best (g best) l w = (w, Ok (fold_max g best l)).
Proof.
  induction l as [|c l IH]; intros best Hf; [reflexivity|].
  cbn [max_by fold_max].
  erewrite bind_run by (apply Hf; left; reflexivity). cbv beta.
  destruct (Fgt (g c) (g best)); apply IH; intros c' Hc'; apply Hf; right; exact Hc'.
Qed.

Lemma py_max_run (f : addr -> M float) (g : addr -> float) w c l :
  (forall c', In c' (c :: l) -> f c' w = (w, Ok (g c'))) ->
  py_max f (c :: l) w = (w, Ok (fold_max g c l)).
Proof.
  intros Hf. cbn [py_max].
  erewrite bind_run by (apply Hf; left; reflexivity). cbv beta.
  apply max_by_run. intros c' Hc'. apply Hf. right; exact Hc'.
Qed.

Lemma fold_max_in g l : forall best,
  fold_max g best l = best \/ In (fold_max g best l) l.
Proof.
  induction l as [|c l IH]; intros best; [left; reflexivity|].
  cbn [fold_max]. destruct (Fgt (g c) (g best)).
  - destruct (IH c) as [->|Hin]; [right; left; reflexivity | right; right; exact Hin].
  - destruct (IH best) as [->|Hin]; [left; reflexivity | right; right; exact Hin].
Qed.

(** The key of a visited child under a visited node is computed without a
    fault, and it is the value of the formula with [sqrt(100)] as constant. *)
Lemma ucb_key_visited `{!PyFloatDomain} (ec : float) (node child : Node) :
  1 <= simulations node ->
  1 <= simulations child ->
  ucb_key ec node child
  = Ok (Fadd (Fdiv (FofQ (wins child)) (FofZ (simulations child)))
             (Fmul ec (Fsqrt (Fdiv (Flog (FofZ (simulations node)))
                                   (FofZ (simulations child)))))).
Proof.
  intros Hn Hc. unfold ucb_key, truediv, math_log, math_sqrt.
  destruct (Z.eqb_spec (simulations child) 0) as [?|_]; [lia|]. cbn [negb rbind].
  destruct (Z.leb_spec (simulations node) 0) as [?|_]; [lia|]. cbn [rbind].
  rewrite (sqrt_arg_log _ _ Hn Hc). reflexivity.
Qed.

Lemma ucb_key_unvisited (ec : float) (node child : Node) :
  simulations child = 0 -> ucb_key ec node child = Ok Finf.
Proof. intros Hz. unfold ucb_key. rewrite Hz. reflexivity. Qed.

(** [select_child] on children that are unvisited, or visited under a visited
    node: it reads the store, raises nothing and answers the element that the
    fold over the keys picks. *)
Lemma select_child_run `{!PyFloatDomain} (w : World) (a : addr) (node : Node)
    (c0 : addr) (cs : list addr) :
  heap w !! a = Some node ->
  children node = Some (c0 :: cs) ->
  (forall c, In c (c0 :: cs) ->
     exists child, heap w !! c = Some child /\
                   (simulations child = 0 \/
                    (1 <= simulations child /\ 1 <= simulations node))) ->
  exists g,
    select_child a w = (w, Ok (fold_max g c0 cs)) /\
    (forall c child, heap w !! c = Some child -> simulations child = 0 -> g c = Finf) /\
    (forall c child, heap w !! c = Some child -> 1 <= simulations child ->
      g c = Fadd (Fdiv (FofQ (wins child)) (FofZ (simulations child)))
                 (Fmul (Fsqrt (FofZ 100))
                       (Fsqrt (Fdiv (Flog (FofZ (simulations node)))
                                    (FofZ (simulations child)))))).
Proof.
  intros Hn Hcs Hall.
  set (val := fun child : Node =>
         if simulations child =? 0 then Finf
         else Fadd (Fdiv (FofQ (wins child)) (FofZ (simulations child)))
                   (Fmul (Fsqrt (FofZ 100))
                         (Fsqrt (Fdiv (Flog (FofZ (simulations node)))
                                      (FofZ (simulations child)))))).
  exists (fun c => match heap w !! c with Some child => val child | None => Finf end).
  split; [|split].
  - unfold select_child.
    assert (Hec : lift (math_sqrt (FofZ 100)) w = (w, Ok (Fsqrt (FofZ 100)))).
    { unfold lift, math_sqrt. rewrite sqrt_arg_100. reflexivity. }
    run_with Hec. run_with Hn. rewrite Hcs.
    apply py_max_run. intros c Hc.
    destruct (Hall c Hc) as (child & Hchild & Hcase).
    run_with Hchild. run_with Hn. rewrite Hchild. rewrite lift_run. unfold val.
    destruct Hcase as [Hz|[Hsc Hsn]].
    + rewrite (ucb_key_unvisited _ _ _ Hz), Hz. reflexivity.
    + rewrite (ucb_key_visited _ _ _ Hsn Hsc).
      destruct (Z.eqb_spec (simulations child) 0); [lia | reflexivity].
  - intros c child Hchild Hz. rewrite Hchild. unfold val. rewrite Hz. reflexivity.
  - intros c child Hchild Hsc. rewrite Hchild. unfold val.
    destruct (Z.eqb_spec (simulations child) 0); [lia | reflexivity].
Qed.

Lemma all_simulated_run (cs : list addr) (w : World) :
  (forall c, In c cs -> exists child, heap w !! c = Some child) ->
  exists b,
    all_simulated cs w = (w, Ok b) /\
    (b = true ->
     forall c child, In c cs -> heap w !! c = Some child -> 0 < simulations child).
Proof.
  induction cs as [|c cs IH]; intros Hall.
  - exists true. split; [reflexivity|]. intros _ c child [].
  - destruct (Hall c (or_introl eq_refl)) as [child Hchild].
    cbn [all_simulated]. run_with Hchild.
    destruct (Z.gtb_spec (simulations child) 0) as [Hpos|Hnp].
    + destruct IH as (b & Hrun & Hb); [intros c' Hc'; apply Hall; right; exact Hc'|].
      exists b. split; [exact Hrun|].
      intros Hbt c' child' [<-|Hc'] Hch'.
      * assert (child' = child) by congruence. subst. lia.
      * eapply Hb; eauto.
    + exists false. split; [reflexivity | discriminate].
Qed.

Lemma first_unsimulated_run (cs : list addr) (w : World) :
  (forall c, In c cs -> exists child, heap w !! c = Some child /\ 0 <= simulations child) ->
  all_simulated cs w = (w, Ok false) ->
  exists c child,
    first_unsimulated cs w = (w, Ok c) /\
    In c cs /\ heap w !! c = Some child /\ simulations child = 0.
Proof.
  induction cs as [|c cs IH]; intros Hall Hrun.
  - cbn in Hrun. discriminate.
  - destruct (Hall c (or_introl eq_refl)) as (child & Hchild & Hnn).
    cbn [all_simulated] in Hrun. cbn [first_unsimulated].
    rewrite (bind_run _ _ _ _ _ (load_run _ _ _ Hchild)) in Hrun. run_with Hchild.
    destruct (Z.eqb_spec (simulations child) 0) as [Hz|Hnz].
    + exists c, child. split; [reflexivity|]. split; [left; reflexivity|]. auto.
    + destruct (Z.gtb_spec (simulations child) 0) as [Hpos|Hnp]; [|lia].
      destruct IH as (c' & child' & Hrun' & Hin & Hc' & Hz');
        [intros c' Hc'; apply Hall; right; exact Hc' | exact Hrun |].
      exists c', child'. split; [exact Hrun'|]. split; [right; exact Hin|]. auto.
Qed.

End Selection.

(** * Invariant of the store *)

Lemma anc_in_chain h a c :
  anc h a c -> forall l, chain h c l -> In a l.
Proof.
  induction 1 as [|c nc p Hc Hp Hanc IH]; intros l Hl.
  - destruct (chain_head _ _ _ Hl) as [l' ->]. left; reflexivity.
  - inversion Hl as [c1 n1 Hn1 Hp1 | c1 n1 p1 l1 Hn1 Hp1 Hc1]; subst; [congruence|].
    assert (p1 = p) by congruence. subst. right. apply IH. exact Hc1.
Qed.

Lemma anc_mono h h' a c :
  anc h a c ->
  (forall b nb, h !! b = Some nb ->
     exists nb', h' !! b = Some nb' /\ parent nb' = parent nb) ->
  anc h' a c.
Proof.
  induction 1 as [|c nc p Hc Hp Hanc IH]; intros Hsame; [constructor|].
  destruct (Hsame c nc Hc) as (nc' & Hc' & Hp').
  econstructor 2; [exact Hc' | rewrite Hp'; exact Hp | auto].
Qed.

(** Every node of a well-formed tree has a chain, of at most ten nodes, all
    of them nodes of the tree. *)
Lemma chain_exists L h :
  tree_ok L h ->
  forall k a n,
    L a -> h !! a = Some n -> (9 - empties (state n) <= k)%nat ->
    exists l, chain h a l /\ (length l + empties (state n) <= 10)%nat /\
              forall b, In b l -> L b.
Proof.
  intros Hok. induction k as [|k IH]; intros a n HLa Hn Hk.
  - pose proof (empties_le_9 (state n)) as H9.
    destruct (parent n) as [p|] eqn:Hp.
    + destruct (ok_parent _ _ Hok _ _ _ HLa Hn Hp) as (_ & np & Hnp & Hlt & _).
      pose proof (empties_le_9 (state np)). lia.
    + exists [a]. split; [econstructor; eauto|]. split; [cbn; lia|].
      intros b [<-|[]]. exact HLa.
  - pose proof (empties_le_9 (state n)) as H9.
    destruct (parent n) as [p|] eqn:Hp.
    + destruct (ok_parent _ _ Hok _ _ _ HLa Hn Hp) as (HLp & np & Hnp & Hlt & _).
      destruct (IH p np HLp Hnp ltac:(lia)) as (l & Hl & Hlen & HLl).
      exists (a :: l). split; [econstructor 2; eauto|]. split; [cbn; lia|].
      intros b [<-|Hb]; auto.
    + exists [a]. split; [econstructor; eauto|]. split; [cbn; lia|].
      intros b [<-|[]]. exact HLa.
Qed.

(** Backpropagation along a chain keeps the tree well formed. *)
Lemma bumped_tree_ok L h h' a l r :
  tree_ok L h ->
  chain h a l ->
  (forall b, In b l -> h' !! b = bump r <$> h !! b) ->
  (forall b, ~ In b l -> h' !! b = h !! b) ->
  tree_ok L h'.
Proof.
  intros Hok Hc Hin Hout.
  assert (Hinv : forall b nb', h' !! b = Some nb' ->
            exists nb, h !! b = Some nb /\
                       ((~ In b l /\ nb' = nb) \/ (In b l /\ nb' = bump r nb))).
  { intros b nb' Hb. destruct (in_dec Nat.eq_dec b l) as [Hbl|Hbl].
    - rewrite (Hin b Hbl) in Hb. destruct (h !! b) as [nb|]; [|discriminate].
      exists nb. split; [reflexivity|]. right. cbn in Hb. inversion Hb; auto.
    - rewrite (Hout b Hbl) in Hb. exists nb'. auto. }
  assert (Hfwd : forall b nb, h !! b = Some nb ->
            exists nb', h' !! b = Some nb' /\
                        ((~ In b l /\ nb' = nb) \/ (In b l /\ nb' = bump r nb))).
  { intros b nb Hb. destruct (in_dec Nat.eq_dec b l) as [Hbl|Hbl].
    - exists (bump r nb). rewrite (Hin b Hbl), Hb. auto.
    - exists nb. rewrite (Hout b Hbl). auto. }
  split.
  - intros b HL. destruct (ok_alloc _ _ Hok b HL) as [nb Hb].
    destruct (Hfwd b nb Hb) as (nb' & Hb' & _). eauto.
  - intros b nb' HL Hb. destruct (Hinv b nb' Hb) as (nb & Hnb & [[_ ->]|[_ ->]]);
      cbn; exact (ok_board _ _ Hok _ _ HL Hnb).
  - intros b nb' HL Hb. destruct (Hinv b nb' Hb) as (nb & Hnb & [[_ ->]|[_ ->]]);
      pose proof (ok_sims _ _ Hok _ _ HL Hnb); cbn; lia.
  - intros b nb' p HL Hb Hp. destruct (Hinv b nb' Hb) as (nb & Hnb & Hcase).
    assert (Hp0 : parent nb = Some p).
    { destruct Hcase as [[_ ->]|[_ ->]]; exact Hp. }
    destruct (ok_parent _ _ Hok _ _ _ HL Hnb Hp0) as (HLp & np & Hnp & Hlt & Himp).
    split; [exact HLp|].
    destruct (Hfwd p np Hnp) as (np' & Hnp' & Hcasep).
    exists np'. split; [exact Hnp'|].
    pose proof (ok_sims _ _ Hok _ _ HLp Hnp) as Hnn.
    destruct Hcasep as [[Hpl ->]|[Hpl ->]].
    + destruct Hcase as [[_ ->]|[Hbl ->]]; [auto|].
      exfalso. apply Hpl. eapply chain_closed; eauto.
    + destruct Hcase as [[_ ->]|[_ ->]]; cbn; split; try exact Hlt; lia.
  - intros b nb' cs c HL Hb Hcs Hcin. destruct (Hinv b nb' Hb) as (nb & Hnb & Hcase).
    assert (Hcs0 : children nb = Some cs).
    { destruct Hcase as [[_ ->]|[_ ->]]; exact Hcs. }
    destruct (ok_children _ _ Hok _ _ _ _ HL Hnb Hcs0 Hcin) as (HLc & nc & Hnc & Hpc).
    split; [exact HLc|].
    destruct (Hfwd c nc Hnc) as (nc' & Hnc' & [[_ ->]|[_ ->]]); eauto.
  - intros b nb' cs i j ci cj ni' nj' HL Hb Hcs Hi Hj Hij Hci Hcj.
    destruct (Hinv b nb' Hb) as (nb & Hnb & Hcase).
    assert (Hcs0 : children nb = Some cs).
    { destruct Hcase as [[_ ->]|[_ ->]]; exact Hcs. }
    destruct (Hinv ci ni' Hci) as (ni & Hni & Hcasei).
    destruct (Hinv cj nj' Hcj) as (nj & Hnj & Hcasej).
    assert (Hsti : state ni' = state ni) by (destruct Hcasei as [[_ ->]|[_ ->]]; reflexivity).
    assert (Hstj : state nj' = state nj) by (destruct Hcasej as [[_ ->]|[_ ->]]; reflexivity).
    rewrite Hsti, Hstj.
    exact (ok_distinct _ _ Hok _ _ _ _ _ _ _ _ _ HL Hnb Hcs0 Hi Hj Hij Hni Hnj).
Qed.

Lemma fresh_tree_ok (s : State) :
  wf_board (board s) -> tree_ok (fun a => a = 0%nat) [fresh_root s].
Proof.
  intros Hwf. split.
  - intros a ->. eexists. reflexivity.
  - intros a n -> Hn. cbn in Hn. inversion Hn; subst. exact Hwf.
  - intros a n -> Hn. cbn in Hn. inversion Hn; subst. cbn. lia.
  - intros a n p -> Hn Hp. cbn in Hn. inversion Hn; subst. discriminate.
  - intros a n cs c -> Hn Hcs. cbn in Hn. inversion Hn; subst. discriminate.
  - intros a n cs i j ci cj ni nj -> Hn Hcs. cbn in Hn. inversion Hn; subst. discriminate.
Qed.

Lemma anc_trans h a b c : anc h b c -> anc h a b -> anc h a c.
Proof.
  induction 1 as [|c nc p Hc Hp Hanc IH]; intros Hab; [exact Hab|].
  econstructor 2; eauto.
Qed.

(** * One iteration of the search *)

Section SearchLoop.
Context `{PyFloat} `{!PyFloatDomain}.

(** The descent reads the store only and ends on a node below the one it
    started from: a node without children, or a child never simulated. *)
Lemma descend_run L fuel : forall a n w,
  tree_ok L (heap w) ->
  L a ->
  heap w !! a = Some n ->
  (empties (state n) < fuel)%nat ->
  exists c nc,
    descend fuel a w = (w, Ok c) /\
    L c /\
    heap w !! c = Some nc /\
    anc (heap w) a c /\
    (truthy (children nc) = false \/ simulations nc = 0).
Proof.
  induction fuel as [|fuel IH]; intros a n w Hok HLa Hn Hfuel; [lia|].
  cbn [descend]. run_with Hn.
  destruct (children n) as [[|c0 cs]|] eqn:Hcs;
    try (exists a, n; rewrite Hcs; split; [reflexivity|]; split; [exact HLa|];
         split; [exact Hn|]; split; [constructor | left; reflexivity]).
  assert (Hkids : forall c, In c (c0 :: cs) ->
            L c /\ exists child, heap w !! c = Some child /\ parent child = Some a).
  { intros c Hc. exact (ok_children _ _ Hok _ _ _ _ HLa Hn Hcs Hc). }
  destruct (all_simulated_run (c0 :: cs) w) as (b & Hall & Hb).
  { intros c Hc. destruct (Hkids c Hc) as (_ & child & Hchild & _). eauto. }
  run_with Hall. destruct b.
  - specialize (Hb eq_refl).
    assert (Hvisited : forall c, In c (c0 :: cs) ->
              exists child, heap w !! c = Some child /\ 1 <= simulations child).
    { intros c Hc. destruct (Hkids c Hc) as (_ & child & Hchild & _).
      exists child. split; [exact Hchild|]. pose proof (Hb c child Hc Hchild). lia. }
    assert (Hsn : 1 <= simulations n).
    { destruct (Hkids c0 (or_introl eq_refl)) as (HLc & child & Hchild & Hpar).
      destruct (ok_parent _ _ Hok _ _ _ HLc Hchild Hpar) as (_ & np & Hnp & _ & Himp).
      assert (np = n) by congruence. subst.
      pose proof (Hb c0 child (or_introl eq_refl) Hchild). lia. }
    destruct (select_child_run w a n c0 cs Hn Hcs) as (g & Hsel & _).
    { intros c Hc. destruct (Hvisited c Hc) as (child & Hchild & Hsc). eauto 6. }
    run_with Hsel.
    assert (Hnext : In (fold_max g c0 cs) (c0 :: cs)).
    { destruct (fold_max_in g cs c0) as [->|Hin]; [left; reflexivity | right; exact Hin]. }
    destruct (Hkids _ Hnext) as (HLnext & child & Hchild & Hpar).
    destruct (ok_parent _ _ Hok _ _ _ HLnext Hchild Hpar) as (_ & np & Hnp & Hlt & _).
    assert (np = n) by congruence. subst.
    destruct (IH _ child w Hok HLnext Hchild ltac:(lia))
      as (c & nc & Hrun & HLc & Hc & Hanc & Hleaf).
    exists c, nc. split; [exact Hrun|]. split; [exact HLc|]. split; [exact Hc|].
    split; [|exact Hleaf].
    eapply anc_trans; [exact Hanc|]. econstructor 2; [exact Hchild | exact Hpar | constructor].
  - destruct (first_unsimulated_run (c0 :: cs) w) as (c & child & Hrun & Hin & Hchild & Hz).
    { intros c Hc. destruct (Hkids c Hc) as (HLc & child & Hchild & _).
      exists child. split; [exact Hchild|]. exact (ok_sims _ _ Hok _ _ HLc Hchild). }
    { exact Hall. }
    destruct (Hkids c Hin) as (HLc & child' & Hchild' & Hpar).
    exists c, child. split; [exact Hrun|]. split; [exact HLc|]. split; [exact Hchild|].
    split; [|right; exact Hz].
    econstructor 2; [exact Hchild' | exact Hpar | constructor].
Qed.

(** One iteration runs to its end on a well-formed tree, leaves it well
    formed, adds exactly one simulation to the root and changes no list of
    children that is not empty. *)
Lemma mcts_step_run L fuel root_node r w :
  tree_ok L (heap w) ->
  L root_node ->
  heap w !! root_node = Some r ->
  (10 <= fuel)%nat ->
  exists w' r' L',
    mcts_step fuel root_node w = (w', Ok tt) /\
    tree_ok L' (heap w') /\
    (forall a, L a -> L' a) /\
    heap w' !! root_node = Some r' /\
    simulations r' = simulations r + 1 /\
    parent r' = parent r /\ state r' = state r /\
    kids_stable (heap w) (heap w').
Proof.
  intros Hok HLr Hr Hfuel. unfold mcts_step. run_with Hr.
  (* the root is expanded when it has no children *)
  assert (Hfirst : exists w1 r1 L1,
            (if negb (truthy (children r)) then expand root_node else ret root_node) w
            = (w1, Ok root_node) /\
            tree_ok L1 (heap w1) /\ (forall a, L a -> L1 a) /\
            heap w1 !! root_node = Some r1 /\
            simulations r1 = simulations r /\ parent r1 = parent r /\ state r1 = state r /\
            kids_stable (heap w) (heap w1)).
  { destruct (truthy (children r)) eqn:Htr; cbn [negb].
    - exists w, r, L. split; [reflexivity|]. split; [exact Hok|]. split; [auto|].
      split; [exact Hr|].
      split; [reflexivity|]. split; [reflexivity|]. split; [reflexivity|].
      intros b nb Hb _. eauto.
    - destruct (expand_run root_node r w Hr (ok_board _ _ Hok _ _ HLr Hr))
        as (ss & Hrun & _ & Hss & Hdist).
      eexists _, _, _. split; [exact Hrun|]. cbn [heap].
      split; [apply expanded_tree_ok; eassumption|].
      split; [intros a Ha; left; exact Ha|].
      split; [apply expanded_self; exact Hr|]. cbn.
      split; [reflexivity|]. split; [reflexivity|]. split; [reflexivity|].
      intros b nb Hb Htb. exists nb. split; [|reflexivity].
      apply expanded_old; [exact Hb|]. intros ->. congruence. }
  destruct Hfirst as (w1 & r1 & L1 & Hrun1 & Hok1 & Hsub1 & Hr1 & Hs1 & Hp1 & Hst1 & Hkids1).
  run_with Hrun1.
  pose proof (empties_le_9 (state r1)) as H9.
  destruct (descend_run L1 fuel root_node r1 w1 Hok1 (Hsub1 _ HLr) Hr1 ltac:(lia))
    as (c & nc & Hdesc & HLc & Hc & Hanc & Hleaf).
  run_with Hdesc. run_with Hc.
  (* the node reached is expanded when it has been simulated before *)
  assert (Hsecond : exists w3 c' nc' r3 L3,
            (if simulations nc >? 0
             then expand c;;;
                  (let! curr' := load c in
                   match children curr' with
                   | Some (c1 :: cs1) => choice (c1 :: cs1)
                   | _ => ret c
                   end)
             else ret c) w1 = (w3, Ok c') /\
            tree_ok L3 (heap w3) /\ (forall a, L1 a -> L3 a) /\ L3 c' /\
            heap w3 !! c' = Some nc' /\ anc (heap w3) root_node c' /\
            heap w3 !! root_node = Some r3 /\
            simulations r3 = simulations r /\ parent r3 = parent r /\ state r3 = state r /\
            kids_stable (heap w1) (heap w3)).
  { destruct (Z.gtb_spec (simulations nc) 0) as [Hpos|Hnpos].
    - assert (Hfalsy : truthy (children nc) = false) by (destruct Hleaf; [assumption | lia]).
      destruct (expand_run c nc w1 Hc (ok_board _ _ Hok1 _ _ HLc Hc))
        as (ss & Hrun & _ & Hss & Hdist).
      set (h2 := expanded (heap w1) c nc ss) in *.
      set (L2 := fun b => L1 b \/ In b (seq (length (heap w1)) (length ss))).
      assert (Hok2 : tree_ok L2 h2) by (apply expanded_tree_ok; assumption).
      assert (Hc2 : h2 !! c = Some (set_children nc (Some (seq (length (heap w1)) (length ss)))))
        by (apply expanded_self; exact Hc).
      assert (Hkeep : forall b nb, heap w1 !! b = Some nb ->
                exists nb', h2 !! b = Some nb' /\ parent nb' = parent nb).
      { intros b nb Hb. destruct (expanded_keeps _ c nc ss b nb Hc Hb) as (nb' & ? & ? & _).
        eauto. }
      assert (Hanc2 : anc h2 root_node c) by (eapply anc_mono; eauto).
      assert (Hkids2 : kids_stable (heap w1) h2).
      { intros b nb Hb Htb. exists nb. split; [|reflexivity].
        apply expanded_old; [exact Hb|]. intros ->. congruence. }
      destruct (expanded_keeps _ c nc ss root_node r1 Hc Hr1)
        as (r2 & Hr2 & Hp2 & Hst2 & Hs2 & _).
      run_with Hrun.
      erewrite bind_run by (apply load_run; cbn [heap]; exact Hc2). cbv beta iota.
      cbn [children set_children].
      destruct (seq (length (heap w1)) (length ss)) as [|c1 cs1] eqn:Hseq.
      + eexists _, c, _, r2, L2. split; [reflexivity|]. cbn [heap].
        split; [exact Hok2|]. split; [intros a Ha; left; exact Ha|].
        split; [left; exact HLc|]. split; [exact Hc2|]. split; [exact Hanc2|].
        split; [exact Hr2|]. split; [congruence|]. split; [congruence|].
        split; [congruence | exact Hkids2].
      + destruct (choice_run (c1 :: cs1)
                    {| heap := h2; rng := rng w1;
                       expand_log := expand_log w1 ++ [(c, children nc)] |})
          as (c' & Hin & Hch); [discriminate|].
        pose proof Hin as Hin0. rewrite <- Hseq in Hin.
        destruct (expanded_child _ c nc ss c' Hc Hin) as (s' & _ & Hc').
        eexists _, c', _, r2, L2. split; [exact Hch|]. cbn [heap].
        split; [exact Hok2|]. split; [intros a Ha; left; exact Ha|].
        split; [right; exact Hin0|].
        split; [exact Hc'|].
        split; [econstructor 2; [exact Hc' | reflexivity | exact Hanc2]|].
        split; [exact Hr2|]. split; [congruence|]. split; [congruence|].
        split; [congruence | exact Hkids2].
    - exists w1, c, nc, r1, L1. split; [reflexivity|]. split; [exact Hok1|].
      split; [auto|]. split; [exact HLc|].
      split; [exact Hc|]. split; [exact Hanc|]. split; [exact Hr1|].
      split; [exact Hs1|]. split; [exact Hp1|]. split; [exact Hst1|].
      intros b nb Hb _. eauto. }
  destruct Hsecond
    as (w3 & c' & nc' & r3 & L3 & Hrun3 & Hok3 & Hsub3 & HLc' & Hc' & Hanc3 & Hr3 & Hs3 & Hp3
        & Hst3 & Hkids3).
  run_with Hrun3.
  pose proof (empties_le_9 (state nc')) as H9'.
  destruct (chain_exists _ _ Hok3 _ c' nc' HLc' Hc' (Nat.le_refl _)) as (l & Hl & Hlen & _).
  destruct (random_rollout_run fuel c' nc' l w3 Hc' (ok_board _ _ Hok3 _ _ HLc' Hc') Hl
              ltac:(lia) ltac:(lia))
    as (winner & w2 & w' & _ & Hroll & _ & Hin & Hout).
  pose proof (anc_in_chain _ _ _ Hanc3 _ Hl) as Hroot.
  exists w', (bump (rollout_result winner (turn (state nc'))) r3), L3.
  split; [exact Hroll|].
  split; [eapply bumped_tree_ok; eauto|].
  split; [auto|].
  split; [rewrite (Hin _ Hroot), Hr3; reflexivity|].
  cbn. split; [congruence|]. split; [congruence|]. split; [congruence|].
  intros b nb Hb Htb.
  destruct (Hkids1 b nb Hb Htb) as (nb1 & Hb1 & Hk1).
  destruct (Hkids3 b nb1 Hb1 ltac:(congruence)) as (nb3 & Hb3 & Hk3).
  destruct (in_dec Nat.eq_dec b l) as [Hbl|Hbl].
  - eexists. rewrite (Hin b Hbl), Hb3. split; [reflexivity|]. cbn. congruence.
  - exists nb3. rewrite (Hout b Hbl). split; [exact Hb3 | congruence].
Qed.

End SearchLoop.

(** * The fixed-point instance satisfies the laws *)

#[export] Instance Fixed_domain : @PyFloatDomain Fixed.ops.
Proof.
  split.
  - reflexivity.
  - intros n s Hn Hs. cbn. unfold Fixed.of_Z, Fixed.log, Fixed.div, Fixed.gt, Fixed.unit_.
    destruct (Z.eqb_spec (s * 1000000) 0) as [|Hne]; [reflexivity|].
    rewrite Z.gtb_ltb. apply Z.ltb_ge. cbn [Z.mul].
    apply Z.div_pos; [|lia].
    pose proof (Z.log2_nonneg (n * 1000000 / 1000000)). lia.
Qed.

#[export] Instance Fixed_order : @PyFloatOrder Fixed.ops.
Proof.
  split.
  - intros [u|]; cbn; [|reflexivity]. rewrite Z.gtb_ltb. apply Z.ltb_irrefl.
  - intros [u|] [v|] [t|]; cbn; try congruence.
    rewrite !Z.gtb_ltb, !Z.ltb_lt. lia.
  - intros [u|] [v|] [t|] _; cbn; try discriminate; try tauto.
    rewrite !Z.gtb_ltb, !Z.ltb_lt. lia.
  - reflexivity.
  - reflexivity.
Qed.

(** * C5 and C9: the search loop *)

Section SearchRuns.
Context `{PyFloat} `{!PyFloatDomain}.

Lemma mcts_loop_run fuel root_node steps : forall L r w,
  tree_ok L (heap w) ->
  L root_node ->
  heap w !! root_node = Some r ->
  (10 <= fuel)%nat ->
  exists w' r' L',
    mcts_loop fuel root_node steps w = (w', Ok tt) /\
    tree_ok L' (heap w') /\
    (forall a, L a -> L' a) /\
    heap w' !! root_node = Some r' /\
    simulations r' = simulations r + Z.of_nat steps /\
    parent r' = parent r /\ state r' = state r /\
    kids_stable (heap w) (heap w').
Proof.
  induction steps as [|steps IH]; intros L r w Hok HLr Hr Hfuel.
  - exists w, r, L. cbn [mcts_loop]. split; [reflexivity|].
    split; [exact Hok|]. split; [auto|]. split; [exact Hr|]. split; [cbn; lia|].
    split; [reflexivity|]. split; [reflexivity|]. intros b nb Hb _. eauto.
  - destruct (mcts_step_run L fuel root_node r w Hok HLr Hr Hfuel)
      as (w1 & r1 & L1 & Hstep & Hok1 & Hsub1 & Hr1 & Hs1 & Hp1 & Hst1 & Hk1).
    destruct (IH L1 r1 w1 Hok1 (Hsub1 _ HLr) Hr1 Hfuel)
      as (w' & r' & L' & Hloop & Hok' & Hsub' & Hr' & Hs' & Hp' & Hst' & Hk').
    exists w', r', L'. cbn [mcts_loop]. run_with Hstep.
    split; [exact Hloop|]. split; [exact Hok'|]. split; [auto|]. split; [exact Hr'|].
    split; [lia|]. split; [congruence|]. split; [congruence|].
    intros b nb Hb Htb.
    destruct (Hk1 b nb Hb Htb) as (nb1 & Hb1 & Hc1).
    destruct (Hk' b nb1 Hb1 ltac:(congruence)) as (nb' & Hb' & Hc').
    exists nb'. split; [exact Hb' | congruence].
Qed.

End SearchRuns.

(** C5.  From a store that holds a fresh root and nothing else, [N]
    iterations of the search run to their end and leave the root with
    exactly [N] simulations, whatever the random draws. *)
Theorem mcts_root_simulations `{PyFloat} `{!PyFloatDomain}
    (s : State) (rand : nat -> nat) (N : Z) (fuel : nat) :
  wf_board (board s) ->
  0 <= N ->
  (10 <= fuel)%nat ->
  exists w' r',
    mcts fuel {| root := 0%nat |} N (fresh_world s rand) = (w', Ok tt) /\
    heap w' !! 0%nat = Some r' /\
    simulations r' = N /\
    parent r' = None.
Proof.
  intros Hwf HN Hfuel.
  destruct (mcts_loop_run fuel 0%nat (Z.to_nat N) _ (fresh_root s) (fresh_world s rand)
              (fresh_tree_ok s Hwf) eq_refl eq_refl Hfuel)
    as (w' & r' & L' & Hrun & _ & _ & Hr' & Hs' & Hp' & _).
  exists w', r'. unfold mcts. cbn [root].
  split; [exact Hrun|]. split; [exact Hr'|].
  split; [cbn in Hs'; lia | exact Hp'].
Qed.

Lemma mcts_root_simulations_witness :
  exists w' r',
    mcts (H := Fixed.ops) 10 {| root := 0%nat |} 5
      (fresh_world {| board := empty_board; turn := Turn.x |} (fun i => i)) = (w', Ok tt) /\
    heap w' !! 0%nat = Some r' /\
    simulations r' = 5 /\
    parent r' = None.
Proof.
  apply (mcts_root_simulations (H := Fixed.ops)
           {| board := empty_board; turn := Turn.x |} (fun i => i) 5 10).
  - apply wf_board_grid.
  - lia.
  - lia.
Defined.




(** * C4: which nodes are expanded *)

Lemma read_only_keeps_log {A} (m : M A) : read_only m -> keeps_log m.
Proof. intros Hm w. rewrite (Hm w). reflexivity. Qed.

Lemma read_only_bind {A B} (m : M A) (k : A -> M B) :
  read_only m -> (forall a, read_only (k a)) -> read_only (bind m k).
Proof.
  intros Hm Hk w. unfold bind. specialize (Hm w).
  destruct (m w) as [w1 [a|e]]; cbn in Hm; subst; [apply Hk | reflexivity].
Qed.

Lemma keeps_log_bind {A B} (m : M A) (k : A -> M B) :
  keeps_log m -> (forall a, keeps_log (k a)) -> keeps_log (bind m k).
Proof.
  intros Hm Hk w. unfold bind. specialize (Hm w).
  destruct (m w) as [w1 [a|e]]; cbn in Hm; [rewrite (Hk a w1) |]; exact Hm.
Qed.

Lemma read_only_load a : read_only (load a).
Proof. intros w. unfold load. destruct (heap w !! a); reflexivity. Qed.

Lemma read_only_lift {A} (r : result A) : read_only (lift r).
Proof. intros w. reflexivity. Qed.

Lemma read_only_ret {A} (a : A) : read_only (ret a).
Proof. intros w. reflexivity. Qed.

Lemma read_only_raise {A} e : read_only (@raise A e).
Proof. intros w. reflexivity. Qed.

Lemma keeps_log_store a n : keeps_log (store a n).
Proof. intros w. reflexivity. Qed.

Lemma keeps_log_alloc n : keeps_log (alloc n).
Proof. intros w. reflexivity. Qed.

Lemma keeps_log_choice {A} (l : list A) : keeps_log (choice l).
Proof. intros w. unfold choice. destruct (l !! _); reflexivity. Qed.

Lemma keeps_log_mapM {A B} (f : A -> M B) (l : list A) :
  (forall a, keeps_log (f a)) -> keeps_log (mapM f l).
Proof.
  intros Hf. induction l as [|a l IH]; cbn [mapM].
  - apply read_only_keeps_log, read_only_ret.
  - apply keeps_log_bind; [apply Hf|]. intros b.
    apply keeps_log_bind; [exact IH|]. intros bs.
    apply read_only_keeps_log, read_only_ret.
Qed.

Lemma keeps_log_backpropagate fuel : forall node r, keeps_log (backpropagate fuel node r).
Proof.
  induction fuel as [|fuel IH]; intros [a|] r; cbn [backpropagate];
    try (apply read_only_keeps_log; first [apply read_only_ret | apply read_only_raise]).
  apply keeps_log_bind; [apply read_only_keeps_log, read_only_load|]. intros n.
  apply keeps_log_bind; [apply keeps_log_store|]. intros _. apply IH.
Qed.

Lemma keeps_log_playout fuel : forall s, keeps_log (playout fuel s).
Proof.
  induction fuel as [|fuel IH]; intros s; cbn [playout];
    [apply read_only_keeps_log, read_only_raise|].
  apply keeps_log_bind; [apply read_only_keeps_log, read_only_lift|]. intros [t|];
    [apply read_only_keeps_log, read_only_ret|].
  apply keeps_log_bind; [apply read_only_keeps_log, read_only_lift|]. intros [|a l];
    [apply read_only_keeps_log, read_only_ret|].
  apply keeps_log_bind; [apply read_only_keeps_log, read_only_lift|]. intros again.
  apply keeps_log_bind; [apply keeps_log_choice|]. intros act.
  apply keeps_log_bind; [apply read_only_keeps_log, read_only_lift|]. intros s'.
  apply IH.
Qed.

Lemma keeps_log_random_rollout fuel a : keeps_log (random_rollout fuel a).
Proof.
  unfold random_rollout.
  apply keeps_log_bind; [apply read_only_keeps_log, read_only_load|]. intros n.
  apply keeps_log_bind; [apply keeps_log_playout|]. intros winner.
  apply keeps_log_backpropagate.
Qed.

Lemma read_only_all_simulated cs : read_only (all_simulated cs).
Proof.
  induction cs as [|c cs IH]; cbn [all_simulated]; [apply read_only_ret|].
  apply read_only_bind; [apply read_only_load|]. intros child.
  destruct (_ >? _); [exact IH | apply read_only_ret].
Qed.

Lemma read_only_first_unsimulated cs : read_only (first_unsimulated cs).
Proof.
  induction cs as [|c cs IH]; cbn [first_unsimulated]; [apply read_only_raise|].
  apply read_only_bind; [apply read_only_load|]. intros child.
  destruct (_ =? _); [apply read_only_ret | exact IH].
Qed.

(** The child that the descent picks as never simulated has no simulation. *)
Lemma first_unsimulated_zero cs : forall w w' c,
  first_unsimulated cs w = (w', Ok c) ->
  exists child, heap w !! c = Some child /\ simulations child = 0.
Proof.
  induction cs as [|c0 cs IH]; intros w w' c Hrun; cbn [first_unsimulated] in Hrun.
  - discriminate.
  - unfold bind, load in Hrun.
    destruct (heap w !! c0) as [child|] eqn:Hchild; [|discriminate].
    destruct (Z.eqb_spec (simulations child) 0) as [Hz|Hnz].
    + inversion Hrun; subst. eauto.
    + eapply IH. exact Hrun.
Qed.

Section ExpandHistory.
Context `{PyFloat}.

Lemma read_only_max_by (f : addr -> M float) l :
  (forall c, read_only (f c)) -> forall best k, read_only (max_by f best k l).
Proof.
  intros Hf. induction l as [|c l IH]; intros best k; cbn [max_by]; [apply read_only_ret|].
  apply read_only_bind; [apply Hf|]. intros k'. destruct (Fgt k' k); apply IH.
Qed.

Lemma read_only_select_child a : read_only (select_child a).
Proof.
  unfold select_child.
  apply read_only_bind; [apply read_only_lift|]. intros ec.
  apply read_only_bind; [apply read_only_load|]. intros node.
  destruct (children node) as [[|c cs]|]; cbn [py_max]; try apply read_only_raise.
  assert (Hkey : forall c', read_only
            (let! child := load c' in let! node0 := load a in lift (ucb_key ec node0 child))).
  { intros c'. apply read_only_bind; [apply read_only_load|]. intros child.
    apply read_only_bind; [apply read_only_load|]. intros node0. apply read_only_lift. }
  apply read_only_bind; [apply Hkey|]. intros k. apply read_only_max_by. exact Hkey.
Qed.

Lemma read_only_descend fuel : forall a, read_only (descend fuel a).
Proof.
  induction fuel as [|fuel IH]; intros a; cbn [descend]; [apply read_only_raise|].
  apply read_only_bind; [apply read_only_load|]. intros node.
  destruct (children node) as [[|c cs]|]; try apply read_only_ret.
  apply read_only_bind; [apply read_only_all_simulated|]. intros [|].
  - apply read_only_bind; [apply read_only_select_child|]. intros next. apply IH.
  - apply read_only_first_unsimulated.
Qed.

(** Where the descent stops: on a node whose [children] field is false, or on
    a child without simulations.  No assumption on the store is needed. *)
Lemma descend_stops fuel : forall a w w' c,
  descend fuel a w = (w', Ok c) ->
  forall nc, heap w !! c = Some nc ->
    truthy (children nc) = false \/ simulations nc = 0.
Proof.
  induction fuel as [|fuel IH]; intros a w w' c Hrun nc Hnc; cbn [descend] in Hrun;
    [discriminate|].
  unfold bind at 1 in Hrun. unfold load at 1 in Hrun.
  destruct (heap w !! a) as [node|] eqn:Hnode; [|discriminate].
  destruct (children node) as [[|c0 cs]|] eqn:Hcs.
  - inversion Hrun; subst. left. assert (nc = node) by congruence. subst.
    rewrite Hcs. reflexivity.
  - unfold bind at 1 in Hrun.
    pose proof (read_only_all_simulated (c0 :: cs) w) as Hro.
    destruct (all_simulated (c0 :: cs) w) as [w1 [[|]|e]]; cbn in Hro; subst w1;
      [| |discriminate].
    + unfold bind at 1 in Hrun.
      pose proof (read_only_select_child a w) as Hro.
      destruct (select_child a w) as [w1 [next|e]]; cbn in Hro; subst w1; [|discriminate].
      eapply IH; eauto.
    + right. destruct (first_unsimulated_zero _ _ _ _ Hrun) as (child & Hchild & Hz).
      congruence.
  - inversion Hrun; subst. left. assert (nc = node) by congruence. subst.
    rewrite Hcs. reflexivity.
Qed.

(** A call to [expand] adds at most one entry to the history: the node and
    the [children] field it had when the call was made. *)
Lemma expand_history a w :
  exists new,
    expand_calls w (fst (expand a w)) new /\
    forall e, In e new -> exists n, heap w !! a = Some n /\ e = (a, children n).
Proof.
  unfold expand, expand_calls. unfold bind at 1. unfold load at 1.
  destruct (heap w !! a) as [n|] eqn:Hn.
  - exists [(a, children n)]. split.
    + set (w0 := {| heap := heap w; rng := rng w;
                    expand_log := expand_log w ++ [(a, children n)] |}).
      assert (Hrec : record_expand a (children n) w = (w0, Ok tt)) by reflexivity.
      run_with Hrec.
      assert (Hrest : keeps_log
                (let! valid_actions := lift (get_valid_actions (state n)) in
                 let! cs := mapM (fun act =>
                                    let! s' := lift (apply_action act (state n)) in
                                    alloc (new_child a s')) valid_actions in
                 let! n' := load a in
                 store a (set_children n' (Some cs)) ;;; ret a)).
      { apply keeps_log_bind; [apply read_only_keeps_log, read_only_lift|]. intros l.
        apply keeps_log_bind.
        - apply keeps_log_mapM. intros act.
          apply keeps_log_bind; [apply read_only_keeps_log, read_only_lift|]. intros s'.
          apply keeps_log_alloc.
        - intros cs. apply keeps_log_bind; [apply read_only_keeps_log, read_only_load|].
          intros n'. apply keeps_log_bind; [apply keeps_log_store|]. intros _.
          apply read_only_keeps_log, read_only_ret. }
      rewrite (Hrest w0). reflexivity.
    + intros e [<-|[]]. exists n. auto.
  - exists []. split; [cbn; rewrite app_nil_r; reflexivity|]. intros e [].
Qed.

End ExpandHistory.

Lemma expand_calls_refl w : expand_calls w w [].
Proof. unfold expand_calls. rewrite app_nil_r. reflexivity. Qed.

Lemma expand_calls_trans w w1 w2 n1 n2 :
  expand_calls w w1 n1 -> expand_calls w1 w2 n2 -> expand_calls w w2 (n1 ++ n2).
Proof. unfold expand_calls. intros H1 H2. rewrite H2, H1, app_assoc. reflexivity. Qed.

Lemma expand_calls_keeps w w1 w2 n1 :
  expand_calls w w1 n1 -> expand_log w2 = expand_log w1 -> expand_calls w w2 n1.
Proof. unfold expand_calls. congruence. Qed.

Lemma truthy_false_childless (cs : option (list addr)) :
  truthy cs = false -> childless cs.
Proof. destruct cs as [[|c cs]|]; cbn; [right | discriminate | left]; auto. Qed.

Section StepHistory.
Context `{PyFloat}.

(** Every call to [expand] that one iteration makes is on a node whose
    [children] field is [None] or empty at that moment; this holds on any
    store and also when the iteration ends in a fault. *)
Lemma mcts_step_history fuel root_node w :
  exists new,
    expand_calls w (fst (mcts_step fuel root_node w)) new /\
    List.Forall (fun e => childless (snd e)) new.
Proof.
  unfold mcts_step. unfold bind at 1. unfold load at 1.
  destruct (heap w !! root_node) as [r|] eqn:Hr;
    [|exists []; split; [apply expand_calls_refl | constructor]].
  (* the expansion of the root *)
  match goal with
  | |- context [bind ?m _ w] =>
      assert (Hfirst : exists new1,
                expand_calls w (fst (m w)) new1 /\
                List.Forall (fun e => childless (snd e)) new1);
      [| unfold bind at 1; destruct (m w) as [w1 [x|e]] eqn:Hm; cbn [fst] in Hfirst |- *;
         [|exact Hfirst] ]
  end.
  { destruct (truthy (children r)) eqn:Htr; cbn [negb].
    - exists []. split; [apply expand_calls_refl | constructor].
    - destruct (expand_history root_node w) as (new1 & Hcalls & Hnew).
      exists new1. split; [exact Hcalls|]. apply List.Forall_forall. intros ev Hev.
      destruct (Hnew ev Hev) as (n & Hn & ->). cbn [snd].
      apply truthy_false_childless. assert (n = r) by congruence. subst. exact Htr. }
  destruct Hfirst as (new1 & Hcalls1 & Hall1).
  (* the descent reads only *)
  unfold bind at 1.
  pose proof (read_only_descend fuel root_node w1) as Hro.
  destruct (descend fuel root_node w1) as [w1' [c|e]] eqn:Hdesc; cbn [fst] in Hro |- *;
    subst w1'; [|exists new1; split; assumption].
  unfold bind at 1. unfold load at 1.
  destruct (heap w1 !! c) as [nc|] eqn:Hnc; [|exists new1; split; assumption].
  (* the expansion of the node reached *)
  match goal with
  | |- context [bind ?m _ w1] =>
      assert (Hsecond : exists new2,
                expand_calls w1 (fst (m w1)) new2 /\
                List.Forall (fun e => childless (snd e)) new2);
      [| unfold bind at 1; destruct (m w1) as [w3 [c'|e]] eqn:Hm2; cbn [fst] in Hsecond |- *;
         destruct Hsecond as (new2 & Hcalls2 & Hall2)]
  end.
  { destruct (Z.gtb_spec (simulations nc) 0) as [Hpos|Hnpos].
    - assert (Hfalsy : truthy (children nc) = false).
      { destruct (descend_stops _ _ _ _ _ Hdesc nc Hnc) as [?|?]; [assumption | lia]. }
      unfold bind at 1.
      destruct (expand_history c w1) as (new2 & Hcalls & Hnew).
      exists new2. split.
      + destruct (expand c w1) as [w2 [x2|e2]]; cbn [fst] in Hcalls |- *; [|exact Hcalls].
        eapply expand_calls_keeps; [exact Hcalls|].
        apply (keeps_log_bind (load c)); [apply read_only_keeps_log, read_only_load|].
        intros curr'. destruct (children curr') as [[|c1 cs1]|];
          first [apply read_only_keeps_log, read_only_ret | apply keeps_log_choice].
      + apply List.Forall_forall. intros ev Hev.
        destruct (Hnew ev Hev) as (n & Hn & ->). cbn [snd].
        assert (n = nc) by congruence. subst.
        apply truthy_false_childless. exact Hfalsy.
    - exists []. split; [apply expand_calls_refl | constructor]. }
  - exists (new1 ++ new2). split; [|apply List.Forall_app; split; assumption].
    eapply expand_calls_keeps; [eapply expand_calls_trans; eassumption|].
    apply keeps_log_random_rollout.
  - exists (new1 ++ new2). split; [|apply List.Forall_app; split; assumption].
    eapply expand_calls_trans; eassumption.
Qed.

Lemma mcts_loop_history fuel root_node steps : forall w,
  exists new,
    expand_calls w (fst (mcts_loop fuel root_node steps w)) new /\
    List.Forall (fun e => childless (snd e)) new.
Proof.
  induction steps as [|steps IH]; intros w; cbn [mcts_loop].
  - exists []. split; [apply expand_calls_refl | constructor].
  - destruct (mcts_step_history fuel root_node w) as (new1 & Hc1 & Ha1).
    unfold bind. destruct (mcts_step fuel root_node w) as [w1 [[]|e]]; cbn [fst] in Hc1 |- *.
    + destruct (IH w1) as (new2 & Hc2 & Ha2).
      exists (new1 ++ new2). split; [eapply expand_calls_trans; eassumption|].
      apply List.Forall_app; split; assumption.
    + exists new1. split; assumption.
Qed.

End StepHistory.

(** C4 fails as stated: on a root whose board is full, the first iteration
    sets [children] to the empty list, and the second iteration calls
    [expand] on that root twice more, with [children] equal to [[]]. *)
Lemma mcts_reexpands_full_board :
  mcts (H := Fixed.ops) 10 {| root := 0%nat |} 2 (fresh_world drawn_state (fun i => i))
  = ({| heap := [ {| parent := None; state := drawn_state; simulations := 2;
                     wins := 4 # 4; children := Some [] |} ];
        rng := fun i => i;
        expand_log := [(0%nat, None); (0%nat, Some []); (0%nat, Some [])] |},
     Ok tt).
Proof. reflexivity. Qed.

(** C4, amended.  In every run of the search, on any store and up to a fault
    if there is one, each call to [expand] is on a node whose [children]
    field is [None] or the empty list at that moment.  On a well-formed tree,
    where the run reaches its end, no list of children that is not empty has
    changed at the end. *)
Theorem mcts_expands_childless_only `{PyFloat}
    (fuel : nat) (tree : SearchTree) (N : Z) (w : World) :
  (exists new,
     expand_calls w (fst (mcts fuel tree N w)) new /\
     List.Forall (fun e => childless (snd e)) new) /\
  (PyFloatDomain ->
   forall L, tree_ok L (heap w) -> L (root tree) -> (10 <= fuel)%nat ->
   kids_stable (heap w) (heap (fst (mcts fuel tree N w)))).
Proof.
  split.
  - unfold mcts. apply mcts_loop_history.
  - intros Hdom L Hok HLr Hfuel. unfold mcts.
    destruct (ok_alloc _ _ Hok _ HLr) as [r Hr].
    destruct (mcts_loop_run fuel (root tree) (Z.to_nat N) L r w Hok HLr Hr Hfuel)
      as (w' & r' & L' & Hrun & _ & _ & _ & _ & _ & _ & Hkids).
    rewrite Hrun. exact Hkids.
Qed.

Lemma mcts_expands_childless_only_witness :
  exists n0,
    heap (fst (mcts (H := Fixed.ops) 10 {| root := 0%nat |} 7
                 (two_node_world (fun i => (3 * i)%nat)))) !! 0%nat = Some n0 /\
    children n0 = Some [1%nat].
Proof.
  destruct (mcts_expands_childless_only (H := Fixed.ops) 10 {| root := 0%nat |} 7
              (two_node_world (fun i => (3 * i)%nat))) as [_ Hstable].
  apply (Hstable Fixed_domain (fun a => (a < 2)%nat)) with (b := 0%nat)
    (nb := {| parent := None; state := scenario; simulations := 0; wins := 0;
              children := Some [1%nat] |}).
  - apply two_node_tree_ok.
  - cbn. lia.
  - lia.
  - reflexivity.
  - reflexivity.
Defined.

(** * C6 and C7: the selection score *)

Section FirstMaximal.
Context `{PyFloat} `{!PyFloatOrder}.

Lemma first_maximal_single g c : first_maximal g [c] 0 c.
Proof.
  split; [reflexivity|]. split.
  - intros [|j] cj Hj; cbn in Hj; [|discriminate]. inversion Hj; subst. apply Fgt_irrefl.
  - intros j cj Hj. lia.
Qed.

Lemma first_maximal_snoc g pre i best c :
  (forall x, In x pre -> Fnan (g x) = false) ->
  first_maximal g pre i best ->
  exists i', first_maximal g (pre ++ [c]) i' (if Fgt (g c) (g best) then c else best).
Proof.
  intros Hnan (Hi & Hmax & Hfirst).
  assert (Hsplit : forall j cj, (pre ++ [c]) !! j = Some cj ->
            pre !! j = Some cj \/ ((length pre <= j)%nat /\ cj = c)).
  { intros j cj Hj. apply lookup_app_Some in Hj as [Hj|[Hge Hj]]; [left; exact Hj|].
    right. split; [exact Hge|].
    destruct (j - length pre)%nat; cbn in Hj; [congruence | discriminate]. }
  destruct (Fgt (g c) (g best)) eqn:Hgt.
  - exists (length pre). split; [apply list_lookup_middle; reflexivity|]. split.
    + intros j cj Hj. destruct (Hsplit j cj Hj) as [Hpre|[_ ->]]; [|apply Fgt_irrefl].
      destruct (Fgt (g cj) (g c)) eqn:Hcj; [|reflexivity].
      rewrite <- (Hmax j cj Hpre). symmetry. eapply Fgt_trans; eassumption.
    + intros j cj Hlt Hj. destruct (Hsplit j cj Hj) as [Hpre|[Hge _]]; [|lia].
      assert (Hcj : Fnan (g cj) = false).
      { apply Hnan. apply list_elem_of_In. eapply list_elem_of_lookup_2. exact Hpre. }
      destruct (Fgt_cotrans _ (g cj) _ Hcj Hgt) as [Hok|Hbad]; [exact Hok|].
      rewrite (Hmax j cj Hpre) in Hbad. discriminate.
  - exists i. split; [apply lookup_app_l_Some; exact Hi|]. split.
    + intros j cj Hj. destruct (Hsplit j cj Hj) as [Hpre|[_ ->]]; [eauto | exact Hgt].
    + intros j cj Hlt Hj. pose proof (lookup_lt_Some _ _ _ Hi) as Hil.
      destruct (Hsplit j cj Hj) as [Hpre|[Hge _]]; [eauto | lia].
Qed.

(** The fold of [max] answers the first element with a maximal key, when no
    key is a NaN. *)
Lemma fold_max_first_maximal g l : forall pre i best,
  (forall x, In x (pre ++ l) -> Fnan (g x) = false) ->
  first_maximal g pre i best ->
  exists i', first_maximal g (pre ++ l) i' (fold_max g best l).
Proof.
  induction l as [|c l IH]; intros pre i best Hnan Hfm.
  - rewrite app_nil_r. exists i. exact Hfm.
  - destruct (first_maximal_snoc g pre i best c) as (i1 & Hfm1); [|exact Hfm|].
    { intros x Hx. apply Hnan. apply in_or_app. left; exact Hx. }
    cbn [fold_max].
    assert (Heq : pre ++ c :: l = (pre ++ [c]) ++ l) by (rewrite <- app_assoc; reflexivity).
    rewrite Heq in Hnan |- *.
    destruct (Fgt (g c) (g best)); eapply IH; eauto.
Qed.

Lemma first_maximal_ext g g' l i c :
  (forall x, In x l -> g x = g' x) ->
  first_maximal g l i c -> first_maximal g' l i c.
Proof.
  intros Hext (Hi & Hmax & Hfirst).
  assert (Hin : forall j cj, l !! j = Some cj -> In cj l).
  { intros j cj Hj. apply list_elem_of_In. eapply list_elem_of_lookup_2. exact Hj. }
  split; [exact Hi|]. split.
  - intros j cj Hj. rewrite <- (Hext cj (Hin _ _ Hj)), <- (Hext c (Hin _ _ Hi)). eauto.
  - intros j cj Hlt Hj. rewrite <- (Hext cj (Hin _ _ Hj)), <- (Hext c (Hin _ _ Hi)). eauto.
Qed.

End FirstMaximal.

(** [select_child] with divisors in the range of floats, on a node with at
    least one simulation whose children all have at least one: it answers
    the first child, in the order of the list, whose score is maximal. *)
Lemma select_child_run_first_maximal `{PyFloat} `{!PyFloatDomain} `{!PyFloatOrder}
    (w : World) (a : addr) (node : Node) (cs : list addr) :
  heap w !! a = Some node ->
  children node = Some cs ->
  cs <> [] ->
  1 <= simulations node ->
  (forall c, In c cs -> exists child, heap w !! c = Some child /\ 1 <= simulations child) ->
  exists i c,
    select_child a w = (w, Ok c) /\
    first_maximal (score_at (heap w) node) cs i c.
Proof.
  intros Hn Hcs Hne Hsn Hall.
  destruct cs as [|c0 cs]; [contradiction|].
  destruct (select_child_run w a node c0 cs Hn Hcs) as (g & Hsel & _ & Hval).
  { intros c Hc. destruct (Hall c Hc) as (child & Hchild & Hsc). eauto 6. }
  assert (Hscore : forall c, In c (c0 :: cs) -> g c = score_at (heap w) node c).
  { intros c Hc. destruct (Hall c Hc) as (child & Hchild & Hsc).
    rewrite (Hval c child Hchild Hsc). unfold score_at, ucb_score.
    rewrite Hchild, sqrt_100. reflexivity. }
  destruct (fold_max_first_maximal g cs [c0] 0%nat c0) as (i & Hfm).
  { intros c Hc. rewrite (Hscore c Hc). destruct (Hall c Hc) as (child & Hchild & Hsc).
    unfold score_at, ucb_score. rewrite Hchild. apply score_not_nan; assumption. }
  { apply first_maximal_single. }
  exists i, (fold_max g c0 cs). split; [exact Hsel|].
  apply first_maximal_ext with (g := g); [exact Hscore | exact Hfm].
Qed.

Example select_child_tie :
  select_child (H := Fixed.ops) 0%nat selection_world = (selection_world, Ok 2%nat).
Proof. reflexivity. Qed.

(** A visited child under a node without simulations: the logarithm of zero
    is a domain error.  The invariant of the tree excludes this store. *)
Lemma ucb_key_log_of_zero `{PyFloat} (ec : float) (node child : Node) :
  simulations node = 0 -> simulations child = 1 ->
  ucb_key ec node child = Raise ValueError.
Proof.
  intros Hn Hc. unfold ucb_key, truediv, math_log. rewrite Hn, Hc. reflexivity.
Qed.

Lemma ucb_key_faults `{PyFloat} (ec : float) (node child : Node) (e : exn) :
  ucb_key ec node child = Raise e -> e = ValueError /\ simulations child <> 0.
Proof.
  unfold ucb_key, truediv, math_log, math_sqrt.
  destruct (Z.eqb_spec (simulations child) 0) as [Hz|Hnz]; cbn [negb rbind]; [discriminate|].
  destruct (simulations node <=? 0); cbn [rbind]; [intros [= <-]; auto|].
  destruct (Fgt _ _); cbn [rbind]; [intros [= <-]; auto | discriminate].
Qed.

(** ** The score with the range of floats *)

Lemma float_limit_pos : 0 < float_limit.
Proof. reflexivity. Qed.

Lemma int_fits_zero : int_fits 0 = true.
Proof. reflexivity. Qed.

Section CheckedSelection.
Context `{PyFloat}.

(** A divisor in the range of floats: the two divisions agree. *)
Lemma truediv_checked_fits (a : float) (b : Z) :
  int_fits b = true -> truediv_checked a b = truediv a b.
Proof. intros Hb. unfold truediv_checked, truediv. rewrite Hb. reflexivity. Qed.

Lemma truediv_checked_overflow (a : float) (b : Z) :
  int_fits b = false -> truediv_checked a b = Raise OverflowError.
Proof. intros Hb. unfold truediv_checked. rewrite Hb. reflexivity. Qed.

Lemma truediv_wins_in_range (child : Node) :
  score_in_range child = true ->
  truediv_wins (wins child) (simulations child)
  = truediv (FofQ (wins child)) (simulations child).
Proof.
  unfold score_in_range, truediv_wins.
  intros [Hz%Z.eqb_eq | [Hfit Hq]%andb_prop]%orb_prop.
  - rewrite Hz. destruct (wins_is_int (wins child)); reflexivity.
  - destruct (wins_is_int (wins child)).
    + unfold truediv. rewrite Hq. reflexivity.
    + apply truediv_checked_fits. exact Hfit.
Qed.

(** The score of a child whose divisions are in the range of floats is the
    one [ucb_key] computes. *)
Lemma ucb_key_checked_in_range (ec : float) (nd child : Node) :
  score_in_range child = true ->
  ucb_key_checked ec nd child = ucb_key ec nd child.
Proof.
  intros Hr. unfold ucb_key_checked, ucb_key.
  rewrite (truediv_wins_in_range _ Hr). unfold score_in_range in Hr.
  destruct (simulations child =? 0); [reflexivity|]. cbn [negb orb] in Hr |- *.
  apply andb_prop in Hr as [Hfit _].
  destruct (truediv _ _) as [rate|e]; [|reflexivity]. cbn [rbind].
  destruct (math_log _) as [l|e]; [|reflexivity]. cbn [rbind].
  rewrite (truediv_checked_fits _ _ Hfit). reflexivity.
Qed.

Lemma ucb_key_checked_unvisited (ec : float) (nd child : Node) :
  simulations child = 0 -> ucb_key_checked ec nd child = Ok Finf.
Proof. intros Hz. unfold ucb_key_checked. rewrite Hz. reflexivity. Qed.

(** A visited child under a visited node, with a division out of the range
    of floats: [OverflowError], from the win rate when the quotient of the
    two ints is too large, from the exploration term otherwise. *)
Lemma ucb_key_checked_overflow (ec : float) (nd child : Node) :
  simulations child <> 0 ->
  1 <= simulations nd ->
  score_in_range child = false ->
  ucb_key_checked ec nd child = Raise OverflowError.
Proof.
  intros Hnz Hn Hr. unfold ucb_key_checked, truediv_wins, math_log.
  apply orb_false_elim in Hr as [_ Hr].
  destruct (Z.eqb_spec (simulations child) 0) as [?|_]; [contradiction|].
  cbn [negb].
  destruct (wins_is_int (wins child)).
  - destruct (Z.abs (Qnum (wins child)) <? float_limit * Z.abs (simulations child));
      [|reflexivity].
    rewrite andb_true_r in Hr. cbn [rbind].
    destruct (Z.leb_spec (simulations nd) 0) as [?|_]; [lia|]. cbn [rbind].
    rewrite (truediv_checked_overflow _ _ Hr). reflexivity.
  - rewrite andb_true_r in Hr.
    rewrite (truediv_checked_overflow _ _ Hr). reflexivity.
Qed.

(** A visited child, with divisions in the range of floats, under a node
    without simulations: the logarithm raises [ValueError]. *)
Lemma ucb_key_checked_log_fault (ec : float) (nd child : Node) :
  simulations child <> 0 ->
  score_in_range child = true ->
  simulations nd <= 0 ->
  ucb_key_checked ec nd child = Raise ValueError.
Proof.
  intros Hnz Hr Hn. rewrite (ucb_key_checked_in_range _ _ _ Hr).
  unfold ucb_key, truediv, math_log.
  destruct (Z.eqb_spec (simulations child) 0) as [?|_]; [contradiction|].
  cbn [negb rbind].
  destruct (Z.leb_spec (simulations nd) 0) as [_|?]; [reflexivity | lia].
Qed.

(** The faults of the score: none on a child without simulations, never a
    division by zero; [OverflowError] only with a division out of the range
    of floats, [ValueError] only from the logarithm of a count that is not
    positive or from the square root of a negative quotient. *)
Lemma ucb_key_checked_faults (ec : float) (nd child : Node) (e : exn) :
  ucb_key_checked ec nd child = Raise e ->
  simulations child <> 0 /\
  ((e = OverflowError /\ score_in_range child = false) \/
   (e = ValueError /\
    (simulations nd <= 0 \/
     Fgt (FofZ 0) (Fdiv (Flog (FofZ (simulations nd))) (FofZ (simulations child)))
     = true))).
Proof.
  destruct (score_in_range child) eqn:Hr.
  - rewrite (ucb_key_checked_in_range _ _ _ Hr).
    unfold ucb_key, truediv, math_log, math_sqrt.
    destruct (Z.eqb_spec (simulations child) 0) as [Hz|Hnz]; cbn [negb rbind];
      [discriminate|].
    destruct (Z.leb_spec (simulations nd) 0) as [Hle|Hgt]; cbn [rbind].
    + intros [= <-]. split; [exact Hnz|]. right. split; [reflexivity|]. left; exact Hle.
    + destruct (Fgt _ _) eqn:Hneg; cbn [rbind]; [|discriminate].
      intros [= <-]. split; [exact Hnz|]. right. split; [reflexivity|]. right; first [exact Hneg | reflexivity].
  - unfold ucb_key_checked, truediv_wins, truediv_checked, math_log, math_sqrt.
    destruct (Z.eqb_spec (simulations child) 0) as [Hz|Hnz]; cbn [negb rbind];
      [discriminate|].
    intros Hrun. split; [exact Hnz|].
    destruct (wins_is_int (wins child)).
    + destruct (Z.abs (Qnum (wins child)) <? float_limit * Z.abs (simulations child));
        cbn [rbind] in Hrun; [|left; split; [congruence | reflexivity]].
      destruct (Z.leb_spec (simulations nd) 0) as [Hle|Hgt]; cbn [rbind] in Hrun.
      * right. split; [congruence | left; exact Hle].
      * destruct (int_fits (simulations child)); cbn [negb rbind] in Hrun;
          [|left; split; [congruence | reflexivity]].
        destruct (Fgt _ _) eqn:Hneg; cbn [rbind] in Hrun; [|discriminate].
        right. split; [congruence | right; first [exact Hneg | reflexivity]].
    + destruct (int_fits (simulations child)); cbn [negb rbind] in Hrun;
        [|left; split; [congruence | reflexivity]].
      destruct (Z.leb_spec (simulations nd) 0) as [Hle|Hgt]; cbn [rbind] in Hrun.
      * right. split; [congruence | left; exact Hle].
      * destruct (Fgt _ _) eqn:Hneg; cbn [rbind] in Hrun; [|discriminate].
        right. split; [congruence | right; first [exact Hneg | reflexivity]].
Qed.

(** [max] stops at the first element whose key raises. *)
Lemma max_by_first_fault (f : addr -> M float) (w : World) (e : exn) (c : addr)
    (post : list addr) : forall pre best bk,
  (forall c', In c' pre -> exists k, f c' w = (w, Ok k)) ->
  f c w = (w, Raise e) ->
  max_by f best bk (pre ++ c :: post) w = (w, Raise e).
Proof.
  induction pre as [|c1 pre IH]; intros best bk Hpre Hc.
  - cbn [app max_by]. erewrite bind_raise; [reflexivity | exact Hc].
  - destruct (Hpre c1 (or_introl eq_refl)) as [k Hk].
    cbn [app max_by]. run_with Hk.
    destruct (Fgt k bk); apply IH; auto; intros c' Hc'; apply Hpre; right; exact Hc'.
Qed.

Lemma py_max_first_fault (f : addr -> M float) (w : World) (e : exn) (c : addr)
    (pre post : list addr) :
  (forall c', In c' pre -> exists k, f c' w = (w, Ok k)) ->
  f c w = (w, Raise e) ->
  py_max f (pre ++ c :: post) w = (w, Raise e).
Proof.
  intros Hpre Hc. destruct pre as [|c1 pre].
  - cbn [app py_max]. erewrite bind_raise; [reflexivity | exact Hc].
  - destruct (Hpre c1 (or_introl eq_refl)) as [k Hk].
    cbn [app py_max]. run_with Hk.
    apply max_by_first_fault; auto. intros c' Hc'. apply Hpre. right; exact Hc'.
Qed.

(** [max] over two key functions that agree on the elements of the list. *)
Lemma max_by_ext (f g : addr -> M float) (w : World) (l : list addr) : forall best bk,
  (forall c, In c l -> exists r, f c w = (w, r) /\ g c w = (w, r)) ->
  max_by f best bk l w = max_by g best bk l w.
Proof.
  induction l as [|c l IH]; intros best bk Hfg; [reflexivity|].
  destruct (Hfg c (or_introl eq_refl)) as ([k|e] & Hf & Hg); cbn [max_by].
  - rewrite (bind_run _ _ _ _ _ Hf), (bind_run _ _ _ _ _ Hg).
    destruct (Fgt k bk); apply IH; intros c' Hc'; apply Hfg; right; exact Hc'.
  - rewrite (bind_raise _ _ _ _ _ Hf), (bind_raise _ _ _ _ _ Hg). reflexivity.
Qed.

Lemma py_max_ext (f g : addr -> M float) (w : World) (l : list addr) :
  (forall c, In c l -> exists r, f c w = (w, r) /\ g c w = (w, r)) ->
  py_max f l w = py_max g l w.
Proof.
  intros Hfg. destruct l as [|c l]; [reflexivity|].
  destruct (Hfg c (or_introl eq_refl)) as ([k|e] & Hf & Hg); cbn [py_max].
  - rewrite (bind_run _ _ _ _ _ Hf), (bind_run _ _ _ _ _ Hg).
    apply max_by_ext. intros c' Hc'. apply Hfg. right; exact Hc'.
  - rewrite (bind_raise _ _ _ _ _ Hf), (bind_raise _ _ _ _ _ Hg). reflexivity.
Qed.

(** The first child of a list with a division out of the range of floats. *)
Lemma first_out_of_range (h : list Node) : forall cs,
  (forall c, In c cs -> exists child, h !! c = Some child) ->
  (exists c child, In c cs /\ h !! c = Some child /\ score_in_range child = false) ->
  exists pre c child post,
    cs = pre ++ c :: post /\
    h !! c = Some child /\ score_in_range child = false /\
    forall c', In c' pre ->
      exists child', h !! c' = Some child' /\ score_in_range child' = true.
Proof.
  induction cs as [|c0 cs IH]; intros Hall (c & child & Hin & Hc & Hr); [destruct Hin|].
  destruct (Hall c0 (or_introl eq_refl)) as [child0 Hchild0].
  destruct (score_in_range child0) eqn:Hr0.
  - destruct IH as (pre & c1 & child1 & post & -> & Hc1 & Hr1 & Hpre).
    { intros c' Hc'. apply Hall. right; exact Hc'. }
    { destruct Hin as [<-|Hin]; [congruence|]. exists c, child. auto. }
    exists (c0 :: pre), c1, child1, post. split; [reflexivity|].
    split; [exact Hc1|]. split; [exact Hr1|].
    intros c' [<-|Hc']; [exists child0; auto | apply Hpre; exact Hc'].
  - exists [], c0, child0, cs. split; [reflexivity|]. split; [exact Hchild0|].
    split; [exact Hr0|]. intros c' [].
Qed.

(** On children whose divisions are in the range of floats,
    [select_child_checked] is [select_child]. *)
Lemma select_child_checked_in_range (w : World) (a : addr) (node : Node)
    (cs : list addr) :
  heap w !! a = Some node ->
  children node = Some cs ->
  (forall c, In c cs ->
     exists child, heap w !! c = Some child /\ score_in_range child = true) ->
  select_child_checked a w = select_child a w.
Proof.
  intros Hn Hcs Hall. unfold select_child_checked, select_child.
  pose proof (lift_run (math_sqrt (FofZ 100)) w) as Hec.
  destruct (math_sqrt (FofZ 100)) as [ec|e];
    [|rewrite !(bind_raise _ _ _ _ _ Hec); reflexivity].
  rewrite !(bind_run _ _ _ _ _ Hec), !(bind_run _ _ _ _ _ (load_run _ _ _ Hn)), Hcs.
  apply py_max_ext. intros c Hc.
  destruct (Hall c Hc) as (child & Hchild & Hr).
  exists (ucb_key ec node child). split.
  - run_with Hchild. run_with Hn. rewrite lift_run.
    rewrite (ucb_key_checked_in_range _ _ _ Hr). reflexivity.
  - run_with Hchild. run_with Hn. apply lift_run.
Qed.

(** A child with a division out of the range of floats, among visited
    children of a visited node: [select_child_checked] raises
    [OverflowError] and leaves the store as it was. *)
Lemma select_child_checked_overflow `{!PyFloatDomain} (w : World) (a : addr)
    (node : Node) (cs : list addr) :
  heap w !! a = Some node ->
  children node = Some cs ->
  1 <= simulations node ->
  (forall c, In c cs -> exists child, heap w !! c = Some child /\ 1 <= simulations child) ->
  (exists c child, In c cs /\ heap w !! c = Some child /\ score_in_range child = false) ->
  select_child_checked a w = (w, Raise OverflowError).
Proof.
  intros Hn Hcs Hsn Hall Hout.
  destruct (first_out_of_range (heap w) cs) as (pre & c & child & post & -> & Hc & Hr & Hpre).
  { intros c' Hc'. destruct (Hall c' Hc') as (child' & Hchild' & _). eauto. }
  { exact Hout. }
  unfold select_child_checked.
  assert (Hec : lift (math_sqrt (FofZ 100)) w = (w, Ok (Fsqrt (FofZ 100)))).
  { unfold lift, math_sqrt. rewrite sqrt_arg_100. reflexivity. }
  run_with Hec. run_with Hn. rewrite Hcs.
  apply py_max_first_fault.
  - intros c' Hc'. destruct (Hpre c' Hc') as (child' & Hchild' & Hr').
    destruct (Hall c' (in_or_app _ _ _ (or_introl Hc'))) as (child'' & Hchild'' & Hs').
    assert (child'' = child') by congruence. subst child''.
    eexists. run_with Hchild'. run_with Hn. rewrite lift_run.
    rewrite (ucb_key_checked_in_range _ _ _ Hr'), (ucb_key_visited _ _ _ Hsn Hs').
    reflexivity.
  - destruct (Hall c) as (child'' & Hchild'' & Hs);
      [apply in_or_app; right; left; reflexivity|].
    assert (child'' = child) by congruence. subst child''.
    run_with Hc. run_with Hn. rewrite lift_run.
    assert (Hnz : simulations child <> 0) by lia.
    rewrite (ucb_key_checked_overflow _ _ _ Hnz Hsn Hr). reflexivity.
Qed.

End CheckedSelection.

(** C6, amended.  On a node with at least one simulation whose children all
    have at least one, [select_child] answers the first child, in the order
    of the list, whose score [wins / simulations + 10 * sqrt(ln(N) /
    simulations)] is maximal (no child has a greater score, and every child
    before it has a smaller one) when the divisions of every score are in
    the range of floats; and when those of some child are not, it raises
    [OverflowError].  The float arithmetic is assumed to satisfy the laws of
    [PyFloatDomain] and [PyFloatOrder]. *)
Theorem select_child_first_maximal `{PyFloat} `{!PyFloatDomain} `{!PyFloatOrder}
    (w : World) (a : addr) (node : Node) (cs : list addr) :
  heap w !! a = Some node ->
  children node = Some cs ->
  cs <> [] ->
  1 <= simulations node ->
  (forall c, In c cs -> exists child, heap w !! c = Some child /\ 1 <= simulations child) ->
  ((forall c child, In c cs -> heap w !! c = Some child -> score_in_range child = true) ->
   exists i c,
     select_child_checked a w = (w, Ok c) /\
     first_maximal (score_at (heap w) node) cs i c) /\
  ((exists c child, In c cs /\ heap w !! c = Some child /\ score_in_range child = false) ->
   select_child_checked a w = (w, Raise OverflowError)).
Proof.
  intros Hn Hcs Hne Hsn Hall. split.
  - intros Hrange.
    rewrite (select_child_checked_in_range w a node cs Hn Hcs).
    + apply select_child_run_first_maximal; assumption.
    + intros c Hc. destruct (Hall c Hc) as (child & Hchild & _).
      exists child. split; [exact Hchild|]. eapply Hrange; eauto.
  - intros Hout. eapply select_child_checked_overflow; eauto.
Qed.

Lemma select_child_first_maximal_witness :
  exists i c,
    select_child_checked (H := Fixed.ops) 0%nat selection_world = (selection_world, Ok c) /\
    first_maximal (H := Fixed.ops)
      (score_at (H := Fixed.ops) (heap selection_world)
                     {| parent := None; state := {| board := empty_board; turn := Turn.x |};
                        simulations := 4; wins := 2;
                        children := Some [1%nat; 2%nat; 3%nat] |})
      [1%nat; 2%nat; 3%nat] i c.
Proof.
  apply (select_child_first_maximal (H := Fixed.ops) selection_world 0%nat).
  - reflexivity.
  - reflexivity.
  - discriminate.
  - cbn. lia.
  - intros c [<-|[<-|[<-|[]]]]; eexists; (split; [reflexivity | cbn; lia]).
  - intros c child [<-|[<-|[<-|[]]]] [= <-]; reflexivity.
Defined.

(** A node with four simulations whose one child has [10 ^ 400]: every
    count is at least one, and [select_child] raises [OverflowError] where
    the exploration term divides by the count of the child. *)
Lemma select_child_overflows :
  exists node child,
    heap overflow_world !! 0%nat = Some node /\ children node = Some [1%nat] /\
    heap overflow_world !! 1%nat = Some child /\
    (1 <=? simulations node) = true /\ (1 <=? simulations child) = true /\
    select_child_checked (H := Fixed.ops) 0%nat overflow_world
    = (overflow_world, Raise OverflowError).
Proof.
  eexists _, _. split; [reflexivity|]. split; [reflexivity|]. split; [reflexivity|].
  split; [vm_compute; reflexivity|]. split; [vm_compute; reflexivity|].
  vm_compute. reflexivity.
Qed.

(** The limit is sharp, for the count of a child and for the quotient of two
    ints. *)
Example score_in_range_limit :
  score_in_range {| parent := None; state := scenario; simulations := float_limit - 1;
                    wins := 0; children := None |} = true /\
  score_in_range {| parent := None; state := scenario; simulations := float_limit;
                    wins := 0; children := None |} = false /\
  score_in_range {| parent := None; state := scenario; simulations := 2;
                    wins := inject_Z (2 * float_limit - 1); children := None |} = true /\
  score_in_range {| parent := None; state := scenario; simulations := 2;
                    wins := inject_Z (2 * float_limit); children := None |} = false.
Proof. repeat split; vm_compute; reflexivity. Qed.

(** C7, amended.  A child without simulations gets the key [inf]: neither
    the win rate nor the exploration term is evaluated, whatever the node
    holds.  No key computation divides by zero.  The logarithm of a count
    that is not positive is taken, and raises [ValueError], when a visited
    child is scored under a node without simulations; a [ValueError] has no
    other origin than this and the square root.  On a well-formed tree
    (where a visited child has a visited parent) whose divisions are in the
    range of floats, [select_child] raises nothing on a node that has
    children, visited or not, and answers one of them. *)
Theorem zero_simulation_child_is_defined `{PyFloat} `{!PyFloatDomain}
    (w : World) (L : addr -> Prop) (a : addr) (node : Node) (c0 : addr) (cs : list addr) :
  tree_ok L (heap w) ->
  L a ->
  heap w !! a = Some node ->
  children node = Some (c0 :: cs) ->
  (forall c child, In c (c0 :: cs) -> heap w !! c = Some child ->
     score_in_range child = true) ->
  (forall ec nd child, simulations child = 0 -> ucb_key_checked ec nd child = Ok Finf) /\
  (forall ec nd child, ucb_key_checked ec nd child <> Raise ZeroDivisionError) /\
  (forall ec nd child,
     simulations child <> 0 -> score_in_range child = true -> simulations nd <= 0 ->
     ucb_key_checked ec nd child = Raise ValueError) /\
  (forall ec nd child,
     ucb_key_checked ec nd child = Raise ValueError ->
     simulations child <> 0 /\
     (simulations nd <= 0 \/
      Fgt (FofZ 0) (Fdiv (Flog (FofZ (simulations nd))) (FofZ (simulations child)))
      = true)) /\
  (exists c, select_child_checked a w = (w, Ok c) /\ In c (c0 :: cs)).
Proof.
  intros Hok HLa Hn Hcs Hrange. split; [|split; [|split; [|split]]].
  - intros ec nd child Hz. apply ucb_key_checked_unvisited. exact Hz.
  - intros ec nd child Hkey.
    apply ucb_key_checked_faults in Hkey as [_ [[Hkey _]|[Hkey _]]]; discriminate.
  - intros ec nd child Hnz Hr Hle. apply ucb_key_checked_log_fault; assumption.
  - intros ec nd child Hkey.
    apply ucb_key_checked_faults in Hkey as [Hnz [[Hkey _]|[_ Hwhy]]];
      [discriminate | auto].
  - assert (Hall : forall c, In c (c0 :: cs) ->
              exists child, heap w !! c = Some child /\
                (simulations child = 0 \/
                 (1 <= simulations child /\ 1 <= simulations node))).
    { intros c Hc.
      destruct (ok_children _ _ Hok _ _ _ _ HLa Hn Hcs Hc) as (HLc & child & Hchild & Hpar).
      exists child. split; [exact Hchild|].
      pose proof (ok_sims _ _ Hok _ _ HLc Hchild) as Hnn.
      destruct (Z.eq_dec (simulations child) 0) as [Hz|Hnz]; [left; exact Hz|].
      right. split; [lia|].
      destruct (ok_parent _ _ Hok _ _ _ HLc Hchild Hpar) as (_ & np & Hnp & _ & Himp).
      assert (np = node) by congruence. subst. lia. }
    rewrite (select_child_checked_in_range w a node (c0 :: cs) Hn Hcs).
    + destruct (select_child_run w a node c0 cs Hn Hcs Hall) as (g & Hsel & _).
      exists (fold_max g c0 cs). split; [exact Hsel|].
      destruct (fold_max_in g cs c0) as [->|Hin]; [left; reflexivity | right; exact Hin].
    + intros c Hc. destruct (Hall c Hc) as (child & Hchild & _).
      exists child. split; [exact Hchild|]. eapply Hrange; eauto.
Qed.

Lemma zero_simulation_child_is_defined_witness :
  (forall ec nd child, simulations child = 0 ->
     ucb_key_checked (H := Fixed.ops) ec nd child = Ok None) /\
  (forall ec nd child,
     ucb_key_checked (H := Fixed.ops) ec nd child <> Raise ZeroDivisionError) /\
  (forall ec nd child,
     simulations child <> 0 -> score_in_range child = true -> simulations nd <= 0 ->
     ucb_key_checked (H := Fixed.ops) ec nd child = Raise ValueError) /\
  (forall ec nd child,
     ucb_key_checked (H := Fixed.ops) ec nd child = Raise ValueError ->
     simulations child <> 0 /\
     (simulations nd <= 0 \/
      Fgt (PyFloat := Fixed.ops) (FofZ 0)
          (Fdiv (Flog (FofZ (simulations nd))) (FofZ (simulations child)))
      = true)) /\
  (exists c,
     select_child_checked (H := Fixed.ops) 0%nat (two_node_world (fun i => i))
     = (two_node_world (fun i => i), Ok c) /\ In c [1%nat]).
Proof.
  apply (zero_simulation_child_is_defined (H := Fixed.ops) (two_node_world (fun i => i))
           (fun a => (a < 2)%nat) 0%nat
           {| parent := None; state := scenario; simulations := 0; wins := 0;
              children := Some [1%nat] |} 1%nat []).
  - apply two_node_tree_ok.
  - cbn. lia.
  - reflexivity.
  - reflexivity.
  - intros c child [<-|[]] [= <-]. reflexivity.
Defined.

(** A node without simulations whose child has one: every call of
    [select_child] on it takes the logarithm of zero and raises
    [ValueError]. *)
Lemma select_child_log_of_zero :
  exists node child,
    heap unvisited_parent_world !! 0%nat = Some node /\
    children node = Some [1%nat] /\
    heap unvisited_parent_world !! 1%nat = Some child /\
    simulations node = 0 /\ simulations child = 1 /\
    select_child_checked (H := Fixed.ops) 0%nat unvisited_parent_world
    = (unvisited_parent_world, Raise ValueError).
Proof.
  eexists _, _. split; [reflexivity|]. split; [reflexivity|]. split; [reflexivity|].
  split; [reflexivity|]. split; [reflexivity|]. reflexivity.
Qed.

(** * C8: advancing the root *)

Lemma find_child_run (b : list (list Z)) (cs : list addr) (w : World) :
  (forall c, In c cs -> is_Some (heap w !! c)) ->
  (exists i c child,
     find_child b cs w = (w, Ok (Some c)) /\
     cs !! i = Some c /\ heap w !! c = Some child /\ board (state child) = b /\
     forall j cj childj, (j < i)%nat -> cs !! j = Some cj -> heap w !! cj = Some childj ->
       board (state childj) <> b) \/
  (find_child b cs w = (w, Ok None) /\
   forall c child, In c cs -> heap w !! c = Some child -> board (state child) <> b).
Proof.
  induction cs as [|c0 cs IH]; intros Hall.
  - right. split; [reflexivity|]. intros c child [].
  - destruct (Hall c0 (or_introl eq_refl)) as [child0 Hchild0].
    cbn [find_child]. run_with Hchild0. unfold board_eqb.
    destruct (bool_decide_reflect (board (state child0) = b)) as [Heq|Hne].
    + left. exists 0%nat, c0, child0. split; [reflexivity|]. split; [reflexivity|].
      split; [exact Hchild0|]. split; [exact Heq|]. intros j cj childj Hj. lia.
    + destruct IH as [(i & c & child & Hrun & Hi & Hc & Hb & Hfirst)|[Hrun Hnone]].
      { intros c Hc. apply Hall. right; exact Hc. }
      * left. exists (S i), c, child. split; [exact Hrun|]. split; [exact Hi|].
        split; [exact Hc|]. split; [exact Hb|].
        intros [|j] cj childj Hlt Hj Hcj.
        -- cbn in Hj. inversion Hj; subst. congruence.
        -- cbn in Hj. eapply Hfirst; eauto. lia.
      * right. split; [exact Hrun|]. intros c child [<-|Hc] Hchild.
        -- congruence.
        -- eapply Hnone; eauto.
Qed.




(** * The invariant after an advance of the root *)

Lemma apply_action_wf a s s' :
  wf_board (board s) -> apply_action a s = Ok s' -> wf_board (board s').
Proof.
  intros [Hlen Hrows] Happ. destruct a as [x y]. unfold apply_action in Happ.
  destruct (getitem (board s) x) as [row|] eqn:Hrow; cbn [rbind] in Happ; [|discriminate].
  unfold setitem in Happ.
  destruct (norm_index row y) as [j|]; cbn [rbind] in Happ; [|discriminate].
  destruct (norm_index (board s) x) as [i|] eqn:Hi; cbn [rbind] in Happ; [|discriminate].
  inversion Happ; subst; clear Happ. cbn [board].
  apply getitem_ok in Hrow as (i' & Hi' & Hrow).
  assert (i' = i) by congruence. subst i'.
  split; [rewrite length_insert; exact Hlen|].
  apply Forall_insert; [exact Hrows|].
  rewrite length_insert.
  rewrite List.Forall_forall in Hrows. apply Hrows.
  apply list_elem_of_In. eapply list_elem_of_lookup_2. exact Hrow.
Qed.

Lemma fresh_root_tree_ok (h : list Node) (s : State) :
  wf_board (board s) ->
  tree_ok (fun a => a = length h) (h ++ [fresh_root s]).
Proof.
  intros Hwf.
  assert (Hl : (h ++ [fresh_root s]) !! length h = Some (fresh_root s))
    by (apply list_lookup_middle; reflexivity).
  split.
  - intros a ->. eauto.
  - intros a n -> Hn. rewrite Hl in Hn. inversion Hn; subst. exact Hwf.
  - intros a n -> Hn. rewrite Hl in Hn. inversion Hn; subst. cbn. lia.
  - intros a n p -> Hn Hp. rewrite Hl in Hn. inversion Hn; subst. discriminate.
  - intros a n cs c -> Hn Hcs. rewrite Hl in Hn. inversion Hn; subst. discriminate.
  - intros a n cs i j ci cj ni nj -> Hn Hcs. rewrite Hl in Hn. inversion Hn; subst.
    discriminate.
Qed.

(** Clearing the parent reference of a child of the root leaves a
    well-formed tree: the nodes at and below that child. *)
Lemma subtree_ok L h root_node r cs c child :
  tree_ok L h ->
  L root_node ->
  h !! root_node = Some r ->
  children r = Some cs ->
  In c cs ->
  h !! c = Some child ->
  let h' := <[c := set_parent child None]> h in
  tree_ok (fun b => L b /\ anc h' c b) h' /\ (L c /\ anc h' c c).
Proof.
  intros Hok HLr Hr Hcs Hin Hc h'.
  destruct (ok_children _ _ Hok _ _ _ _ HLr Hr Hcs Hin) as (HLc & child0 & Hc0 & Hpar).
  assert (child0 = child) by congruence. subst child0.
  destruct (ok_parent _ _ Hok _ _ _ HLc Hc Hpar) as (_ & r0 & Hr0 & Hlt & _).
  assert (r0 = r) by congruence. subst r0.
  pose proof (lookup_lt_Some _ _ _ Hc) as Hclt.
  assert (Hat : h' !! c = Some (set_parent child None))
    by (apply list_lookup_insert_eq; exact Hclt).
  assert (Hother : forall b, b <> c -> h' !! b = h !! b)
    by (intros b Hb; apply list_lookup_insert_ne; congruence).
  assert (Hback : forall b nb', h' !! b = Some nb' ->
            exists nb, h !! b = Some nb /\ state nb' = state nb /\
                       simulations nb' = simulations nb /\ children nb' = children nb /\
                       (parent nb' = parent nb \/ (b = c /\ parent nb' = None))).
  { intros b nb' Hb. destruct (decide (b = c)) as [->|Hne].
    - rewrite Hat in Hb. inversion Hb; subst. exists child. cbn. auto 10.
    - rewrite (Hother b Hne) in Hb. exists nb'. auto 10. }
  assert (Hfwd : forall b nb, h !! b = Some nb ->
            exists nb', h' !! b = Some nb' /\ state nb' = state nb /\
                        simulations nb' = simulations nb /\
                        (b <> c -> nb' = nb)).
  { intros b nb Hb. destruct (decide (b = c)) as [->|Hne].
    - assert (nb = child) by congruence. subst.
      exists (set_parent child None). split; [exact Hat|]. cbn. repeat split. contradiction.
    - exists nb. rewrite (Hother b Hne). auto. }
  assert (Hmeasure : forall b, anc h' c b -> L b ->
            forall nb, h !! b = Some nb ->
              (empties (state nb) <= empties (state child))%nat).
  { induction 1 as [|b nb' p Hb Hp Hanc IH]; intros HLb nb Hnb.
    - assert (nb = child) by congruence. subst. lia.
    - destruct (Hback b nb' Hb) as (nb0 & Hnb0 & _ & _ & _ & [Hsame|[_ Hnone]]);
        [|congruence].
      assert (nb0 = nb) by congruence. subst nb0.
      assert (Hpb : parent nb = Some p) by congruence.
      destruct (ok_parent _ _ Hok _ _ _ HLb Hnb Hpb) as (HLp & np & Hnp & Hltp & _).
      pose proof (IH HLp np Hnp). lia. }
  split; [|split; [exact HLc | constructor]].
  split.
  - intros b [HLb _]. destruct (ok_alloc _ _ Hok b HLb) as [nb Hb].
    destruct (Hfwd b nb Hb) as (nb' & Hb' & _). eauto.
  - intros b nb' [HLb _] Hb. destruct (Hback b nb' Hb) as (nb & Hnb & -> & _).
    exact (ok_board _ _ Hok _ _ HLb Hnb).
  - intros b nb' [HLb _] Hb. destruct (Hback b nb' Hb) as (nb & Hnb & _ & -> & _).
    exact (ok_sims _ _ Hok _ _ HLb Hnb).
  - intros b nb' p [HLb Hancb] Hb Hp.
    destruct (Hback b nb' Hb) as (nb & Hnb & Hst & Hsi & _ & [Hsame|[_ Hnone]]);
      [|congruence].
    assert (Hpb : parent nb = Some p) by congruence.
    destruct (ok_parent _ _ Hok _ _ _ HLb Hnb Hpb) as (HLp & np & Hnp & Hltp & Himp).
    split.
    + split; [exact HLp|].
      inversion Hancb as [Heq | b0 nb0 p0 Hb0 Hp0 Hanc0]; subst.
      * rewrite Hat in Hb. inversion Hb; subst. discriminate.
      * assert (nb0 = nb') by congruence. subst. assert (p0 = p) by congruence. subst.
        exact Hanc0.
    + destruct (Hfwd p np Hnp) as (np' & Hnp' & Hst' & Hsi' & _).
      exists np'. split; [exact Hnp'|]. rewrite Hst, Hsi, Hst', Hsi'. auto.
  - intros b nb' cs0 c2 [HLb Hancb] Hb Hcs0 Hc2.
    destruct (Hback b nb' Hb) as (nb & Hnb & _ & _ & Hkids & _).
    assert (Hkb : children nb = Some cs0) by congruence.
    destruct (ok_children _ _ Hok _ _ _ _ HLb Hnb Hkb Hc2) as (HLc2 & nc2 & Hnc2 & Hpar2).
    destruct (decide (c2 = c)) as [->|Hne].
    + exfalso. assert (nc2 = child) by congruence. subst.
      assert (b = root_node) by congruence. subst.
      assert (nb = r) by congruence. subst.
      pose proof (Hmeasure root_node Hancb HLb r Hr). lia.
    + assert (Hc2' : h' !! c2 = Some nc2) by (rewrite (Hother c2 Hne); exact Hnc2).
      split; [split; [exact HLc2|]|eauto].
      econstructor 2; [exact Hc2' | exact Hpar2 | exact Hancb].
  - intros b nb' cs0 i j ci cj ni' nj' [HLb _] Hb Hcs0 Hi Hj Hij Hci Hcj.
    destruct (Hback b nb' Hb) as (nb & Hnb & _ & _ & Hkids & _).
    assert (Hkb : children nb = Some cs0) by congruence.
    destruct (Hback ci ni' Hci) as (ni & Hni & Hsti & _).
    destruct (Hback cj nj' Hcj) as (nj & Hnj & Hstj & _).
    rewrite Hsti, Hstj.
    exact (ok_distinct _ _ Hok _ _ _ _ _ _ _ _ _ HLb Hnb Hkb Hi Hj Hij Hni Hnj).
Qed.

(** Once the root has been advanced, the tree under the new root is well
    formed, so the search can be run on it again. *)
Lemma advance_tree_ok (tree : SearchTree) (current_state : State) (act : action)
    (w : World) (s' : State) (L : addr -> Prop) :
  tree_ok L (heap w) ->
  L (root tree) ->
  wf_board (board current_state) ->
  apply_action act current_state = Ok s' ->
  exists w' tree' L',
    advance tree current_state act w = (w', Ok (tree', s')) /\
    tree_ok L' (heap w') /\ L' (root tree').
Proof.
  intros Hok HLr Hwf Happ.
  pose proof (apply_action_wf _ _ _ Hwf Happ) as Hwf'.
  destruct (ok_alloc _ _ Hok _ HLr) as [r Hr].
  assert (Hfresh : exists w' tree' L',
            (let! a := alloc (fresh_root s') in ret ({| root := a |}, s')) w
            = (w', Ok (tree', s')) /\
            tree_ok L' (heap w') /\ L' (root tree')).
  { eexists _, _, _. split; [reflexivity|]. cbn [heap root].
    split; [apply fresh_root_tree_ok; exact Hwf' | reflexivity]. }
  unfold advance. run_with Happ. run_with Hr.
  destruct (children r) as [[|c0 cs]|] eqn:Hcs; try exact Hfresh.
  destruct (find_child_run (board s') (c0 :: cs) w)
    as [(i & c & child & Hrun & Hi & Hc & Hb & Hfirst)|[Hrun Hnone]].
  { intros c Hc. destruct (ok_children _ _ Hok _ _ _ _ HLr Hr Hcs Hc) as (_ & nc & Hnc & _).
    eauto. }
  - run_with Hrun. run_with Hc.
    assert (Hin : In c (c0 :: cs)).
    { apply list_elem_of_In. eapply list_elem_of_lookup_2. exact Hi. }
    destruct (subtree_ok L (heap w) (root tree) r (c0 :: cs) c child Hok HLr Hr Hcs Hin Hc)
      as [Hok' HL'].
    eexists _, _, _. split; [reflexivity|]. cbn [heap root]. split; [exact Hok' | exact HL'].
  - run_with Hrun. exact Hfresh.
Qed.

(** The search runs to its end on the tree that an advance has left. *)
Lemma search_after_advance `{PyFloat} `{!PyFloatDomain}
    (tree : SearchTree) (current_state : State) (act : action) (w : World)
    (s' : State) (L : addr -> Prop) (N : Z) (fuel : nat) :
  tree_ok L (heap w) ->
  L (root tree) ->
  wf_board (board current_state) ->
  apply_action act current_state = Ok s' ->
  (10 <= fuel)%nat ->
  exists w1 tree1 w2,
    advance tree current_state act w = (w1, Ok (tree1, s')) /\
    mcts fuel tree1 N w1 = (w2, Ok tt).
Proof.
  intros Hok HLr Hwf Happ Hfuel.
  destruct (advance_tree_ok tree current_state act w s' L Hok HLr Hwf Happ)
    as (w1 & tree1 & L1 & Hadv & Hok1 & HL1).
  destruct (ok_alloc _ _ Hok1 _ HL1) as [r1 Hr1].
  destruct (mcts_loop_run fuel (root tree1) (Z.to_nat N) L1 r1 w1 Hok1 HL1 Hr1 Hfuel)
    as (w2 & _ & _ & Hrun & _).
  exists w1, tree1, w2. split; [exact Hadv | exact Hrun].
Qed.

(** * More on the game state *)

Lemma in_cells3x3 (x y : Z) :
  In (x, y) cells3x3 <-> (0 <= x < 3 /\ 0 <= y < 3).
Proof.
  split.
  - intros Hin. apply cells3x3_cases in Hin.
    repeat (destruct Hin as [Hin|Hin]; [inversion Hin; subst; lia|]).
    inversion Hin; subst; lia.
  - intros [Hx Hy].
    assert (Hx' : x = 0 \/ x = 1 \/ x = 2) by lia.
    assert (Hy' : y = 0 \/ y = 1 \/ y = 2) by lia.
    destruct Hx' as [-> | [-> | ->]], Hy' as [-> | [-> | ->]]; cbn; tauto.
Qed.

Lemma scan_cells_filter b ps : forall l,
  scan_cells b ps = Ok l -> l = List.filter (is_empty_cell b) ps.
Proof.
  induction ps as [|p ps IH]; intros l Hs; cbn in Hs.
  - inversion Hs. reflexivity.
  - destruct (cell b p) as [c|] eqn:Hc; cbn [rbind] in Hs; [|discriminate].
    destruct (scan_cells b ps) as [rest|] eqn:Hrest; cbn [rbind] in Hs; [|discriminate].
    inversion Hs; subst; clear Hs. cbn [List.filter].
    unfold is_empty_cell at 1. rewrite Hc.
    rewrite <- (IH rest eq_refl). reflexivity.
Qed.

(** X1.  On a 3x3 board [get_valid_actions] answers the cells that hold 0,
    each once, in the order of the two nested loops (row by row, left to
    right); a pair is in the answer exactly when both coordinates are in
    0..2 and the cell holds 0. *)
Theorem get_valid_actions_empty_cells (s : State) :
  wf_board (board s) ->
  exists l,
    get_valid_actions s = Ok l /\
    l = List.filter (is_empty_cell (board s)) cells3x3 /\
    List.NoDup l /\
    forall x y,
      In (x, y) l <-> (0 <= x < 3 /\ 0 <= y < 3 /\ cell (board s) (x, y) = Ok 0).
Proof.
  intros Hwf. destruct (get_valid_actions_wf s Hwf) as [l Hl].
  exists l. split; [exact Hl|]. unfold get_valid_actions in Hl.
  split; [apply scan_cells_filter; exact Hl|].
  split; [eapply scan_cells_nodup; [apply cells3x3_nodup | exact Hl]|].
  intros x y. rewrite (scan_cells_in _ _ _ (x, y) Hl), in_cells3x3. tauto.
Qed.

Lemma get_valid_actions_empty_cells_witness :
  exists l,
    get_valid_actions scenario = Ok l /\
    l = List.filter (is_empty_cell (board scenario)) cells3x3 /\
    List.NoDup l /\
    forall x y,
      In (x, y) l <-> (0 <= x < 3 /\ 0 <= y < 3 /\ cell (board scenario) (x, y) = Ok 0).
Proof. apply (get_valid_actions_empty_cells scenario). apply wf_board_grid. Defined.

Lemma cell_raise b p e : cell b p = Raise e -> e = IndexError.
Proof.
  unfold cell. destruct (getitem b (fst p)) as [row|e0] eqn:Hrow; cbn [rbind].
  - intros He. apply getitem_raise in He. tauto.
  - intros [= <-]. apply getitem_raise in Hrow. tauto.
Qed.

Lemma scan_cells_raise b ps :
  (exists e, scan_cells b ps = Raise e) <->
  (exists p, In p ps /\ cell b p = Raise IndexError).
Proof.
  induction ps as [|p ps IH]; cbn [scan_cells].
  - split; [intros [e He]; discriminate | intros (p & [] & _)].
  - destruct (cell b p) as [c|e0] eqn:Hc; cbn [rbind].
    + destruct (scan_cells b ps) as [rest|e1] eqn:Hrest; cbn [rbind].
      * split; [intros [e He]; discriminate|].
        intros (q & [<-|Hq] & Hraise); [congruence|].
        destruct (proj2 IH (ex_intro _ q (conj Hq Hraise))) as [e He]. discriminate.
      * split; [|intros _; eauto].
        intros _. destruct (proj1 IH (ex_intro _ e1 eq_refl)) as (q & Hq & Hraise).
        exists q. split; [right; exact Hq | exact Hraise].
    + pose proof (cell_raise _ _ _ Hc) as ->.
      split; [|intros _; eauto]. intros _. exists p. split; [left; reflexivity | exact Hc].
Qed.

Lemma scan_cells_ext b1 b2 ps :
  (forall p, In p ps -> cell b1 p = cell b2 p) ->
  scan_cells b1 ps = scan_cells b2 ps.
Proof.
  induction ps as [|p ps IH]; intros Hsame; [reflexivity|].
  cbn [scan_cells]. rewrite (Hsame p (or_introl eq_refl)).
  rewrite IH; [reflexivity|]. intros q Hq. apply Hsame. right; exact Hq.
Qed.

(** X2.  [get_valid_actions] raises exactly when one of the nine cells it
    reads does not exist, and then it raises [IndexError].  It reads nothing
    else: two boards that agree on these nine cells, whatever further rows
    and cells they have, get the same answer. *)
Theorem get_valid_actions_fault (s : State) :
  ((exists e, get_valid_actions s = Raise e) <->
   (exists x y, 0 <= x < 3 /\ 0 <= y < 3 /\ cell (board s) (x, y) = Raise IndexError)) /\
  (forall e, get_valid_actions s = Raise e -> e = IndexError) /\
  (forall s2,
     (forall x y, 0 <= x < 3 -> 0 <= y < 3 -> cell (board s) (x, y) = cell (board s2) (x, y)) ->
     get_valid_actions s = get_valid_actions s2).
Proof.
  split; [|split].
  - unfold get_valid_actions. rewrite scan_cells_raise. split.
    + intros ([x y] & Hin & Hraise). apply in_cells3x3 in Hin. exists x, y. tauto.
    + intros (x & y & Hx & Hy & Hraise). exists (x, y). rewrite in_cells3x3. tauto.
  - unfold get_valid_actions. generalize cells3x3. intros ps.
    induction ps as [|q ps IH]; intros e He; cbn in He.
    + discriminate.
    + destruct (cell (board s) q) as [c|e0] eqn:Hc; cbn [rbind] in He.
      * destruct (scan_cells (board s) ps) as [rest|e1] eqn:Hrest; cbn [rbind] in He;
          [discriminate|]. inversion He; subst. apply (IH e eq_refl).
      * inversion He; subst. eapply cell_raise; eauto.
  - intros s2 Hsame. unfold get_valid_actions. apply scan_cells_ext.
    intros [x y] Hin. apply in_cells3x3 in Hin as [Hx Hy]. apply Hsame; assumption.
Qed.

Lemma get_valid_actions_fault_witness :
  get_valid_actions ragged_state = Raise IndexError /\
  get_valid_actions
    {| board := [[1; 1; 0; 7]; [0; 2; 0; 7]; [0; 0; 2; 7]; [7; 7; 7; 7]]; turn := Turn.x |}
  = get_valid_actions scenario.
Proof.
  pose proof (get_valid_actions_fault ragged_state) as (Hiff & Hexn & _).
  pose proof (get_valid_actions_fault
                {| board := [[1; 1; 0; 7]; [0; 2; 0; 7]; [0; 0; 2; 7]; [7; 7; 7; 7]];
                   turn := Turn.x |}) as (_ & _ & Hext).
  split.
  - destruct (proj2 Hiff) as [e He].
    + exists 1, 2. repeat split; try lia.
    + rewrite He. f_equal. apply Hexn. exact He.
  - apply Hext. intros x y Hx Hy.
    assert (Hx' : x = 0 \/ x = 1 \/ x = 2) by lia.
    assert (Hy' : y = 0 \/ y = 1 \/ y = 2) by lia.
    destruct Hx' as [-> | [-> | ->]], Hy' as [-> | [-> | ->]]; reflexivity.
Defined.

Lemma apply_action_cells b t a :
  wf_board b ->
  In a cells3x3 ->
  exists b',
    apply_action a {| board := b; turn := t |} = Ok {| board := b'; turn := Turn.other t |} /\
    wf_board b' /\
    cell b' a = Ok (Turn.value t) /\
    forall p, In p cells3x3 -> p <> a -> cell b' p = cell b p.
Proof.
  intros Hwf Hin.
  destruct (wf_board_inv _ Hwf) as (a0&a1&a2&a3&a4&a5&a6&a7&a8&->).
  destruct (cells3x3_cases _ Hin) as [-> | [-> | [-> | [-> | [-> | [-> | [-> | [-> | ->]]]]]]]];
    (eexists; split; [destruct t; reflexivity|];
     split; [apply wf_board_grid|];
     split; [reflexivity|];
     intros p Hp Hne;
     destruct (cells3x3_cases _ Hp) as [-> | [-> | [-> | [-> | [-> | [-> | [-> | [-> | ->]]]]]]]];
     first [reflexivity | congruence]).
Qed.

Lemma filter_filter_and {A} (f g : A -> bool) (l : list A) :
  List.filter g (List.filter f l) = List.filter (fun x => f x && g x) l.
Proof.
  induction l as [|x l IH]; [reflexivity|]. cbn [List.filter].
  destruct (f x); cbn [List.filter andb]; [destruct (g x)|]; rewrite IH; reflexivity.
Qed.

(** X3.  A move on a cell of the 3x3 board, empty or not, leaves as legal
    moves the ones there were without that cell, in the same order. *)
Theorem apply_action_removes_move (s : State) (l : list action) (x y : Z) :
  wf_board (board s) ->
  get_valid_actions s = Ok l ->
  0 <= x < 3 ->
  0 <= y < 3 ->
  exists s',
    apply_action (x, y) s = Ok s' /\
    get_valid_actions s'
    = Ok (List.filter (fun p => negb (bool_decide (p = (x, y)))) l).
Proof.
  intros Hwf Hl Hx Hy.
  assert (Hin : In (x, y) cells3x3) by (apply in_cells3x3; auto).
  destruct s as [b t]. cbn [board] in *.
  destruct (apply_action_cells b t (x, y) Hwf Hin) as (b' & Happ & Hwf' & Hv & Hsame).
  exists {| board := b'; turn := Turn.other t |}. split; [exact Happ|].
  destruct (get_valid_actions_wf {| board := b'; turn := Turn.other t |} Hwf') as [l' Hl'].
  rewrite Hl'. f_equal. unfold get_valid_actions in Hl, Hl'. cbn [board] in Hl, Hl'.
  rewrite (scan_cells_filter _ _ _ Hl), (scan_cells_filter _ _ _ Hl'), filter_filter_and.
  apply List.filter_ext_in. intros p Hp. unfold is_empty_cell.
  destruct (bool_decide_reflect (p = (x, y))) as [->|Hne].
  - rewrite Hv. pose proof (turn_value_nonzero t).
    destruct (Z.eqb_spec (Turn.value t) 0); [contradiction|].
    rewrite andb_false_r. reflexivity.
  - rewrite (Hsame p Hp Hne), andb_true_r. reflexivity.
Qed.

Lemma apply_action_removes_move_witness :
  exists s',
    apply_action (0, 2) scenario = Ok s' /\
    get_valid_actions s'
    = Ok (List.filter (fun p => negb (bool_decide (p = (0, 2))))
            [(0, 2); (1, 0); (1, 2); (2, 0); (2, 1)]).
Proof.
  apply (apply_action_removes_move scenario); [apply wf_board_grid | reflexivity | lia | lia].
Defined.

Lemma norm_index_out {A} (l : list A) (i : Z) :
  i < - Z.of_nat (length l) \/ Z.of_nat (length l) <= i ->
  norm_index l i = Raise IndexError.
Proof.
  intros Hi. unfold norm_index.
  destruct (Z.leb_spec 0 i), (Z.ltb_spec i (Z.of_nat (length l))); cbn [andb]; try lia;
    destruct (Z.leb_spec (- Z.of_nat (length l)) i), (Z.ltb_spec i 0); cbn [andb];
    try lia; reflexivity.
Qed.

(** X4.  The coordinates of [apply_action] follow Python's index rules.  On
    a 3x3 board a coordinate from -3 to -1 names the same cell as that
    coordinate plus 3, so the move is applied; any coordinate below -3 or
    above 2 raises [IndexError]. *)
Theorem apply_action_index_range (s : State) (x y : Z) :
  wf_board (board s) ->
  ((-3 <= x < 3 /\ -3 <= y < 3) ->
   (exists s', apply_action (x, y) s = Ok s') /\
   apply_action (x, y) s = apply_action (x mod 3, y mod 3) s) /\
  ((x < -3 \/ 3 <= x \/ y < -3 \/ 3 <= y) ->
   apply_action (x, y) s = Raise IndexError).
Proof.
  intros Hwf. destruct (wf_board_inv _ Hwf) as (a0&a1&a2&a3&a4&a5&a6&a7&a8&Hb).
  destruct s as [b t]. cbn [board] in Hb. subst b.
  split.
  - intros [Hx Hy].
    assert (Hx' : x = -3 \/ x = -2 \/ x = -1 \/ x = 0 \/ x = 1 \/ x = 2) by lia.
    assert (Hy' : y = -3 \/ y = -2 \/ y = -1 \/ y = 0 \/ y = 1 \/ y = 2) by lia.
    destruct Hx' as [-> | [-> | [-> | [-> | [-> | ->]]]]],
             Hy' as [-> | [-> | [-> | [-> | [-> | ->]]]]];
      (split; [eexists; reflexivity | reflexivity]).
  - intros Hout. unfold apply_action. cbn [board turn].
    destruct (Z_lt_ge_dec x (-3)) as [Hx|Hx];
      [unfold getitem; rewrite norm_index_out by (cbn; lia); reflexivity|].
    destruct (Z_lt_ge_dec x 3) as [Hx3|Hx3];
      [|unfold getitem; rewrite norm_index_out by (cbn; lia); reflexivity].
    assert (Hx' : x = -3 \/ x = -2 \/ x = -1 \/ x = 0 \/ x = 1 \/ x = 2) by lia.
    assert (Hrow : exists row,
              getitem [[a0; a1; a2]; [a3; a4; a5]; [a6; a7; a8]] x = Ok row /\
              length row = 3%nat).
    { destruct Hx' as [-> | [-> | [-> | [-> | [-> | ->]]]]];
        (eexists; split; reflexivity). }
    destruct Hrow as (row & -> & Hlen). cbn [rbind].
    unfold setitem at 1. rewrite norm_index_out by lia. reflexivity.
Qed.

Lemma apply_action_index_range_witness :
  ((exists s', apply_action (-1, -3) scenario = Ok s') /\
   apply_action (-1, -3) scenario = apply_action ((-1) mod 3, (-3) mod 3) scenario) /\
  apply_action (1, 3) scenario = Raise IndexError.
Proof.
  destruct (apply_action_index_range scenario (-1) (-3) (wf_board_grid _ _ _ _ _ _ _ _ _))
    as [Hin _].
  destruct (apply_action_index_range scenario 1 3 (wf_board_grid _ _ _ _ _ _ _ _ _))
    as [_ Hout].
  split; [apply Hin; lia | apply Hout; lia].
Defined.

(** X5.  On a 3x3 board [check_win_conditions] names the side to move
    exactly when one of the eight lines (three rows, three columns, two
    diagonals) holds the value of that side in its three cells, and answers
    [None] when no line does. *)
Theorem check_win_conditions_eight_lines (s : State) :
  wf_board (board s) ->
  (has_line (board s) (Turn.value (turn s)) ->
   check_win_conditions s = Ok (Some (turn s))) /\
  (~ has_line (board s) (Turn.value (turn s)) ->
   check_win_conditions s = Ok None).
Proof.
  intros Hwf. pose proof (check_win_conditions_lines s Hwf) as Hiff.
  split; [apply Hiff|].
  intros Hno. destruct (wf_board_inv _ Hwf) as (a0&a1&a2&a3&a4&a5&a6&a7&a8&Hb).
  destruct s as [b t]. cbn [board turn] in *. subst b.
  rewrite check_win_conditions_grid in Hiff |- *.
  destruct (existsb _ _); [|reflexivity].
  exfalso. apply Hno, Hiff. reflexivity.
Qed.

Lemma check_win_conditions_eight_lines_witness :
  check_win_conditions
    {| board := [[2; 1; 0]; [0; 1; 2]; [0; 1; 0]]; turn := Turn.x |} = Ok (Some Turn.x) /\
  check_win_conditions scenario = Ok None.
Proof.
  split.
  - apply (check_win_conditions_eight_lines
             {| board := [[2; 1; 0]; [0; 1; 2]; [0; 1; 0]]; turn := Turn.x |}).
    + apply wf_board_grid.
    + exists [(0, 1); (1, 1); (2, 1)]. split; [cbn; tauto|].
      intros p [<-|[<-|[<-|[]]]]; reflexivity.
  - apply (check_win_conditions_eight_lines scenario); [apply wf_board_grid|].
    intros (line & Hline & Hcells). cbn in Hline.
    repeat (destruct Hline as [<-|Hline];
            [ pose proof (Hcells _ (or_introl eq_refl)) as H1;
              pose proof (Hcells _ (or_intror (or_introl eq_refl))) as H2;
              pose proof (Hcells _ (or_intror (or_intror (or_introl eq_refl)))) as H3;
              cbn in H1, H2, H3; discriminate
            | ]).
    destruct Hline.
Defined.

Lemma read_cells_raise b ps :
  (exists e, read_cells b ps = Raise e) <->
  (exists p, In p ps /\ cell b p = Raise IndexError).
Proof.
  induction ps as [|p ps IH]; cbn [read_cells].
  - split; [intros [e He]; discriminate | intros (p & [] & _)].
  - destruct (cell b p) as [c|e0] eqn:Hc; cbn [rbind].
    + destruct (read_cells b ps) as [rest|e1] eqn:Hrest; cbn [rbind].
      * split; [intros [e He]; discriminate|].
        intros (q & [<-|Hq] & Hraise); [congruence|].
        destruct (proj2 IH (ex_intro _ q (conj Hq Hraise))) as [e He]. discriminate.
      * split; [|intros _; eauto].
        intros _. destruct (proj1 IH (ex_intro _ e1 eq_refl)) as (q & Hq & Hraise).
        exists q. split; [right; exact Hq | exact Hraise].
    + pose proof (cell_raise _ _ _ Hc) as ->.
      split; [|intros _; eauto]. intros _. exists p. split; [left; reflexivity | exact Hc].
Qed.

(** X6.  [check_win_conditions] raises exactly when one of the five cells of
    the two diagonals does not exist: the rows are taken as they are and
    [zip] cuts the columns to the shortest row, so only the reads of the
    diagonals can fail.  A single row of three equal values is not reported,
    the check raises [IndexError] on it. *)
Theorem check_win_conditions_fault (s : State) :
  (exists e, check_win_conditions s = Raise e) <->
  (exists p, In p [(0, 0); (1, 1); (2, 2); (0, 2); (2, 0)] /\
             cell (board s) p = Raise IndexError).
Proof.
  unfold check_win_conditions.
  pose proof (read_cells_raise (board s) (map (fun i => (i, i)) range3)) as H1.
  pose proof (read_cells_raise (board s) (map (fun i => (i, 2 - i)) range3)) as H2.
  destruct (read_cells (board s) (map (fun i => (i, i)) range3)) as [d1|e1]; cbn [rbind].
  - destruct (read_cells (board s) (map (fun i => (i, 2 - i)) range3)) as [d2|e2];
      cbn [rbind].
    + split; [intros [e He]; discriminate|].
      intros (p & Hp & Hraise). cbn in Hp.
      destruct Hp as [<-|[<-|[<-|[<-|[<-|[]]]]]].
      * destruct (proj2 H1) as [e He]; [|discriminate]. exists (0, 0). cbn. tauto.
      * destruct (proj2 H1) as [e He]; [|discriminate]. exists (1, 1). cbn. tauto.
      * destruct (proj2 H1) as [e He]; [|discriminate]. exists (2, 2). cbn. tauto.
      * destruct (proj2 H2) as [e He]; [|discriminate]. exists (0, 2). cbn. tauto.
      * destruct (proj2 H2) as [e He]; [|discriminate]. exists (2, 0). cbn. tauto.
    + split; [|intros _; eauto]. intros _.
      destruct (proj1 H2 (ex_intro _ e2 eq_refl)) as (p & Hp & Hraise).
      exists p. split; [|exact Hraise]. cbn in Hp |- *. tauto.
  - split; [|intros _; eauto]. intros _.
    destruct (proj1 H1 (ex_intro _ e1 eq_refl)) as (p & Hp & Hraise).
    exists p. split; [|exact Hraise]. cbn in Hp |- *. tauto.
Qed.

Example check_win_conditions_single_row :
  check_win_conditions {| board := [[1; 1; 1]]; turn := Turn.x |} = Raise IndexError.
Proof. reflexivity. Qed.

(** X7.  From one position, two different legal moves lead to different
    boards: the first board holds the mover's value in the cell of the first
    move, the second board still holds 0 there.  So the children that
    [expand] builds are told apart by their boards, which is what the
    advance of the root relies on. *)
Theorem legal_moves_distinct_boards (s s1 s2 : State) (l : list action) (a1 a2 : action) :
  wf_board (board s) ->
  get_valid_actions s = Ok l ->
  In a1 l -> In a2 l ->
  a1 <> a2 ->
  apply_action a1 s = Ok s1 ->
  apply_action a2 s = Ok s2 ->
  cell (board s1) a1 = Ok (Turn.value (turn s)) /\
  cell (board s2) a1 = Ok 0 /\
  board s1 <> board s2.
Proof.
  intros Hwf Hl H1 H2 Hne Happ1 Happ2.
  unfold get_valid_actions in Hl.
  pose proof (proj1 (scan_cells_in _ _ _ a1 Hl) H1) as [Hin1 Hc1].
  pose proof (proj1 (scan_cells_in _ _ _ a2 Hl) H2) as [Hin2 Hc2].
  destruct s as [b t]. cbn [board turn] in *.
  destruct (apply_action_cells b t a1 Hwf Hin1) as (b1 & Hb1 & _ & Hv1 & _).
  destruct (apply_action_cells b t a2 Hwf Hin2) as (b2 & Hb2 & _ & _ & Hsame2).
  assert (s1 = {| board := b1; turn := Turn.other t |}) by congruence.
  assert (s2 = {| board := b2; turn := Turn.other t |}) by congruence.
  subst s1 s2. cbn [board].
  assert (Hz : cell b2 a1 = Ok 0) by (rewrite (Hsame2 a1 Hin1 Hne); exact Hc1).
  split; [exact Hv1|]. split; [exact Hz|].
  intros Heq. rewrite Heq, Hz in Hv1. inversion Hv1 as [Hv].
  symmetry in Hv. exact (turn_value_nonzero t Hv).
Qed.

Lemma legal_moves_distinct_boards_witness :
  cell [[1; 1; 1]; [0; 2; 0]; [0; 0; 2]] (0, 2) = Ok 1 /\
  cell [[1; 1; 0]; [0; 2; 1]; [0; 0; 2]] (0, 2) = Ok 0 /\
  [[1; 1; 1]; [0; 2; 0]; [0; 0; 2]] <> [[1; 1; 0]; [0; 2; 1]; [0; 0; 2]].
Proof.
  apply (legal_moves_distinct_boards scenario
           {| board := [[1; 1; 1]; [0; 2; 0]; [0; 0; 2]]; turn := Turn.o |}
           {| board := [[1; 1; 0]; [0; 2; 1]; [0; 0; 2]]; turn := Turn.o |}
           [(0, 2); (1, 0); (1, 2); (2, 0); (2, 1)] (0, 2) (1, 2)).
  - apply wf_board_grid.
  - reflexivity.
  - cbn; tauto.
  - cbn; tauto.
  - discriminate.
  - reflexivity.
  - reflexivity.
Defined.

(** * The moves of the game loop *)

Lemma differing_cell_none b ps :
  (forall p, In p ps -> exists c, cell b p = Ok c) ->
  differing_cell b b ps = Ok None.
Proof.
  induction ps as [|p ps IH]; intros Hall; [reflexivity|].
  cbn [differing_cell].
  destruct (Hall p (or_introl eq_refl)) as [c Hc]. rewrite Hc. cbn [rbind].
  rewrite Z.eqb_refl. cbn [negb]. apply IH. intros q Hq. apply Hall. right; exact Hq.
Qed.

Lemma differing_cell_first b b' a c c' ps :
  List.NoDup ps ->
  In a ps ->
  (forall p, In p ps -> exists v, cell b p = Ok v) ->
  cell b a = Ok c ->
  cell b' a = Ok c' ->
  c <> c' ->
  (forall p, In p ps -> p <> a -> cell b' p = cell b p) ->
  differing_cell b b' ps = Ok (Some a).
Proof.
  intros Hnd. induction Hnd as [|q ps Hq Hnd IH]; intros Hin Hall Hc Hc' Hne Hsame.
  - destruct Hin.
  - cbn [differing_cell].
    destruct (decide (q = a)) as [->|Hqa].
    + rewrite Hc, Hc'. cbn [rbind].
      destruct (Z.eqb_spec c c') as [?|_]; [contradiction|]. reflexivity.
    + destruct Hin as [?|Hin]; [contradiction|].
      destruct (Hall q (or_introl eq_refl)) as [v Hv].
      rewrite (Hsame q (or_introl eq_refl) Hqa), Hv. cbn [rbind].
      rewrite Z.eqb_refl. cbn [negb].
      apply IH; auto.
      * intros p Hp. apply Hall. right; exact Hp.
      * intros p Hp. apply Hsame. right; exact Hp.
Qed.

(** X8.  The comparison of boards by which [play_game] finds the move of the
    machine gives back the move that was made: for a legal move [a] of [s]
    and the state [s'] that [apply_action] builds from it, the first cell in
    which the boards of [s] and [s'] differ is [a].  Between two equal boards
    no cell differs, and the loops assign no move. *)
Theorem infer_action_recovers_move (s s' : State) (l : list action) (a : action) :
  wf_board (board s) ->
  get_valid_actions s = Ok l ->
  In a l ->
  apply_action a s = Ok s' ->
  infer_action (board s) (board s') = Ok (Some a) /\
  infer_action (board s) (board s) = Ok None.
Proof.
  intros Hwf Hl Hin Happ.
  unfold get_valid_actions in Hl.
  pose proof (proj1 (scan_cells_in _ _ _ a Hl) Hin) as [Hina Hc].
  assert (Hall : forall p, In p cells3x3 -> exists v, cell (board s) p = Ok v).
  { intros p Hp.
    destruct (cell (board s) p) as [v|e] eqn:Hv; [eauto|].
    exfalso.
    assert (Hr : exists e0, scan_cells (board s) cells3x3 = Raise e0).
    { apply scan_cells_raise. exists p. split; [exact Hp|].
      rewrite Hv. f_equal. eapply cell_raise. exact Hv. }
    destruct Hr as [e0 He0]. congruence. }
  split; [|apply differing_cell_none; exact Hall].
  destruct s as [b t]. cbn [board turn] in *.
  destruct (apply_action_cells b t a Hwf Hina) as (b' & Hb' & _ & Hv' & Hsame).
  assert (s' = {| board := b'; turn := Turn.other t |}) by congruence. subst s'.
  cbn [board]. unfold infer_action.
  eapply differing_cell_first; eauto using cells3x3_nodup.
  intros Heq. symmetry in Heq. exact (turn_value_nonzero t Heq).
Qed.

Lemma infer_action_recovers_move_witness :
  infer_action (board scenario) [[1; 1; 0]; [0; 2; 1]; [0; 0; 2]] = Ok (Some (1, 2)) /\
  infer_action (board scenario) (board scenario) = Ok None.
Proof.
  apply (infer_action_recovers_move scenario
           {| board := [[1; 1; 0]; [0; 2; 1]; [0; 0; 2]]; turn := Turn.o |}
           [(0, 2); (1, 0); (1, 2); (2, 0); (2, 1)] (1, 2)).
  - apply wf_board_grid.
  - reflexivity.
  - cbn; tauto.
  - reflexivity.
Defined.

Lemma human_move_ok_legal (s : State) (l : list action) (x y : Z) :
  get_valid_actions s = Ok l ->
  exists ok, human_move_ok x y s = Ok ok /\ (ok = true <-> In (x, y) l).
Proof.
  intros Hl. unfold get_valid_actions in Hl.
  pose proof (scan_cells_in _ _ _ (x, y) Hl) as Hiff.
  rewrite in_cells3x3 in Hiff.
  unfold human_move_ok.
  destruct (Z.leb_spec 0 x); destruct (Z.ltb_spec x 3); cbn [andb];
    try (exists false; split; [reflexivity|];
         split; [discriminate | intros Hin; apply Hiff in Hin; lia]).
  destruct (Z.leb_spec 0 y); destruct (Z.ltb_spec y 3); cbn [andb];
    try (exists false; split; [reflexivity|];
         split; [discriminate | intros Hin; apply Hiff in Hin; lia]).
  destruct (cell (board s) (x, y)) as [v|e] eqn:Hv.
  - cbn [rbind]. exists (v =? 0). split; [reflexivity|].
    rewrite Hiff. destruct (Z.eqb_spec v 0) as [->|Hne].
    + split; [intros _; repeat split; auto; lia | reflexivity].
    + split; [discriminate | intros [_ Heq]; congruence].
  - exfalso.
    assert (Hr : exists e0, scan_cells (board s) cells3x3 = Raise e0).
    { apply scan_cells_raise. exists (x, y). split; [apply in_cells3x3; lia|].
      rewrite Hv. f_equal. eapply cell_raise. exact Hv. }
    destruct Hr as [e0 He0]. congruence.
Qed.

(** X9.  [get_human_action] answers a legal move or nothing: on a state
    whose legal moves are [l], the loop skips the lines that do not parse
    and the pairs that are not in [l], and returns the first pair that is in
    [l]; when the input holds no such pair, it ends with the input.  The
    test of the loop raises nothing. *)
Theorem get_human_action_first_legal (s : State) (l : list action)
    (lines : list (option (Z * Z))) :
  get_valid_actions s = Ok l ->
  exists r,
    get_human_action lines s = Ok r /\
    match r with
    | Some (a, rest) =>
        In a l /\
        exists skipped,
          lines = skipped ++ Some a :: rest /\
          forall p, In (Some p) skipped -> ~ In p l
    | None => forall p, In (Some p) lines -> ~ In p l
    end.
Proof.
  intros Hl. induction lines as [|line lines IH].
  - exists None. split; [reflexivity|]. intros p [].
  - destruct IH as (r & Hr & Hspec).
    destruct line as [[x y]|]; cbn [get_human_action].
    + destruct (human_move_ok_legal s l x y Hl) as (ok & Hok & Hiff).
      rewrite Hok. cbn [rbind]. destruct ok.
      * exists (Some ((x, y), lines)). split; [reflexivity|].
        split; [apply Hiff; reflexivity|].
        exists []. split; [reflexivity|]. intros p [].
      * assert (Hnot : ~ In (x, y) l) by (intros Hin; apply Hiff in Hin; discriminate).
        exists r. split; [exact Hr|].
        destruct r as [[a rest]|].
        -- destruct Hspec as (Ha & skipped & -> & Hsk). split; [exact Ha|].
           exists (Some (x, y) :: skipped). split; [reflexivity|].
           intros p [Hp|Hp]; [inversion Hp; subst; exact Hnot | apply Hsk; exact Hp].
        -- intros p [Hp|Hp]; [inversion Hp; subst; exact Hnot | apply Hspec; exact Hp].
    + exists r. split; [exact Hr|].
      destruct r as [[a rest]|].
      * destruct Hspec as (Ha & skipped & -> & Hsk). split; [exact Ha|].
        exists (None :: skipped). split; [reflexivity|].
        intros p [Hp|Hp]; [discriminate | apply Hsk; exact Hp].
      * intros p [Hp|Hp]; [discriminate | apply Hspec; exact Hp].
Qed.

Lemma get_human_action_first_legal_witness :
  exists r,
    get_human_action [None; Some (1, 1); Some (5, 0); Some (0, 2); Some (1, 0)] scenario = Ok r /\
    match r with
    | Some (a, rest) =>
        In a [(0, 2); (1, 0); (1, 2); (2, 0); (2, 1)] /\
        exists skipped,
          [None; Some (1, 1); Some (5, 0); Some (0, 2); Some (1, 0)]
          = skipped ++ Some a :: rest /\
          forall p, In (Some p) skipped -> ~ In p [(0, 2); (1, 0); (1, 2); (2, 0); (2, 1)]
    | None =>
        forall p,
          In (Some p) [None; Some (1, 1); Some (5, 0); Some (0, 2); Some (1, 0)] ->
          ~ In p [(0, 2); (1, 0); (1, 2); (2, 0); (2, 1)]
    end.
Proof.
  apply (get_human_action_first_legal scenario
           [(0, 2); (1, 0); (1, 2); (2, 0); (2, 1)]
           [None; Some (1, 1); Some (5, 0); Some (0, 2); Some (1, 0)]).
  reflexivity.
Defined.

(** * More on expansion and selection *)

Lemma valid_action_applies (s : State) (l : list action) (a : action) :
  get_valid_actions s = Ok l -> In a l -> exists s', apply_action a s = Ok s'.
Proof.
  intros Hl Hin. unfold get_valid_actions in Hl.
  pose proof (proj1 (scan_cells_in _ _ _ a Hl) Hin) as [_ Hc].
  destruct (apply_action_ok s a 0 Hc) as (s' & _ & _ & Happ & _). eauto.
Qed.

Lemma scan_cells_raise_index b ps e : scan_cells b ps = Raise e -> e = IndexError.
Proof.
  induction ps as [|q ps IH]; cbn [scan_cells]; [discriminate|].
  destruct (cell b q) as [c|e0] eqn:Hc; cbn [rbind].
  - destruct (scan_cells b ps) as [rest|e1]; cbn [rbind]; [discriminate|].
    intros [= <-]. apply IH. reflexivity.
  - intros [= <-]. eapply cell_raise. exact Hc.
Qed.

(** [expand] on any state whose scan succeeds, 3x3 or not. *)
Lemma expand_run_moves a n w l :
  heap w !! a = Some n ->
  get_valid_actions (state n) = Ok l ->
  exists ss,
    expand a w
    = ({| heap := expanded (heap w) a n ss; rng := rng w;
          expand_log := expand_log w ++ [(a, children n)] |}, Ok a) /\
    Forall2 (fun act s' => apply_action act (state n) = Ok s') l ss.
Proof.
  intros Hn Hl. unfold expand. run_with Hn.
  set (w0 := {| heap := heap w; rng := rng w; expand_log := expand_log w ++ [(a, children n)] |}).
  assert (Hrec : record_expand a (children n) w = (w0, Ok tt)) by reflexivity.
  run_with Hrec. run_with Hl.
  destruct (expand_children_run a (state n) l w0) as (ss & Hrun & Hall).
  { intros act Hact. eapply valid_action_applies; eauto. }
  exists ss. run_with Hrun.
  assert (Hn' : (heap w ++ map (new_child a) ss) !! a = Some n).
  { apply lookup_app_l_Some. exact Hn. }
  erewrite bind_run by (apply load_run; cbn [heap]; exact Hn'). cbv beta iota.
  split; [reflexivity | exact Hall].
Qed.



(** X11.  [expand] does not fail half way.  When it raises, no node has been
    allocated and no field written: the store and the source of random
    numbers are as before.  It raises only when the reference is dangling or
    when the scan of the board raises [IndexError]; a move that the scan
    answered is always applied. *)
Theorem expand_fails_before_allocating (w w' : World) (a : addr) (e : exn) :
  expand a w = (w', Raise e) ->
  heap w' = heap w /\
  rng w' = rng w /\
  ((heap w !! a = None /\ e = DanglingRef) \/
   (exists n, heap w !! a = Some n /\ get_valid_actions (state n) = Raise IndexError /\
              e = IndexError)).
Proof.
  intros Hrun.
  destruct (heap w !! a) as [n|] eqn:Hn.
  - destruct (get_valid_actions (state n)) as [l|e0] eqn:Hl.
    + destruct (expand_run_moves a n w l Hn Hl) as (ss & Hok & _). congruence.
    + assert (He0 : e0 = IndexError) by (eapply scan_cells_raise_index; exact Hl).
      subst e0. unfold expand in Hrun. revert Hrun. run_with Hn.
      set (w0 := {| heap := heap w; rng := rng w;
                    expand_log := expand_log w ++ [(a, children n)] |}).
      assert (Hrec : record_expand a (children n) w = (w0, Ok tt)) by reflexivity.
      run_with Hrec.
      erewrite bind_raise by (rewrite lift_run, Hl; reflexivity).
      intros [= <- <-]. cbn [heap rng]. split; [reflexivity|]. split; [reflexivity|].
      right. exists n. auto.
  - unfold expand in Hrun.
    erewrite bind_raise in Hrun by (unfold load; rewrite Hn; reflexivity).
    inversion Hrun; subst. split; [reflexivity|]. split; [reflexivity|]. left. auto.
Qed.

Lemma expand_fails_before_allocating_witness :
  heap {| heap := heap (fresh_world ragged_state (fun i => i)); rng := fun i => i;
          expand_log := [(0%nat, None)] |}
  = heap (fresh_world ragged_state (fun i => i)) /\
  rng {| heap := heap (fresh_world ragged_state (fun i => i)); rng := fun i => i;
         expand_log := [(0%nat, None)] |}
  = rng (fresh_world ragged_state (fun i => i)) /\
  ((heap (fresh_world ragged_state (fun i => i)) !! 0%nat = None /\ IndexError = DanglingRef) \/
   (exists n,
      heap (fresh_world ragged_state (fun i => i)) !! 0%nat = Some n /\
      get_valid_actions (state n) = Raise IndexError /\ IndexError = IndexError)).
Proof.
  apply (expand_fails_before_allocating (fresh_world ragged_state (fun i => i))
           {| heap := heap (fresh_world ragged_state (fun i => i)); rng := fun i => i;
              expand_log := [(0%nat, None)] |} 0%nat IndexError).
  reflexivity.
Defined.

Lemma sims_at_lookup h c n : h !! c = Some n -> sims_at h c = simulations n.
Proof. intros Hn. unfold sims_at. rewrite Hn. reflexivity. Qed.

Lemma most_visited_snoc g pre i best c :
  most_visited g pre i best ->
  if g c >? g best
  then most_visited g (pre ++ [c]) (length pre) c
  else most_visited g (pre ++ [c]) i best.
Proof.
  intros (Hi & Hmax & Hbefore).
  pose proof (lookup_lt_Some _ _ _ Hi) as Hlt.
  destruct (Z.gtb_spec (g c) (g best)) as [Hgt|Hle].
  - split; [apply list_lookup_middle; reflexivity|]. split.
    + intros j cj Hj. apply lookup_app_Some in Hj as [Hj|[_ Hj]].
      * specialize (Hmax j cj Hj). lia.
      * destruct (j - length pre)%nat; cbn in Hj; [|discriminate].
        inversion Hj; subst. lia.
    + intros j cj Hjlt Hj. rewrite lookup_app_l in Hj by exact Hjlt.
      specialize (Hmax j cj Hj). lia.
  - split; [apply lookup_app_l_Some; exact Hi|]. split.
    + intros j cj Hj. apply lookup_app_Some in Hj as [Hj|[_ Hj]].
      * exact (Hmax j cj Hj).
      * destruct (j - length pre)%nat; cbn in Hj; [|discriminate].
        inversion Hj; subst. lia.
    + intros j cj Hjlt Hj. rewrite lookup_app_l in Hj by lia.
      exact (Hbefore j cj Hjlt Hj).
Qed.

Lemma max_sims_run (w : World) (l : list addr) : forall pre i best,
  (forall c, In c l -> exists n, heap w !! c = Some n) ->
  most_visited (sims_at (heap w)) pre i best ->
  exists i' c,
    max_sims best (sims_at (heap w) best) l w = (w, Ok c) /\
    most_visited (sims_at (heap w)) (pre ++ l) i' c.
Proof.
  induction l as [|c l IH]; intros pre i best Hall Hbest.
  - exists i, best. rewrite app_nil_r. split; [reflexivity | exact Hbest].
  - destruct (Hall c (or_introl eq_refl)) as [n Hn].
    cbn [max_sims]. run_with Hn.
    pose proof (most_visited_snoc _ pre i best c Hbest) as Hsnoc.
    rewrite (sims_at_lookup _ _ _ Hn) in Hsnoc.
    replace (pre ++ c :: l) with ((pre ++ [c]) ++ l) by (rewrite <- app_assoc; reflexivity).
    destruct (simulations n >? sims_at (heap w) best).
    + rewrite <- (sims_at_lookup _ _ _ Hn).
      apply (IH (pre ++ [c]) (length pre) c); [|exact Hsnoc].
      intros c' Hc'. apply Hall. right; exact Hc'.
    + apply (IH (pre ++ [c]) i best); [|exact Hsnoc].
      intros c' Hc'. apply Hall. right; exact Hc'.
Qed.

(** X12.  [best_action] answers the child with the most simulations, and the
    first such child in the order of the list when several have the most.
    It reads the store and changes nothing.  On a node that was never
    expanded ([children] is [None]) it raises [TypeError], on a node with an
    empty list of children [ValueError]. *)
Theorem best_action_most_visited (w : World) (a : addr) (node : Node) :
  heap w !! a = Some node ->
  (forall cs c, children node = Some cs -> In c cs -> exists n, heap w !! c = Some n) ->
  match children node with
  | None => best_action a w = (w, Raise TypeError)
  | Some [] => best_action a w = (w, Raise ValueError)
  | Some cs =>
      exists i c,
        best_action a w = (w, Ok c) /\
        most_visited (sims_at (heap w)) cs i c
  end.
Proof.
  intros Hnode Hall. unfold best_action. run_with Hnode.
  destruct (children node) as [[|c cs]|]; [reflexivity | | reflexivity].
  specialize (Hall (c :: cs)).
  destruct (Hall c eq_refl (or_introl eq_refl)) as [n Hn]. run_with Hn.
  rewrite <- (sims_at_lookup _ _ _ Hn).
  apply (max_sims_run w cs [c] 0%nat c).
  - intros c' Hc'. apply (Hall c' eq_refl). right; exact Hc'.
  - split; [reflexivity|]. split.
    + intros [|j] cj Hj; cbn in Hj; [|discriminate]. inversion Hj; subst. lia.
    + intros j cj Hlt. lia.
Qed.

Lemma best_action_most_visited_witness :
  exists i c,
    best_action 0%nat selection_world = (selection_world, Ok c) /\
    most_visited (sims_at (heap selection_world)) [1%nat; 2%nat; 3%nat] i c.
Proof.
  apply (best_action_most_visited selection_world 0%nat
           {| parent := None; state := {| board := empty_board; turn := Turn.x |};
              simulations := 4; wins := 2; children := Some [1%nat; 2%nat; 3%nat] |}).
  - reflexivity.
  - intros cs c [= <-] Hc. cbn in Hc.
    destruct Hc as [<- | [<- | [<- | []]]]; eexists; reflexivity.
Defined.

Section Descent.
Context `{PyFloat}.

Lemma all_simulated_false (cs : list addr) (w : World) (c : addr) :
  (forall c', In c' cs -> exists child, heap w !! c' = Some child) ->
  In c cs ->
  sims_at (heap w) c <= 0 ->
  all_simulated cs w = (w, Ok false).
Proof.
  intros Hall Hin Hz.
  destruct (all_simulated_run cs w Hall) as (b & Hrun & Hb).
  destruct b; [|exact Hrun]. exfalso.
  destruct (Hall c Hin) as [child Hchild].
  specialize (Hb eq_refl c child Hin Hchild).
  rewrite (sims_at_lookup _ _ _ Hchild) in Hz. lia.
Qed.

Lemma first_unsimulated_first (w : World) (c : addr) : forall cs i,
  (forall c', In c' cs -> exists child, heap w !! c' = Some child) ->
  cs !! i = Some c ->
  sims_at (heap w) c = 0 ->
  (forall j cj, (j < i)%nat -> cs !! j = Some cj -> sims_at (heap w) cj <> 0) ->
  first_unsimulated cs w = (w, Ok c).
Proof.
  induction cs as [|c0 cs IH]; intros i Hall Hi Hz Hbefore; [discriminate|].
  destruct (Hall c0 (or_introl eq_refl)) as [child Hchild].
  cbn [first_unsimulated]. run_with Hchild.
  destruct i as [|i].
  - inversion Hi; subst c0. rewrite (sims_at_lookup _ _ _ Hchild) in Hz.
    rewrite Hz. reflexivity.
  - pose proof (Hbefore 0%nat c0 ltac:(lia) eq_refl) as Hnz.
    rewrite (sims_at_lookup _ _ _ Hchild) in Hnz.
    destruct (Z.eqb_spec (simulations child) 0) as [?|_]; [contradiction|].
    apply (IH i); auto.
    + intros c' Hc'. apply Hall. right; exact Hc'.
    + intros j cj Hj Hcj. apply (Hbefore (S j) cj); [lia | exact Hcj].
Qed.

(** X13.  The descent of [mcts] stops at the first child that was never
    simulated: when some child of the node has no simulations, the descent
    leaves the loop there with the first such child of the list, without a
    call to [select_child] and without a change to the store.  This is the
    bias to the first child that the source notes. *)
Theorem descend_first_unvisited (fuel : nat) (w : World) (a : addr) (node : Node)
    (cs : list addr) (i : nat) (c : addr) :
  heap w !! a = Some node ->
  children node = Some cs ->
  (forall c', In c' cs -> exists child, heap w !! c' = Some child) ->
  cs !! i = Some c ->
  sims_at (heap w) c = 0 ->
  (forall j cj, (j < i)%nat -> cs !! j = Some cj -> sims_at (heap w) cj <> 0) ->
  descend (S fuel) a w = (w, Ok c).
Proof.
  intros Hnode Hcs Hall Hi Hz Hbefore.
  cbn [descend]. run_with Hnode. rewrite Hcs.
  destruct cs as [|c0 cs]; [discriminate|].
  assert (Hin : In c (c0 :: cs)).
  { apply list_elem_of_In. eapply list_elem_of_lookup_2. exact Hi. }
  assert (Hfalse : all_simulated (c0 :: cs) w = (w, Ok false)).
  { apply (all_simulated_false _ _ c); auto. lia. }
  run_with Hfalse.
  apply (first_unsimulated_first w c (c0 :: cs) i); assumption.
Qed.

End Descent.

Lemma descend_first_unvisited_witness :
  descend (H := Fixed.ops) 1 0%nat
    {| heap :=
         [ {| parent := None; state := {| board := empty_board; turn := Turn.x |};
              simulations := 1; wins := 1; children := Some [1%nat; 2%nat; 3%nat] |};
           {| parent := Some 0%nat;
              state := {| board := [[1; 0; 0]; [0; 0; 0]; [0; 0; 0]]; turn := Turn.o |};
              simulations := 1; wins := 1; children := None |};
           new_child 0%nat {| board := [[0; 1; 0]; [0; 0; 0]; [0; 0; 0]]; turn := Turn.o |};
           new_child 0%nat {| board := [[0; 0; 1]; [0; 0; 0]; [0; 0; 0]]; turn := Turn.o |} ];
       rng := fun i => i; expand_log := [] |}
  = ({| heap :=
         [ {| parent := None; state := {| board := empty_board; turn := Turn.x |};
              simulations := 1; wins := 1; children := Some [1%nat; 2%nat; 3%nat] |};
           {| parent := Some 0%nat;
              state := {| board := [[1; 0; 0]; [0; 0; 0]; [0; 0; 0]]; turn := Turn.o |};
              simulations := 1; wins := 1; children := None |};
           new_child 0%nat {| board := [[0; 1; 0]; [0; 0; 0]; [0; 0; 0]]; turn := Turn.o |};
           new_child 0%nat {| board := [[0; 0; 1]; [0; 0; 0]; [0; 0; 0]]; turn := Turn.o |} ];
       rng := fun i => i; expand_log := [] |}, Ok 2%nat).
Proof.
  apply (descend_first_unvisited (H := Fixed.ops) 0 _ 0%nat
           {| parent := None; state := {| board := empty_board; turn := Turn.x |};
              simulations := 1; wins := 1; children := Some [1%nat; 2%nat; 3%nat] |}
           [1%nat; 2%nat; 3%nat] 1%nat 2%nat).
  - reflexivity.
  - reflexivity.
  - intros c' Hc'. cbn in Hc'.
    destruct Hc' as [<- | [<- | [<- | []]]]; eexists; reflexivity.
  - reflexivity.
  - reflexivity.
  - intros j cj Hj Hcj. destruct j as [|j]; [|lia].
    cbn in Hcj. inversion Hcj; subst. cbn. discriminate.
Defined.

(** * The effect of one iteration on the store *)

Lemma successors_ok (s : State) (l : list action) (ss : list State) :
  wf_board (board s) ->
  get_valid_actions s = Ok l ->
  Forall2 (fun act s' => apply_action act s = Ok s') l ss ->
  Forall (fun s' => wf_board (board s') /\ empties s = S (empties s')) ss /\
  distinct_boards ss.
Proof.
  intros Hwf Hl Hall. split.
  - assert (Hgen : forall acts ss0,
               (forall act, In act acts -> In act l) ->
               Forall2 (fun act s' => apply_action act s = Ok s') acts ss0 ->
               Forall (fun s' => wf_board (board s') /\ empties s = S (empties s')) ss0).
    { intros acts ss0 Hsub H2.
      induction H2 as [|act s' acts ss0 Happ H2 IH]; constructor.
      - destruct (apply_action_valid _ _ _ Hwf Hl (Hsub act (or_introl eq_refl)))
          as (s2 & Hs2 & Hwf2 & _ & Hdec).
        assert (s2 = s') by congruence. subst. auto.
      - apply IH. intros act' Hin. apply Hsub. right; exact Hin. }
    apply (Hgen l ss); auto.
  - intros i j si sj Hi Hj Hij.
    destruct (Forall2_lookup_r _ _ _ _ _ Hall Hi) as (acti & Hacti & Happi).
    destruct (Forall2_lookup_r _ _ _ _ _ Hall Hj) as (actj & Hactj & Happj).
    assert (Hnd : List.NoDup l).
    { unfold get_valid_actions in Hl. eapply scan_cells_nodup; [apply cells3x3_nodup | exact Hl]. }
    assert (Hini : In acti l).
    { apply list_elem_of_In. eapply list_elem_of_lookup_2. exact Hacti. }
    assert (Hinj : In actj l).
    { apply list_elem_of_In. eapply list_elem_of_lookup_2. exact Hactj. }
    apply (apply_action_distinct s l acti actj si sj Hwf Hl Hini Hinj); try assumption.
    intros ->. apply Hij. eapply NoDup_lookup; [|exact Hacti | exact Hactj].
    apply NoDup_ListNoDup. exact Hnd.
Qed.

Lemma tree_ok_iff (L L' : addr -> Prop) (h : list Node) :
  (forall a, L a <-> L' a) -> tree_ok L h -> tree_ok L' h.
Proof.
  intros Hiff Hok. split.
  - intros a Ha. apply (ok_alloc _ _ Hok). apply Hiff; exact Ha.
  - intros a n Ha. apply (ok_board _ _ Hok). apply Hiff; exact Ha.
  - intros a n Ha. apply (ok_sims _ _ Hok). apply Hiff; exact Ha.
  - intros a n p Ha Hn Hp.
    destruct (ok_parent _ _ Hok a n p (proj2 (Hiff a) Ha) Hn Hp) as (HLp & Hrest).
    split; [apply Hiff; exact HLp | exact Hrest].
  - intros a n cs c Ha Hn Hcs Hc.
    destruct (ok_children _ _ Hok a n cs c (proj2 (Hiff a) Ha) Hn Hcs Hc) as (HLc & Hrest).
    split; [apply Hiff; exact HLc | exact Hrest].
  - intros a n cs i j ci cj ni nj Ha. apply (ok_distinct _ _ Hok). apply Hiff; exact Ha.
Qed.

Lemma bumped_length (h h' : list Node) (l : list addr) (r : Q) :
  (forall b, In b l -> h' !! b = bump r <$> h !! b) ->
  (forall b, ~ In b l -> h' !! b = h !! b) ->
  length h' = length h.
Proof.
  intros Hin Hout.
  assert (Hsome : forall b, is_Some (h' !! b) <-> is_Some (h !! b)).
  { intros b. destruct (in_dec Nat.eq_dec b l) as [Hb|Hb].
    - rewrite (Hin b Hb). destruct (h !! b); cbn; split; intros [x Hx]; try discriminate; eauto.
    - rewrite (Hout b Hb). tauto. }
  destruct (Nat.lt_trichotomy (length h') (length h)) as [Hlt|[Heq|Hgt]]; [|exact Heq|].
  - exfalso. pose proof (proj2 (Hsome (length h')) (lookup_lt_is_Some_2 _ _ Hlt)) as Hs.
    apply lookup_lt_is_Some_1 in Hs. lia.
  - exfalso. pose proof (proj1 (Hsome (length h)) (lookup_lt_is_Some_2 _ _ Hgt)) as Hs.
    apply lookup_lt_is_Some_1 in Hs. lia.
Qed.

Lemma expanded_length (h : list Node) (a : addr) (n : Node) (ss : list State) :
  length (expanded h a n ss) = (length h + length ss)%nat.
Proof. unfold expanded. rewrite length_insert, length_app, length_map. reflexivity. Qed.

Lemma store_steps_trans root_node h1 h2 h3 :
  store_steps root_node h1 h2 -> store_steps root_node h2 h3 -> store_steps root_node h1 h3.
Proof.
  induction 1 as [|h1 h2 h4 Hs Hss IH]; intros H23; [exact H23|].
  econstructor 2; [exact Hs | apply IH; exact H23].
Qed.

Lemma store_steps_one root_node h1 h2 :
  store_step root_node h1 h2 -> store_steps root_node h1 h2.
Proof. intros Hs. econstructor 2; [exact Hs | constructor]. Qed.

Lemma rollout_result_cases (winner : option Turn.t) (t : Turn.t) :
  rollout_result winner t = 0%Q \/ rollout_result winner t = (1 # 2)%Q \/
  rollout_result winner t = 1%Q.
Proof.
  unfold rollout_result. destruct winner as [t'|]; [|auto].
  destruct (Turn.eqb t' t); auto.
Qed.

Section StepEffect.
Context `{PyFloat} `{!PyFloatDomain}.

(** The descent ends on a node without children, or on a child that was
    never simulated. *)
Lemma descend_run_leaf L fuel : forall a n w,
  tree_ok L (heap w) ->
  L a ->
  heap w !! a = Some n ->
  (empties (state n) < fuel)%nat ->
  exists c nc,
    descend fuel a w = (w, Ok c) /\
    L c /\
    heap w !! c = Some nc /\
    anc (heap w) a c /\
    (truthy (children nc) = false \/
     (simulations nc = 0 /\ exists p, parent nc = Some p)).
Proof.
  induction fuel as [|fuel IH]; intros a n w Hok HLa Hn Hfuel; [lia|].
  cbn [descend]. run_with Hn.
  destruct (children n) as [[|c0 cs]|] eqn:Hcs;
    try (exists a, n; rewrite Hcs; split; [reflexivity|]; split; [exact HLa|];
         split; [exact Hn|]; split; [constructor | left; reflexivity]).
  assert (Hkids : forall c, In c (c0 :: cs) ->
            L c /\ exists child, heap w !! c = Some child /\ parent child = Some a).
  { intros c Hc. exact (ok_children _ _ Hok _ _ _ _ HLa Hn Hcs Hc). }
  destruct (all_simulated_run (c0 :: cs) w) as (b & Hall & Hb).
  { intros c Hc. destruct (Hkids c Hc) as (_ & child & Hchild & _). eauto. }
  run_with Hall. destruct b.
  - specialize (Hb eq_refl).
    assert (Hvisited : forall c, In c (c0 :: cs) ->
              exists child, heap w !! c = Some child /\ 1 <= simulations child).
    { intros c Hc. destruct (Hkids c Hc) as (_ & child & Hchild & _).
      exists child. split; [exact Hchild|]. pose proof (Hb c child Hc Hchild). lia. }
    assert (Hsn : 1 <= simulations n).
    { destruct (Hkids c0 (or_introl eq_refl)) as (HLc & child & Hchild & Hpar).
      destruct (ok_parent _ _ Hok _ _ _ HLc Hchild Hpar) as (_ & np & Hnp & _ & Himp).
      assert (np = n) by congruence. subst.
      pose proof (Hb c0 child (or_introl eq_refl) Hchild). lia. }
    destruct (select_child_run w a n c0 cs Hn Hcs) as (g & Hsel & _).
    { intros c Hc. destruct (Hvisited c Hc) as (child & Hchild & Hsc). eauto 6. }
    run_with Hsel.
    assert (Hnext : In (fold_max g c0 cs) (c0 :: cs)).
    { destruct (fold_max_in g cs c0) as [->|Hin]; [left; reflexivity | right; exact Hin]. }
    destruct (Hkids _ Hnext) as (HLnext & child & Hchild & Hpar).
    destruct (ok_parent _ _ Hok _ _ _ HLnext Hchild Hpar) as (_ & np & Hnp & Hlt & _).
    assert (np = n) by congruence. subst.
    destruct (IH _ child w Hok HLnext Hchild ltac:(lia))
      as (c & nc & Hrun & HLc & Hc & Hanc & Hleaf).
    exists c, nc. split; [exact Hrun|]. split; [exact HLc|]. split; [exact Hc|].
    split; [|exact Hleaf].
    eapply anc_trans; [exact Hanc|]. econstructor 2; [exact Hchild | exact Hpar | constructor].
  - destruct (first_unsimulated_run (c0 :: cs) w) as (c & child & Hrun & Hin & Hchild & Hz).
    { intros c Hc. destruct (Hkids c Hc) as (HLc & child & Hchild & _).
      exists child. split; [exact Hchild|]. exact (ok_sims _ _ Hok _ _ HLc Hchild). }
    { exact Hall. }
    destruct (Hkids c Hin) as (HLc & child' & Hchild' & Hpar).
    assert (child' = child) by congruence. subst child'.
    exists c, child. split; [exact Hrun|]. split; [exact HLc|]. split; [exact Hchild|].
    split; [|right; split; [exact Hz | eauto]].
    econstructor 2; [exact Hchild | exact Hpar | constructor].
Qed.

End StepEffect.

(** ** How far the counts grow *)

Lemma sims_grow_refl h : sims_grow 0 h h.
Proof. intros b nb Hb. right. exists nb. split; [exact Hb | lia]. Qed.

Lemma sims_grow_trans j k h1 h2 h3 :
  0 <= j -> 0 <= k ->
  sims_grow j h1 h2 -> sims_grow k h2 h3 -> sims_grow (j + k) h1 h3.
Proof.
  intros Hj Hk H12 H23 b n3 H3.
  destruct (H23 b n3 H3) as [Hle|(n2 & H2 & Hle)]; [left; lia|].
  destruct (H12 b n2 H2) as [Hle2|(n1 & H1 & Hle1)]; [left; lia|].
  right. exists n1. split; [exact H1 | lia].
Qed.

Lemma sims_grow_expanded h a n ss :
  h !! a = Some n -> sims_grow 0 h (expanded h a n ss).
Proof.
  intros Hn b nb' Hb'.
  destruct (expanded_inv _ _ _ _ _ _ Hn Hb') as [[-> ->]|[[Hne Hb]|[_ (s' & Hs' & ->)]]].
  - right. exists n. split; [exact Hn | cbn; lia].
  - right. exists nb'. split; [exact Hb | lia].
  - left. cbn. lia.
Qed.

Lemma sims_grow_bumped (h h' : list Node) (l : list addr) (r : Q) :
  (forall b, In b l -> h' !! b = bump r <$> h !! b) ->
  (forall b, ~ In b l -> h' !! b = h !! b) ->
  sims_grow 1 h h'.
Proof.
  intros Hin Hout b nb' Hb'. right.
  destruct (in_dec Nat.eq_dec b l) as [Hbl|Hbl].
  - rewrite (Hin b Hbl) in Hb'. destruct (h !! b) as [nb|]; [|discriminate].
    exists nb. split; [reflexivity|]. cbn in Hb'. inversion Hb'; subst. cbn. lia.
  - rewrite (Hout b Hbl) in Hb'. exists nb'. split; [exact Hb' | lia].
Qed.

Section IterationEffect.
Context `{PyFloat} `{!PyFloatDomain}.

(** One iteration of [mcts] on a well-formed tree whose root has no parent:
    the iteration runs to its end, the tree with the nodes it allocated is
    well formed, the store has changed by expansions and one rollout, and no
    count has grown by more than one. *)
Lemma mcts_step_effect L fuel root_node r w :
  tree_ok L (heap w) ->
  L root_node ->
  heap w !! root_node = Some r ->
  parent r = None ->
  (10 <= fuel)%nat ->
  exists w',
    mcts_step fuel root_node w = (w', Ok tt) /\
    tree_ok (fun a => L a \/ (length (heap w) <= a < length (heap w'))%nat) (heap w') /\
    (length (heap w) <= length (heap w'))%nat /\
    store_steps root_node (heap w) (heap w') /\
    sims_grow 1 (heap w) (heap w').
Proof.
  intros Hok HLr Hr Hpar Hfuel. unfold mcts_step. run_with Hr.
  (* the root is expanded when it has no children *)
  assert (Hfirst : exists w1 r1,
            (if negb (truthy (children r)) then expand root_node else ret root_node) w
            = (w1, Ok root_node) /\
            tree_ok (fun a => L a \/ (length (heap w) <= a < length (heap w1))%nat) (heap w1) /\
            heap w1 !! root_node = Some r1 /\
            parent r1 = None /\ children r1 <> None /\
            (length (heap w) <= length (heap w1))%nat /\
            store_steps root_node (heap w) (heap w1) /\
            sims_grow 0 (heap w) (heap w1)).
  { destruct (truthy (children r)) eqn:Htr; cbn [negb].
    - exists w, r. split; [reflexivity|].
      split; [eapply tree_ok_iff; [|exact Hok]; intros a; split; [auto | intros [?|?]; [auto|lia]]|].
      split; [exact Hr|]. split; [exact Hpar|].
      split; [intros Hnone; rewrite Hnone in Htr; discriminate|].
      split; [lia|]. split; [constructor | apply sims_grow_refl].
    - pose proof (ok_board _ _ Hok _ _ HLr Hr) as Hwf.
      destruct (get_valid_actions_wf _ Hwf) as [l Hl].
      destruct (expand_run_moves root_node r w l Hr Hl) as (ss & Hrun & Hall).
      destruct (successors_ok _ _ _ Hwf Hl Hall) as [Hss Hdist].
      eexists _, _. split; [exact Hrun|]. cbn [heap].
      split.
      { eapply tree_ok_iff; [|apply (expanded_tree_ok L); eassumption].
        intros a. cbn beta. rewrite in_seq, expanded_length. tauto. }
      split; [apply expanded_self; exact Hr|]. cbn [parent set_children children].
      split; [exact Hpar|]. split; [discriminate|].
      split; [rewrite expanded_length; lia|].
      split; [|apply sims_grow_expanded; exact Hr].
      apply store_steps_one. eapply step_expand; eauto. }
  destruct Hfirst as (w1 & r1 & Hrun1 & Hok1 & Hr1 & Hp1 & Hc1 & Hlen1 & Hsteps1 & Hgrow1).
  run_with Hrun1.
  set (L1 := fun a => L a \/ (length (heap w) <= a < length (heap w1))%nat) in *.
  assert (HL1r : L1 root_node) by (left; exact HLr).
  pose proof (empties_le_9 (state r1)) as H9.
  destruct (descend_run_leaf L1 fuel root_node r1 w1 Hok1 HL1r Hr1 ltac:(lia))
    as (c & nc & Hdesc & HLc & Hc & Hanc & Hleaf).
  run_with Hdesc. run_with Hc.
  (* the node reached is expanded when it has been simulated before *)
  assert (Hsecond : exists w3 c' nc',
            (if simulations nc >? 0
             then expand c;;;
                  (let! curr' := load c in
                   match children curr' with
                   | Some (c1 :: cs1) => choice (c1 :: cs1)
                   | _ => ret c
                   end)
             else ret c) w1 = (w3, Ok c') /\
            tree_ok (fun a => L1 a \/ (length (heap w1) <= a < length (heap w3))%nat) (heap w3) /\
            (L1 c' \/ (length (heap w1) <= c' < length (heap w3))%nat) /\
            heap w3 !! c' = Some nc' /\
            (truthy (children nc') = false \/ (simulations nc' = 0 /\ c' <> root_node)) /\
            (children nc' = None -> simulations nc' = 0 /\ c' <> root_node) /\
            (length (heap w1) <= length (heap w3))%nat /\
            store_steps root_node (heap w1) (heap w3) /\
            sims_grow 0 (heap w1) (heap w3)).
  { destruct (Z.gtb_spec (simulations nc) 0) as [Hpos|Hnpos].
    - assert (Hfalsy : truthy (children nc) = false) by (destruct Hleaf as [?|[? _]]; [assumption | lia]).
      pose proof (ok_board _ _ Hok1 _ _ HLc Hc) as Hwf.
      destruct (get_valid_actions_wf _ Hwf) as [l Hl].
      destruct (expand_run_moves c nc w1 l Hc Hl) as (ss & Hrun & Hall).
      destruct (successors_ok _ _ _ Hwf Hl Hall) as [Hss Hdist].
      set (h2 := expanded (heap w1) c nc ss) in *.
      assert (Hok2 : tree_ok (fun a => L1 a \/ (length (heap w1) <= a < length h2)%nat) h2).
      { eapply tree_ok_iff; [|apply (expanded_tree_ok L1); eassumption].
        intros a. cbn beta. unfold h2. rewrite in_seq, expanded_length. tauto. }
      assert (Hc2 : h2 !! c = Some (set_children nc (Some (seq (length (heap w1)) (length ss)))))
        by (apply expanded_self; exact Hc).
      assert (Hstep : store_steps root_node (heap w1) h2).
      { apply store_steps_one. eapply step_expand; eauto. }
      assert (Hlen2 : length h2 = (length (heap w1) + length ss)%nat) by apply expanded_length.
      run_with Hrun.
      erewrite bind_run by (apply load_run; cbn [heap]; exact Hc2). cbv beta iota.
      cbn [children set_children].
      destruct (seq (length (heap w1)) (length ss)) as [|c1 cs1] eqn:Hseq.
      + eexists _, c, _. split; [reflexivity|]. cbn [heap].
        split; [exact Hok2|]. split; [left; exact HLc|]. split; [exact Hc2|].
        cbn [children set_children].
        split; [left; reflexivity|]. split; [discriminate|].
        split; [lia|]. split; [exact Hstep | apply sims_grow_expanded; exact Hc].
      + destruct (choice_run (c1 :: cs1)
                    {| heap := h2; rng := rng w1;
                       expand_log := expand_log w1 ++ [(c, children nc)] |})
          as (c' & Hin & Hch); [discriminate|].
        rewrite <- Hseq in Hin.
        destruct (expanded_child _ c nc ss c' Hc Hin) as (s' & _ & Hc').
        apply in_seq in Hin.
        pose proof (lookup_lt_Some _ _ _ Hr1) as Hrlt.
        eexists _, c', _. split; [exact Hch|]. cbn [heap].
        split; [exact Hok2|]. split; [right; lia|].
        split; [exact Hc'|]. cbn [children new_child simulations].
        split; [left; reflexivity|].
        split; [intros _; split; [reflexivity | lia]|].
        split; [lia|]. split; [exact Hstep | apply sims_grow_expanded; exact Hc].
    - exists w1, c, nc. split; [reflexivity|].
      split; [eapply tree_ok_iff; [|exact Hok1]; intros a; split; [auto | intros [?|?]; [auto|lia]]|].
      split; [left; exact HLc|]. split; [exact Hc|].
      assert (Hne : (exists p, parent nc = Some p) -> c <> root_node).
      { intros [p Hp] ->. assert (nc = r1) by congruence. subst. congruence. }
      split; [destruct Hleaf as [?|[? ?]]; [left; assumption | right; auto]|].
      split.
      { intros Hnone. pose proof (ok_sims _ _ Hok1 _ _ HLc Hc). split; [lia|].
        intros ->. assert (nc = r1) by congruence. subst. contradiction. }
      split; [lia|]. split; [constructor | apply sims_grow_refl]. }
  destruct Hsecond
    as (w3 & c' & nc' & Hrun3 & Hok3 & HLc' & Hc' & Hhead & Hnone & Hlen3 & Hsteps3 & Hgrow3).
  run_with Hrun3.
  pose proof (empties_le_9 (state nc')) as H9'.
  destruct (chain_exists _ _ Hok3 _ c' nc' HLc' Hc' (Nat.le_refl _)) as (l & Hl & Hlen & _).
  destruct (random_rollout_run fuel c' nc' l w3 Hc' (ok_board _ _ Hok3 _ _ HLc' Hc') Hl
              ltac:(lia) ltac:(lia))
    as (winner & w2 & w' & _ & Hroll & _ & Hin & Hout).
  pose proof (bumped_length _ _ _ _ Hin Hout) as Hlen'.
  exists w'. split; [exact Hroll|].
  split.
  { eapply tree_ok_iff; [|eapply bumped_tree_ok; [exact Hok3 | exact Hl | exact Hin | exact Hout]].
    intros a. unfold L1. cbn beta. rewrite Hlen'. split.
    - intros [[?|?]|?]; [left; assumption | right; lia | right; lia].
    - intros [?|?]; [left; left; assumption|].
      destruct (Nat.lt_ge_cases a (length (heap w1))); [left; right; lia | right; lia]. }
  split; [lia|].
  split.
  { eapply store_steps_trans; [exact Hsteps1|].
    eapply store_steps_trans; [exact Hsteps3|].
    apply store_steps_one.
    apply (step_rollout root_node (heap w3) c' nc' l
             (rollout_result winner (turn (state nc')))); auto.
    apply rollout_result_cases. }
  apply (sims_grow_trans 0 1 _ (heap w1)); [lia | lia | exact Hgrow1|].
  apply (sims_grow_trans 0 1 _ (heap w3)); [lia | lia | exact Hgrow3|].
  eapply sims_grow_bumped; eassumption.
Qed.

End IterationEffect.

(** * What the changes keep *)

Lemma rollout_value_bounds (r : Q) :
  r = 0%Q \/ r = (1 # 2)%Q \/ r = 1%Q -> (0 <= r)%Q /\ (r <= 1)%Q.
Proof. intros [-> | [-> | ->]]; split; discriminate. Qed.

Lemma bumped_inv (h h' : list Node) (l : list addr) (r : Q) :
  (forall b, In b l -> h' !! b = bump r <$> h !! b) ->
  (forall b, ~ In b l -> h' !! b = h !! b) ->
  forall b nb', h' !! b = Some nb' ->
    exists nb, h !! b = Some nb /\
               ((~ In b l /\ nb' = nb) \/ (In b l /\ nb' = bump r nb)).
Proof.
  intros Hin Hout b nb' Hb. destruct (in_dec Nat.eq_dec b l) as [Hbl|Hbl].
  - rewrite (Hin b Hbl) in Hb. destruct (h !! b) as [nb|]; [|discriminate].
    exists nb. split; [reflexivity|]. right. cbn in Hb. inversion Hb; auto.
  - rewrite (Hout b Hbl) in Hb. exists nb'. auto.
Qed.

Lemma bumped_fwd (h h' : list Node) (l : list addr) (r : Q) :
  (forall b, In b l -> h' !! b = bump r <$> h !! b) ->
  (forall b, ~ In b l -> h' !! b = h !! b) ->
  forall b nb, h !! b = Some nb ->
    exists nb', h' !! b = Some nb' /\
                ((~ In b l /\ nb' = nb) \/ (In b l /\ nb' = bump r nb)).
Proof.
  intros Hin Hout b nb Hb. destruct (in_dec Nat.eq_dec b l) as [Hbl|Hbl].
  - exists (bump r nb). rewrite (Hin b Hbl), Hb. auto.
  - exists nb. rewrite (Hout b Hbl). auto.
Qed.

(** A change of the search keeps every node, its state and its parent; the
    counts do not fall, and a list of children that is not empty stays. *)
Lemma store_step_frame root_node h h' :
  store_step root_node h h' ->
  forall b nb, h !! b = Some nb ->
    exists nb',
      h' !! b = Some nb' /\
      parent nb' = parent nb /\ state nb' = state nb /\
      simulations nb <= simulations nb' /\ (wins nb <= wins nb')%Q /\
      (truthy (children nb) = true -> children nb' = children nb).
Proof.
  intros [a n l ss Hn Htr _ _ _ | a n l r h2 Hn _ _ Hl Hr Hin Hout] b nb Hb.
  - destruct (expanded_keeps h a n ss b nb Hn Hb) as (nb' & Hb' & Hp & Hs & Hsim & Hw & Hsame).
    exists nb'. split; [exact Hb'|]. split; [exact Hp|]. split; [exact Hs|].
    split; [lia|]. split; [rewrite Hw; apply Qle_refl|].
    intros Htb. rewrite Hsame; [reflexivity|]. intros ->.
    assert (nb = n) by congruence. subst. congruence.
  - destruct (bumped_fwd h h2 l r Hin Hout b nb Hb) as (nb' & Hb' & [[_ ->]|[_ ->]]).
    + exists nb. split; [exact Hb'|]. split; [reflexivity|]. split; [reflexivity|].
      split; [lia|]. split; [apply Qle_refl | reflexivity].
    + exists (bump r nb). split; [exact Hb'|]. cbn.
      split; [reflexivity|]. split; [reflexivity|]. split; [lia|].
      split; [|reflexivity].
      destruct (rollout_value_bounds r Hr) as [Hr0 _].
      rewrite <- (Qplus_0_r (wins nb)) at 1. apply Qplus_le_r. exact Hr0.
Qed.

Lemma store_steps_frame root_node h h' :
  store_steps root_node h h' ->
  forall b nb, h !! b = Some nb ->
    exists nb',
      h' !! b = Some nb' /\
      parent nb' = parent nb /\ state nb' = state nb /\
      simulations nb <= simulations nb' /\ (wins nb <= wins nb')%Q /\
      (truthy (children nb) = true -> children nb' = children nb).
Proof.
  induction 1 as [h|h1 h2 h3 Hs Hss IH]; intros b nb Hb.
  - exists nb. split; [exact Hb|]. split; [reflexivity|]. split; [reflexivity|].
    split; [lia|]. split; [apply Qle_refl | reflexivity].
  - destruct (store_step_frame _ _ _ Hs b nb Hb) as (nb1 & Hb1 & Hp1 & Hs1 & Hsim1 & Hw1 & Hk1).
    destruct (IH b nb1 Hb1) as (nb' & Hb' & Hp' & Hs' & Hsim' & Hw' & Hk').
    exists nb'. split; [exact Hb'|]. split; [congruence|]. split; [congruence|].
    split; [lia|]. split; [eapply Qle_trans; eassumption|].
    intros Htb. rewrite Hk'; [apply Hk1; exact Htb|]. rewrite (Hk1 Htb). exact Htb.
Qed.

Section LoopEffect.
Context `{PyFloat} `{!PyFloatDomain}.

Lemma mcts_loop_effect fuel root_node steps : forall L r w,
  tree_ok L (heap w) ->
  L root_node ->
  heap w !! root_node = Some r ->
  parent r = None ->
  (10 <= fuel)%nat ->
  exists w',
    mcts_loop fuel root_node steps w = (w', Ok tt) /\
    tree_ok (fun a => L a \/ (length (heap w) <= a < length (heap w'))%nat) (heap w') /\
    (length (heap w) <= length (heap w'))%nat /\
    store_steps root_node (heap w) (heap w').
Proof.
  induction steps as [|steps IH]; intros L r w Hok HLr Hr Hpar Hfuel.
  - exists w. cbn [mcts_loop]. split; [reflexivity|].
    split; [eapply tree_ok_iff; [|exact Hok]; intros a; split; [auto | intros [?|?]; [auto|lia]]|].
    split; [lia | constructor].
  - destruct (mcts_step_effect L fuel root_node r w Hok HLr Hr Hpar Hfuel)
      as (w1 & Hstep & Hok1 & Hlen1 & Hsteps1 & _).
    destruct (store_steps_frame _ _ _ Hsteps1 root_node r Hr) as (r1 & Hr1 & Hp1 & _).
    destruct (IH _ r1 w1 Hok1 (or_introl HLr) Hr1 ltac:(congruence) Hfuel)
      as (w' & Hloop & Hok' & Hlen' & Hsteps').
    exists w'. cbn [mcts_loop]. run_with Hstep.
    split; [exact Hloop|].
    split.
    { eapply tree_ok_iff; [|exact Hok']. intros a. cbn beta. split.
      - intros [[?|?]|?]; [left; assumption | right; lia | right; lia].
      - intros [?|?]; [left; left; assumption|].
        destruct (Nat.lt_ge_cases a (length (heap w1))); [left; right; lia | right; lia]. }
    split; [lia|].
    eapply store_steps_trans; eassumption.
Qed.

End LoopEffect.

(** * The children of a node and the legal moves of its state *)

Lemma children_of_moves_mono (h h' : list Node) (s : State) (cs : list addr) :
  (forall c nc, h !! c = Some nc -> exists nc', h' !! c = Some nc' /\ state nc' = state nc) ->
  children_of_moves h s cs -> children_of_moves h' s cs.
Proof.
  intros Hkeep (l & Hl & Hall). exists l. split; [exact Hl|].
  eapply Forall2_impl; [exact Hall|].
  intros c act (nc & Hc & Happ). destruct (Hkeep c nc Hc) as (nc' & Hc' & Hst).
  exists nc'. split; [exact Hc' | congruence].
Qed.

Lemma expanded_children_of_moves (h : list Node) (a : addr) (n : Node)
    (l : list action) (ss : list State) :
  h !! a = Some n ->
  get_valid_actions (state n) = Ok l ->
  Forall2 (fun act s' => apply_action act (state n) = Ok s') l ss ->
  children_of_moves (expanded h a n ss) (state n) (seq (length h) (length ss)).
Proof.
  intros Hn Hl Hall. exists l. split; [exact Hl|].
  pose proof (Forall2_length _ _ _ Hall) as Hlen.
  pose proof (lookup_lt_Some _ _ _ Hn) as Hlt.
  apply Forall2_same_length_lookup_2; [rewrite length_seq; lia|].
  intros i c act Hc Hact.
  apply lookup_seq in Hc as [-> Hi].
  destruct (Forall2_lookup_l _ _ _ _ _ Hall Hact) as (s' & Hs' & Happ).
  exists (new_child a s'). split; [|exact Happ].
  unfold expanded. rewrite list_lookup_insert_ne by lia.
  rewrite lookup_app_r by lia. rewrite lookup_map.
  replace (length h + i - length h)%nat with i by lia.
  rewrite Hs'. reflexivity.
Qed.

Lemma expanded_moves_ok (h : list Node) (a : addr) (n : Node)
    (l : list action) (ss : list State) :
  moves_ok h ->
  h !! a = Some n ->
  get_valid_actions (state n) = Ok l ->
  Forall2 (fun act s' => apply_action act (state n) = Ok s') l ss ->
  moves_ok (expanded h a n ss).
Proof.
  intros Hmv Hn Hl Hall b nb cs Hb Hcs.
  destruct (expanded_inv _ _ _ _ _ _ Hn Hb) as [[-> ->]|[[Hne Hb']|[_ (s' & Hs' & ->)]]].
  - cbn in Hcs. inversion Hcs; subst cs. cbn [state set_children].
    eapply expanded_children_of_moves; eassumption.
  - eapply children_of_moves_mono; [|exact (Hmv b nb cs Hb' Hcs)].
    intros c nc Hc. destruct (expanded_keeps h a n ss c nc Hn Hc) as (nc' & Hc' & _ & Hst & _).
    eauto.
  - discriminate.
Qed.

Lemma store_step_moves_ok root_node h h' :
  store_step root_node h h' -> moves_ok h -> moves_ok h'.
Proof.
  intros Hstep Hmv.
  pose proof (store_step_frame _ _ _ Hstep) as Hframe.
  destruct Hstep as [a n l ss Hn _ _ Hl Hall | a n l r h2 Hn _ _ Hch Hr Hin Hout].
  - eapply expanded_moves_ok; eassumption.
  - intros b nb' cs Hb' Hcs.
    destruct (bumped_inv h h2 l r Hin Hout b nb' Hb') as (nb & Hb & Hcase).
    assert (Hsame : state nb' = state nb /\ children nb' = children nb).
    { destruct Hcase as [[_ ->]|[_ ->]]; split; reflexivity. }
    destruct Hsame as [Hst Hk]. rewrite Hst.
    eapply children_of_moves_mono; [|apply (Hmv b nb cs Hb); congruence].
    intros c nc Hc. destruct (Hframe c nc Hc) as (nc' & Hc' & _ & Hst' & _). eauto.
Qed.


Lemma fresh_moves_ok (s : State) : moves_ok [fresh_root s].
Proof.
  intros [|a] n cs Hn Hcs; cbn in Hn; [|discriminate].
  inversion Hn; subst. discriminate.
Qed.

Lemma infer_action_move (s s' : State) (l : list action) (a : action) :
  wf_board (board s) ->
  get_valid_actions s = Ok l ->
  In a l ->
  apply_action a s = Ok s' ->
  infer_action (board s) (board s') = Ok (Some a).
Proof.
  intros Hwf Hl Hin Happ.
  unfold get_valid_actions in Hl.
  pose proof (proj1 (scan_cells_in _ _ _ a Hl) Hin) as [Hina Hc].
  assert (Hall : forall p, In p cells3x3 -> exists v, cell (board s) p = Ok v).
  { intros p Hp.
    destruct (cell (board s) p) as [v|e] eqn:Hv; [eauto|].
    exfalso.
    assert (Hr : exists e0, scan_cells (board s) cells3x3 = Raise e0).
    { apply scan_cells_raise. exists p. split; [exact Hp|].
      rewrite Hv. f_equal. eapply cell_raise. exact Hv. }
    destruct Hr as [e0 He0]. congruence. }
  destruct s as [b t]. cbn [board turn] in *.
  destruct (apply_action_cells b t a Hwf Hina) as (b' & Hb' & _ & Hv' & Hsame).
  assert (s' = {| board := b'; turn := Turn.other t |}) by congruence. subst s'.
  cbn [board]. unfold infer_action.
  eapply differing_cell_first; eauto using cells3x3_nodup.
  intros Heq. symmetry in Heq. exact (turn_value_nonzero t Heq).
Qed.

Lemma best_action_run (w : World) (a : addr) (node : Node) (c : addr) (cs : list addr) :
  heap w !! a = Some node ->
  children node = Some (c :: cs) ->
  (forall c', In c' (c :: cs) -> exists n, heap w !! c' = Some n) ->
  exists i best,
    best_action a w = (w, Ok best) /\
    most_visited (sims_at (heap w)) (c :: cs) i best.
Proof.
  intros Hnode Hcs Hall. unfold best_action. run_with Hnode. rewrite Hcs.
  destruct (Hall c (or_introl eq_refl)) as [n Hn]. run_with Hn.
  rewrite <- (sims_at_lookup _ _ _ Hn).
  apply (max_sims_run w cs [c] 0%nat c).
  - intros c' Hc'. apply Hall. right; exact Hc'.
  - split; [reflexivity|]. split.
    + intros [|j] cj Hj; cbn in Hj; [|discriminate]. inversion Hj; subst. lia.
    + intros j cj Hlt. lia.
Qed.

(** The move of the machine on a root whose children, if it has any, stand
    for the legal moves. *)
Lemma ai_move_run (w : World) (tree : SearchTree) (r : Node) (l : list action) :
  heap w !! root tree = Some r ->
  moves_ok (heap w) ->
  wf_board (board (state r)) ->
  get_valid_actions (state r) = Ok l ->
  l <> [] ->
  exists w' r' cs i c nc a,
    ai_move tree w = (w', Ok (Some a)) /\
    heap w' !! root tree = Some r' /\ state r' = state r /\
    children r' = Some cs /\
    most_visited (sims_at (heap w')) cs i c /\
    heap w' !! c = Some nc /\
    l !! i = Some a /\
    apply_action a (state r) = Ok (state nc) /\
    moves_ok (heap w') /\
    (truthy (children r) = true -> w' = w).
Proof.
  intros Hr Hmv Hwf Hl Hne. unfold ai_move. run_with Hr.
  assert (Hfirst : exists w1 r1 cs,
            (if negb (truthy (children r)) then expand (root tree) else ret (root tree)) w
            = (w1, Ok (root tree)) /\
            heap w1 !! root tree = Some r1 /\ state r1 = state r /\
            children r1 = Some cs /\ moves_ok (heap w1) /\
            (truthy (children r) = true -> w1 = w)).
  { destruct (truthy (children r)) eqn:Htr; cbn [negb].
    - destruct (children r) as [cs|] eqn:Hcs; [|discriminate].
      exists w, r, cs. auto 10.
    - destruct (expand_run_moves (root tree) r w l Hr Hl) as (ss & Hrun & Hall).
      eexists _, _, _. split; [exact Hrun|]. cbn [heap].
      split; [apply expanded_self; exact Hr|]. cbn [state set_children children].
      split; [reflexivity|]. split; [reflexivity|].
      split; [eapply expanded_moves_ok; eassumption | discriminate]. }
  destruct Hfirst as (w1 & r1 & cs & Hrun1 & Hr1 & Hst1 & Hcs1 & Hmv1 & Hsame).
  run_with Hrun1.
  destruct (Hmv1 _ _ _ Hr1 Hcs1) as (l1 & Hl1 & Hall1).
  rewrite Hst1, Hl in Hl1. inversion Hl1; subst l1; clear Hl1.
  assert (Hkids : forall c', In c' cs -> exists n, heap w1 !! c' = Some n).
  { intros c' Hc'. apply list_elem_of_In, list_elem_of_lookup_1 in Hc' as [j Hj].
    destruct (Forall2_lookup_l _ _ _ _ _ Hall1 Hj) as (act & _ & nc & Hnc & _). eauto. }
  destruct cs as [|c0 cs].
  { inversion Hall1; subst. contradiction. }
  destruct (best_action_run w1 (root tree) r1 c0 cs Hr1 Hcs1 Hkids) as (i & c & Hbest & Hmost).
  run_with Hbest. run_with Hr1.
  destruct Hmost as (Hi & Hmax & Hbefore).
  destruct (Forall2_lookup_l _ _ _ _ _ Hall1 Hi) as (act & Hact & nc & Hnc & Happ).
  run_with Hnc.
  exists w1, r1, (c0 :: cs), i, c, nc, act.
  split.
  { rewrite lift_run. f_equal. rewrite Hst1 in Happ |- *.
    eapply infer_action_move; eauto.
    apply list_elem_of_In. eapply list_elem_of_lookup_2. exact Hact. }
  split; [exact Hr1|]. split; [exact Hst1|]. split; [exact Hcs1|].
  split; [split; [exact Hi | split; assumption]|].
  split; [exact Hnc|]. split; [exact Hact|].
  split; [rewrite <- Hst1; exact Happ|]. split; [exact Hmv1 | exact Hsame].
Qed.

Lemma store_step_rates_ok root_node h h' :
  store_step root_node h h' -> rates_ok h -> rates_ok h'.
Proof.
  intros [a n l ss Hn _ _ _ _ | a n l r h2 Hn _ _ Hch Hr Hin Hout] Hrt b nb' Hb'.
  - destruct (expanded_inv _ _ _ _ _ _ Hn Hb') as [[-> ->]|[[Hne Hb]|[_ (s' & Hs' & ->)]]].
    + exact (Hrt a n Hn).
    + exact (Hrt b nb' Hb).
    + cbn. split; discriminate.
  - destruct (bumped_inv h h2 l r Hin Hout b nb' Hb') as (nb & Hb & [[_ ->]|[_ ->]]).
    + exact (Hrt b nb Hb).
    + destruct (Hrt b nb Hb) as [H0 H1].
      destruct (rollout_value_bounds r Hr) as [Hr0 Hr1]. cbn. split.
      * rewrite <- (Qplus_0_r 0). apply Qplus_le_compat; assumption.
      * rewrite inject_Z_plus. apply Qplus_le_compat; assumption.
Qed.

Lemma store_steps_rates_ok root_node h h' :
  store_steps root_node h h' -> rates_ok h -> rates_ok h'.
Proof.
  induction 1 as [h|h1 h2 h3 Hs Hss IH]; intros Hrt; [exact Hrt|].
  apply IH. eapply store_step_rates_ok; eassumption.
Qed.

Lemma fresh_rates_ok (s : State) : rates_ok [fresh_root s].
Proof.
  intros [|a] n Hn; cbn in Hn; [|discriminate].
  inversion Hn; subst. cbn. split; discriminate.
Qed.

Section SearchKeeps.
Context `{PyFloat} `{!PyFloatDomain}.

Lemma mcts_effect (L : addr -> Prop) (fuel : nat) (tree : SearchTree) (max_steps : Z)
    (r : Node) (w : World) :
  tree_ok L (heap w) ->
  L (root tree) ->
  heap w !! root tree = Some r ->
  parent r = None ->
  (10 <= fuel)%nat ->
  exists w',
    mcts fuel tree max_steps w = (w', Ok tt) /\
    tree_ok (fun a => L a \/ (length (heap w) <= a < length (heap w'))%nat) (heap w') /\
    store_steps (root tree) (heap w) (heap w').
Proof.
  intros Hok HLr Hr Hpar Hfuel. unfold mcts.
  destruct (mcts_loop_effect fuel (root tree) (Z.to_nat max_steps) L r w Hok HLr Hr Hpar Hfuel)
    as (w' & Hrun & Hok' & _ & Hsteps).
  eauto.
Qed.




End SearchKeeps.




(** X17.  The machine plays a legal move.  On a root with a 3x3 board and at
    least one legal move, in a store in which children stand for legal
    moves, the move that [play_game] works out for the machine is a legal
    move of the root's state: the one that leads to the child that
    [best_action] picks, the first child with the most simulations.  A root
    without children is expanded first; a root with children leaves the
    store as it was. *)
Theorem ai_move_legal (w : World) (tree : SearchTree) (r : Node) (l : list action) :
  heap w !! root tree = Some r ->
  moves_ok (heap w) ->
  wf_board (board (state r)) ->
  get_valid_actions (state r) = Ok l ->
  l <> [] ->
  exists w' a,
    ai_move tree w = (w', Ok (Some a)) /\
    In a l /\
    (truthy (children r) = true -> w' = w) /\
    exists r' cs i c nc,
      heap w' !! root tree = Some r' /\
      children r' = Some cs /\
      most_visited (sims_at (heap w')) cs i c /\
      heap w' !! c = Some nc /\
      l !! i = Some a /\
      apply_action a (state r) = Ok (state nc).
Proof.
  intros Hr Hmv Hwf Hl Hne.
  destruct (ai_move_run w tree r l Hr Hmv Hwf Hl Hne)
    as (w' & r' & cs & i & c & nc & a & Hrun & Hr' & _ & Hcs & Hmost & Hnc & Ha & Happ & _ & Hsame).
  exists w', a. split; [exact Hrun|].
  split; [apply list_elem_of_In; eapply list_elem_of_lookup_2; exact Ha|].
  split; [exact Hsame|].
  exists r', cs, i, c, nc. auto 10.
Qed.

Lemma ai_move_legal_witness :
  exists w' a,
    ai_move {| root := 0%nat |} (fresh_world scenario (fun i => i)) = (w', Ok (Some a)) /\
    In a [(0, 2); (1, 0); (1, 2); (2, 0); (2, 1)] /\
    (truthy (children (fresh_root scenario)) = true ->
     w' = fresh_world scenario (fun i => i)) /\
    exists r' cs i c nc,
      heap w' !! 0%nat = Some r' /\
      children r' = Some cs /\
      most_visited (sims_at (heap w')) cs i c /\
      heap w' !! c = Some nc /\
      [(0, 2); (1, 0); (1, 2); (2, 0); (2, 1)] !! i = Some a /\
      apply_action a scenario = Ok (state nc).
Proof.
  apply (ai_move_legal (fresh_world scenario (fun i => i)) {| root := 0%nat |}
           (fresh_root scenario) [(0, 2); (1, 0); (1, 2); (2, 0); (2, 1)]).
  - reflexivity.
  - apply fresh_moves_ok.
  - apply wf_board_grid.
  - reflexivity.
  - discriminate.
Defined.

(** * More on the winner check and on selection *)

Lemma lines3x3_cells (line : list action) (p : action) :
  In line lines3x3 -> In p line -> In p cells3x3.
Proof.
  intros Hline Hp. cbn in Hline.
  repeat (destruct Hline as [<-|Hline];
          [cbn in Hp; destruct Hp as [<-|[<-|[<-|[]]]]; cbn; tauto|]).
  destruct Hline.
Qed.

(** X18.  A line is reported after the reply.  The winner check looks for a
    line of the side to move; so when the side that has just moved holds a
    line, the check names it only after the other side has made one more
    legal move, whatever that move is. *)
Theorem line_reported_after_reply (s1 s2 : State) (l : list action) (a : action) :
  wf_board (board s1) ->
  has_line (board s1) (Turn.value (Turn.other (turn s1))) ->
  get_valid_actions s1 = Ok l ->
  In a l ->
  apply_action a s1 = Ok s2 ->
  check_win_conditions s2 = Ok (Some (Turn.other (turn s1))).
Proof.
  intros Hwf (line & Hline & Hcells) Hl Hin Happ.
  unfold get_valid_actions in Hl.
  pose proof (proj1 (scan_cells_in _ _ _ a Hl) Hin) as [Hina Hc].
  destruct s1 as [b t]. cbn [board turn] in *.
  destruct (apply_action_cells b t a Hwf Hina) as (b' & Hb' & Hwf' & _ & Hsame).
  assert (s2 = {| board := b'; turn := Turn.other t |}) by congruence. subst s2.
  apply (check_win_conditions_lines {| board := b'; turn := Turn.other t |} Hwf').
  cbn [board turn]. exists line. split; [exact Hline|].
  intros p Hp. rewrite Hsame; [apply Hcells; exact Hp | eapply lines3x3_cells; eassumption |].
  intros ->. rewrite (Hcells a Hp) in Hc. inversion Hc as [Hv].
  exact (turn_value_nonzero _ Hv).
Qed.

Lemma line_reported_after_reply_witness :
  check_win_conditions {| board := [[1; 1; 1]; [0; 2; 2]; [0; 0; 2]]; turn := Turn.x |}
  = Ok (Some Turn.x).
Proof.
  apply (line_reported_after_reply
           {| board := [[1; 1; 1]; [0; 2; 0]; [0; 0; 2]]; turn := Turn.o |}
           {| board := [[1; 1; 1]; [0; 2; 2]; [0; 0; 2]]; turn := Turn.x |}
           [(1, 0); (1, 2); (2, 0); (2, 1)] (1, 2)).
  - apply wf_board_grid.
  - exists [(0, 0); (0, 1); (0, 2)]. split; [cbn; tauto|].
    intros p [<-|[<-|[<-|[]]]]; reflexivity.
  - reflexivity.
  - cbn; tauto.
  - reflexivity.
Defined.

Section SelectionFaults.
Context `{PyFloat} `{!PyFloatDomain}.


End SelectionFaults.


(** * The counts add up *)

Lemma sum_sims_ext (h h' : list Node) (cs : list addr) :
  (forall c, In c cs -> sims_at h' c = sims_at h c) ->
  sum_sims h' cs = sum_sims h cs.
Proof.
  induction cs as [|c cs IH]; intros Hsame; [reflexivity|].
  cbn [sum_sims fold_right]. fold (sum_sims h' cs). fold (sum_sims h cs).
  rewrite (Hsame c (or_introl eq_refl)), IH; [reflexivity|].
  intros c' Hc'. apply Hsame. right; exact Hc'.
Qed.

Lemma sum_sims_nonneg (h : list Node) (cs : list addr) :
  (forall c, In c cs -> 0 <= sims_at h c) -> 0 <= sum_sims h cs.
Proof.
  induction cs as [|c cs IH]; intros Hnn; [cbn; lia|].
  cbn [sum_sims fold_right]. fold (sum_sims h cs).
  pose proof (Hnn c (or_introl eq_refl)).
  assert (0 <= sum_sims h cs) by (apply IH; intros c' Hc'; apply Hnn; right; exact Hc').
  lia.
Qed.

Lemma sum_sims_one (h h' : list Node) (cs : list addr) (c0 : addr) :
  List.NoDup cs ->
  In c0 cs ->
  sims_at h' c0 = sims_at h c0 + 1 ->
  (forall c, In c cs -> c <> c0 -> sims_at h' c = sims_at h c) ->
  sum_sims h' cs = sum_sims h cs + 1.
Proof.
  intros Hnd. induction Hnd as [|c cs Hc Hnd IH]; intros Hin H0 Hsame; [destruct Hin|].
  cbn [sum_sims fold_right]. fold (sum_sims h' cs). fold (sum_sims h cs).
  destruct (decide (c = c0)) as [->|Hne].
  - rewrite H0, (sum_sims_ext h h' cs); [lia|].
    intros c' Hc'. apply Hsame; [right; exact Hc'|]. intros ->. contradiction.
  - destruct Hin as [?|Hin]; [contradiction|].
    rewrite (Hsame c (or_introl eq_refl) Hne), IH; [lia | exact Hin | exact H0 |].
    intros c' Hc'. apply Hsame. right; exact Hc'.
Qed.

Lemma sims_at_expanded (h : list Node) (a : addr) (n : Node) (ss : list State) (c : addr) :
  h !! a = Some n -> sims_at (expanded h a n ss) c = sims_at h c.
Proof.
  intros Hn. unfold sims_at.
  destruct (expanded h a n ss !! c) as [nc'|] eqn:Hc'.
  - destruct (expanded_inv _ _ _ _ _ _ Hn Hc') as [[-> ->]|[[Hne Hc]|[Hc (s' & _ & ->)]]].
    + rewrite Hn. reflexivity.
    + rewrite Hc. reflexivity.
    + rewrite Hc. reflexivity.
  - destruct (h !! c) as [nc|] eqn:Hc; [|reflexivity].
    destruct (expanded_keeps h a n ss c nc Hn Hc) as (nc' & Hc2 & _). congruence.
Qed.

Lemma whole_ok_sims_nonneg (h : list Node) (c : addr) : whole_ok h -> 0 <= sims_at h c.
Proof.
  intros Hok. unfold sims_at. destruct (h !! c) as [nc|] eqn:Hc; [|lia].
  exact (ok_sims _ _ Hok c nc (lookup_lt_Some _ _ _ Hc) Hc).
Qed.

Lemma whole_ok_children_nodup (h : list Node) (a : addr) (n : Node) (cs : list addr) :
  whole_ok h -> h !! a = Some n -> children n = Some cs -> List.NoDup cs.
Proof.
  intros Hok Hn Hcs. apply NoDup_ListNoDup. apply NoDup_alt.
  intros i j c Hi Hj. destruct (decide (i = j)) as [?|Hne]; [assumption|]. exfalso.
  pose proof (lookup_lt_Some _ _ _ Hn) as HLa.
  assert (Hin : In c cs) by (apply list_elem_of_In; eapply list_elem_of_lookup_2; exact Hi).
  destruct (ok_children _ _ Hok a n cs c HLa Hn Hcs Hin) as (_ & nc & Hnc & _).
  exact (ok_distinct _ _ Hok a n cs i j c c nc nc HLa Hn Hcs Hi Hj Hne Hnc Hnc eq_refl).
Qed.

Lemma store_step_whole_ok root_node h h' :
  store_step root_node h h' -> whole_ok h -> whole_ok h'.
Proof.
  intros [a n l ss Hn _ _ Hl Hall | a n l r h2 Hn _ _ Hch Hr Hin Hout] Hok; unfold whole_ok in *.
  - pose proof (lookup_lt_Some _ _ _ Hn) as HLa.
    destruct (successors_ok _ _ _ (ok_board _ _ Hok _ _ HLa Hn) Hl Hall) as [Hss Hdist].
    eapply tree_ok_iff; [|apply (expanded_tree_ok _ h a n ss Hok HLa Hn Hss Hdist)].
    intros b. cbn beta. rewrite in_seq, expanded_length. lia.
  - rewrite (bumped_length _ _ _ _ Hin Hout).
    eapply bumped_tree_ok; eassumption.
Qed.

Lemma chain_nodup h a l : chain h a l -> List.NoDup l.
Proof.
  induction 1 as [a n Hn Hp | a n p l Hn Hp Hc IH].
  - constructor; [intros [] | constructor].
  - constructor; [eapply chain_fresh_head; eassumption | exact IH].
Qed.

Lemma chain_parent_not_head h a l :
  chain h a l ->
  forall c nc b, In c l -> h !! c = Some nc -> parent nc = Some b -> In b l /\ b <> a.
Proof.
  induction 1 as [a n Hn Hp | a n p l Hn Hp Hc IH]; intros c nc b Hin Hnc Hb.
  - destruct Hin as [<-|[]]. congruence.
  - pose proof (chain_fresh_head _ _ _ _ _ Hn Hp Hc) as Hfresh.
    destruct Hin as [<-|Hin].
    + assert (b = p) by congruence. subst.
      destruct (chain_head _ _ _ Hc) as [l' ->].
      split; [right; left; reflexivity|]. intros ->. apply Hfresh. left; reflexivity.
    + destruct (IH c nc b Hin Hnc Hb) as [Hbl _].
      split; [right; exact Hbl|]. intros ->. contradiction.
Qed.

Lemma chain_child_unique h a l :
  chain h a l ->
  forall c1 c2 n1 n2 b,
    In c1 l -> In c2 l -> h !! c1 = Some n1 -> h !! c2 = Some n2 ->
    parent n1 = Some b -> parent n2 = Some b -> c1 = c2.
Proof.
  induction 1 as [a n Hn Hp | a n p l Hn Hp Hc IH]; intros c1 c2 n1 n2 b H1 H2 Hn1 Hn2 Hp1 Hp2.
  - destruct H1 as [<-|[]], H2 as [<-|[]]. reflexivity.
  - destruct H1 as [<-|H1], H2 as [<-|H2].
    + reflexivity.
    + exfalso. assert (b = p) by congruence. subst.
      destruct (chain_parent_not_head _ _ _ Hc c2 n2 p H2 Hn2 Hp2) as [_ Hne]. congruence.
    + exfalso. assert (b = p) by congruence. subst.
      destruct (chain_parent_not_head _ _ _ Hc c1 n1 p H1 Hn1 Hp1) as [_ Hne]. congruence.
    + eapply IH; eassumption.
Qed.

Lemma chain_has_child h a l :
  chain h a l ->
  forall b, In b l -> b <> a ->
    exists c nc, In c l /\ h !! c = Some nc /\ parent nc = Some b.
Proof.
  induction 1 as [a n Hn Hp | a n p l Hn Hp Hc IH]; intros b Hb Hne.
  - destruct Hb as [<-|[]]. contradiction.
  - destruct Hb as [<-|Hb]; [contradiction|].
    destruct (decide (b = p)) as [->|Hbp].
    + exists a, n. split; [left; reflexivity | auto].
    + destruct (IH b Hb Hbp) as (c & nc & Hc' & Hnc & Hpc).
      exists c, nc. split; [right; exact Hc' | auto].
Qed.

Lemma expanded_counts_ok root_node h a n l ss :
  counts_ok root_node h ->
  moves_ok h ->
  h !! a = Some n ->
  truthy (children n) = false ->
  a = root_node \/ 0 < simulations n ->
  get_valid_actions (state n) = Ok l ->
  Forall2 (fun act s' => apply_action act (state n) = Ok s') l ss ->
  counts_ok root_node (expanded h a n ss).
Proof.
  intros Hcnt Hmv Hn Htr Hwhy Hl Hall.
  pose proof (lookup_lt_Some _ _ _ Hn) as Hlt.
  assert (Hnot_parent : forall np cs c, h !! a = Some np -> children np = Some cs -> In c cs -> False).
  { intros np cs c Ha Hcs Hc. assert (np = n) by congruence. subst.
    rewrite Hcs in Htr. destruct cs; [destruct Hc | discriminate]. }
  split.
  - intros b nb p Hb Hp.
    destruct (expanded_inv _ _ _ _ _ _ Hn Hb) as [[-> ->]|[[Hne Hb']|[Hnone (s' & Hs' & ->)]]].
    + cbn in Hp. destruct (cnt_listed _ _ Hcnt a n p Hn Hp) as (np & cs & Hnp & Hcs & Hin).
      exists np, cs. split; [|auto]. apply expanded_old; [exact Hnp|].
      intros ->. exact (Hnot_parent np cs a Hnp Hcs Hin).
    + destruct (cnt_listed _ _ Hcnt b nb p Hb' Hp) as (np & cs & Hnp & Hcs & Hin).
      exists np, cs. split; [|auto]. apply expanded_old; [exact Hnp|].
      intros ->. exact (Hnot_parent np cs b Hnp Hcs Hin).
    + cbn in Hp. inversion Hp; subst p.
      eexists _, _. split; [apply expanded_self; exact Hn|]. cbn [children set_children].
      split; [reflexivity|]. apply in_seq.
      apply lookup_ge_None in Hnone. pose proof (lookup_lt_Some _ _ _ Hb) as Hb2.
      rewrite expanded_length in Hb2. lia.
  - intros b nb Hb Hnone.
    destruct (expanded_inv _ _ _ _ _ _ Hn Hb) as [[-> ->]|[[Hne Hb']|[_ (s' & Hs' & ->)]]].
    + discriminate.
    + exact (cnt_unexpanded _ _ Hcnt b nb Hb' Hnone).
    + left. reflexivity.
  - intros b nb cs Hb Hcs Hne.
    rewrite (sum_sims_ext h (expanded h a n ss) cs)
      by (intros c _; apply sims_at_expanded; exact Hn).
    destruct (expanded_inv _ _ _ _ _ _ Hn Hb) as [[-> ->]|[[Hnb Hb']|[_ (s' & Hs' & ->)]]].
    + cbn in Hcs. inversion Hcs; subst cs. cbn [simulations set_children].
      assert (Hzero : sum_sims h (seq (length h) (length ss)) = 0).
      { assert (Hgen : forall k m, (length h <= k)%nat -> sum_sims h (seq k m) = 0).
        { intros k m. revert k. induction m as [|m IH]; intros k Hk; [reflexivity|].
          cbn [seq sum_sims fold_right]. fold (sum_sims h (seq (S k) m)).
          rewrite IH by lia. unfold sims_at.
          rewrite (proj2 (lookup_ge_None h k)) by lia. reflexivity. }
        apply Hgen. lia. }
      rewrite Hzero.
      destruct (children n) as [[|c0 cs0]|] eqn:Hkids; [| discriminate |].
      * exfalso. destruct (Hmv a n [] Hn Hkids) as (l0 & Hl0 & Hall0).
        assert (l0 = l) by congruence. subst l0.
        inversion Hall0; subst. inversion Hall; subst. apply Hne. reflexivity.
      * destruct (cnt_unexpanded _ _ Hcnt a n Hn Hkids) as [Hz|[H1 Hnr]].
        -- destruct Hwhy as [->|Hpos]; [|lia].
           destruct (decide (root_node = root_node)); [lia | contradiction].
        -- destruct (decide (a = root_node)); [contradiction | lia].
    + exact (cnt_sum _ _ Hcnt b nb cs Hb' Hcs Hne).
    + discriminate.
Qed.

Lemma bumped_counts_ok root_node h h' a n l r :
  whole_ok h ->
  counts_ok root_node h ->
  h !! a = Some n ->
  truthy (children n) = false \/ (simulations n = 0 /\ a <> root_node) ->
  (children n = None -> simulations n = 0 /\ a <> root_node) ->
  chain h a l ->
  (forall b, In b l -> h' !! b = bump r <$> h !! b) ->
  (forall b, ~ In b l -> h' !! b = h !! b) ->
  counts_ok root_node h'.
Proof.
  intros Hok Hcnt Hn Hhead Hnone Hch Hin Hout.
  pose proof (bumped_inv h h' l r Hin Hout) as Hinv.
  pose proof (bumped_fwd h h' l r Hin Hout) as Hfwd.
  assert (Hsims_in : forall b, In b l -> sims_at h' b = sims_at h b + 1).
  { intros b Hb. destruct (chain_lookup _ _ _ Hch b Hb) as [nb Hnb].
    unfold sims_at. rewrite (Hin b Hb), Hnb. reflexivity. }
  assert (Hsims_out : forall b, ~ In b l -> sims_at h' b = sims_at h b).
  { intros b Hb. unfold sims_at. rewrite (Hout b Hb). reflexivity. }
  assert (Hkid : forall b nb cs c,
            h !! b = Some nb -> children nb = Some cs -> In c cs ->
            exists nc, h !! c = Some nc /\ parent nc = Some b).
  { intros b nb cs c Hb Hcs Hc.
    destruct (ok_children _ _ Hok b nb cs c (lookup_lt_Some _ _ _ Hb) Hb Hcs Hc) as (_ & Hrest).
    exact Hrest. }
  split.
  - intros b nb' p Hb' Hp.
    destruct (Hinv b nb' Hb') as (nb & Hb & Hcase).
    assert (Hpar : parent nb = Some p) by (destruct Hcase as [[_ ->]|[_ ->]]; exact Hp).
    destruct (cnt_listed _ _ Hcnt b nb p Hb Hpar) as (np & cs & Hnp & Hcs & Hc).
    destruct (Hfwd p np Hnp) as (np' & Hnp' & Hcase').
    exists np', cs. split; [exact Hnp'|]. split; [|exact Hc].
    destruct Hcase' as [[_ ->]|[_ ->]]; exact Hcs.
  - intros b nb' Hb' Hkids.
    destruct (Hinv b nb' Hb') as (nb & Hb & [[_ ->]|[Hbl ->]]).
    + exact (cnt_unexpanded _ _ Hcnt b nb Hb Hkids).
    + cbn in Hkids. cbn [simulations bump].
      destruct (decide (b = a)) as [->|Hne].
      * assert (nb = n) by congruence. subst.
        destruct (Hnone Hkids) as [Hz Hnr]. right. split; [lia | exact Hnr].
      * exfalso. destruct (chain_has_child _ _ _ Hch b Hbl Hne) as (c & nc & Hc & Hnc & Hpc).
        destruct (cnt_listed _ _ Hcnt c nc b Hnc Hpc) as (np & cs & Hnp & Hcs & _).
        congruence.
  - intros b nb' cs Hb' Hcs Hne.
    destruct (Hinv b nb' Hb') as (nb & Hb & Hcase).
    assert (Hcs0 : children nb = Some cs) by (destruct Hcase as [[_ ->]|[_ ->]]; exact Hcs).
    pose proof (cnt_sum _ _ Hcnt b nb cs Hb Hcs0 Hne) as Hsum.
    destruct Hcase as [[Hbl ->]|[Hbl ->]].
    + rewrite (sum_sims_ext h h' cs); [exact Hsum|].
      intros c Hc. apply Hsims_out. intros Hcl.
      destruct (Hkid b nb cs c Hb Hcs0 Hc) as (nc & Hnc & Hpc).
      apply Hbl. exact (chain_closed _ _ _ Hch c nc b Hcl Hnc Hpc).
    + cbn [simulations bump].
      destruct (decide (b = a)) as [->|Hba].
      * exfalso. assert (nb = n) by congruence. subst.
        destruct Hhead as [Htr|[Hz Hnr]].
        -- rewrite Hcs0 in Htr. destruct cs; [contradiction | discriminate].
        -- destruct (decide (a = root_node)); [contradiction|].
           assert (0 <= sum_sims h cs).
           { apply sum_sims_nonneg. intros c _. apply whole_ok_sims_nonneg. exact Hok. }
           lia.
      * destruct (chain_has_child _ _ _ Hch b Hbl Hba) as (c0 & nc0 & Hc0 & Hnc0 & Hpc0).
        destruct (cnt_listed _ _ Hcnt c0 nc0 b Hnc0 Hpc0) as (np & cs' & Hnp & Hcs' & Hin0).
        assert (np = nb) by congruence. subst np.
        assert (cs' = cs) by congruence. subst cs'.
        rewrite (sum_sims_one h h' cs c0); [lia | | exact Hin0 | apply Hsims_in; exact Hc0 |].
        -- eapply whole_ok_children_nodup; eassumption.
        -- intros c Hc Hne0. apply Hsims_out. intros Hcl. apply Hne0.
           destruct (Hkid b nb cs c Hb Hcs0 Hc) as (nc & Hnc & Hpc).
           exact (chain_child_unique _ _ _ Hch c c0 nc nc0 b Hcl Hc0 Hnc Hnc0 Hpc Hpc0).
Qed.

Lemma store_steps_counts_ok root_node h h' :
  store_steps root_node h h' ->
  whole_ok h -> moves_ok h -> counts_ok root_node h ->
  whole_ok h' /\ moves_ok h' /\ counts_ok root_node h'.
Proof.
  induction 1 as [h|h1 h2 h3 Hs Hss IH]; intros Hok Hmv Hcnt; [auto|].
  apply IH.
  - eapply store_step_whole_ok; eassumption.
  - eapply store_step_moves_ok; eassumption.
  - destruct Hs as [a n l ss Hn Htr Hwhy Hl Hall | a n l r h2' Hn Hhead Hnone Hch Hr Hin Hout].
    + eapply expanded_counts_ok; eassumption.
    + eapply bumped_counts_ok; eassumption.
Qed.

Lemma fresh_whole_ok (s : State) : wf_board (board s) -> whole_ok [fresh_root s].
Proof.
  intros Hwf. unfold whole_ok. eapply tree_ok_iff; [|apply fresh_tree_ok; exact Hwf].
  intros a. cbn. lia.
Qed.

Lemma fresh_counts_ok (s : State) : counts_ok 0%nat [fresh_root s].
Proof.
  split.
  - intros [|a] n p Hn Hp; cbn in Hn; [|discriminate]. inversion Hn; subst. discriminate.
  - intros [|a] n Hn _; cbn in Hn; [|discriminate]. inversion Hn; subst. left. reflexivity.
  - intros [|a] n cs Hn Hcs; cbn in Hn; [|discriminate]. inversion Hn; subst. discriminate.
Qed.

Section Counts.
Context `{PyFloat} `{!PyFloatDomain}.

(** X20.  The simulations add up.  In the tree that [mcts] grows from a
    fresh root on a 3x3 board, for every budget and all random draws, the
    simulations of a node that has children are the simulations of its
    children added up, plus one unless the node is the root (the rollout
    that started from the node itself, before it was expanded).  A node that
    was never expanded has at most one simulation, and the root none. *)
Theorem mcts_counts_add_up (fuel : nat) (s : State) (r : nat -> nat) (max_steps : Z) :
  wf_board (board s) ->
  (10 <= fuel)%nat ->
  exists w',
    mcts fuel {| root := 0%nat |} max_steps (fresh_world s r) = (w', Ok tt) /\
    (forall a n cs,
       heap w' !! a = Some n -> children n = Some cs -> cs <> [] ->
       simulations n = (if decide (a = 0%nat) then 0 else 1) + sum_sims (heap w') cs) /\
    (forall a n,
       heap w' !! a = Some n -> children n = None ->
       simulations n = 0 \/ (simulations n = 1 /\ a <> 0%nat)).
Proof.
  intros Hwf Hfuel.
  destruct (mcts_effect (fun a => a = 0%nat) fuel {| root := 0%nat |} max_steps
              (fresh_root s) (fresh_world s r))
    as (w' & Hrun & _ & Hsteps);
    [apply fresh_tree_ok; exact Hwf | reflexivity | reflexivity | reflexivity | exact Hfuel |].
  destruct (store_steps_counts_ok _ _ _ Hsteps (fresh_whole_ok s Hwf) (fresh_moves_ok s)
              (fresh_counts_ok s)) as (_ & _ & Hcnt).
  exists w'. split; [exact Hrun|]. split.
  - exact (cnt_sum _ _ Hcnt).
  - exact (cnt_unexpanded _ _ Hcnt).
Qed.

End Counts.

Lemma mcts_counts_add_up_witness :
  exists w',
    mcts (H := Fixed.ops) 10 {| root := 0%nat |} 12 (fresh_world scenario (fun i => (3 * i)%nat))
    = (w', Ok tt) /\
    (forall a n cs,
       heap w' !! a = Some n -> children n = Some cs -> cs <> [] ->
       simulations n = (if decide (a = 0%nat) then 0 else 1) + sum_sims (heap w') cs) /\
    (forall a n,
       heap w' !! a = Some n -> children n = None ->
       simulations n = 0 \/ (simulations n = 1 /\ a <> 0%nat)).
Proof.
  apply (mcts_counts_add_up (H := Fixed.ops) 10 scenario (fun i => (3 * i)%nat) 12).
  - apply wf_board_grid.
  - lia.
Defined.

(** * The game loop *)









Lemma check_win_conditions_verdict (s : State) :
  wf_board (board s) ->
  (check_win_conditions s = Ok (Some (turn s)) /\ has_line (board s) (Turn.value (turn s))) \/
  (check_win_conditions s = Ok None /\ ~ has_line (board s) (Turn.value (turn s))).
Proof.
  intros Hwf. pose proof (check_win_conditions_lines s Hwf) as Hiff.
  destruct (wf_board_inv _ Hwf) as (a0&a1&a2&a3&a4&a5&a6&a7&a8&Hb).
  destruct s as [b t]. cbn [board turn] in *. subst b.
  rewrite check_win_conditions_grid in Hiff |- *.
  destruct (existsb _ _).
  - left. split; [reflexivity|]. apply Hiff. reflexivity.
  - right. split; [reflexivity|]. intros Hline. apply Hiff in Hline. discriminate.
Qed.


Lemma game_run_legal s input s' input' :
  game_run s input s' input' -> legal_run s s'.
Proof.
  induction 1 as [s input s1 rest (l & a & Hl & Ha & Happ & _)
                 | s input s1 rest s' input' (l & a & Hl & Ha & Happ & _) _ _ IH].
  - econstructor 2; [exact Hl | exact Ha | exact Happ | constructor].
  - econstructor 2; [exact Hl | exact Ha | exact Happ | exact IH].
Qed.




(** The scenario, with a fresh tree.  The machine plays (0, 2) and completes
    the top row; the line is not seen, since the side to move is then [o].
    Of the input, the occupied cell (1, 1) and the line that does not parse
    are skipped and (1, 0) is played; the line of [x] is announced then. *)
Example play_game_scenario :
  snd (play_game 5 {| root := 0%nat |} [Some (1, 1); None; Some (1, 0); Some (2, 0)]
         (fresh_world scenario (fun i => i)))
  = Done (AIWins, {| board := [[1; 1; 1]; [2; 2; 0]; [0; 0; 2]]; turn := Turn.x |}).
Proof. vm_compute. reflexivity. Qed.

(** The same game with an input that holds no legal move. *)
Example play_game_input_ends :
  snd (play_game 5 {| root := 0%nat |} [Some (1, 1); None]
         (fresh_world scenario (fun i => i)))
  = Failed EOFError.
Proof. vm_compute. reflexivity. Qed.

(** * Printing the board *)

Lemma symbol_none (c : Z) : symbol c = None <-> (c <> 0 /\ c <> 1 /\ c <> 2).
Proof.
  unfold symbol.
  destruct (Z.eqb_spec c 0); [split; [discriminate | lia]|].
  destruct (Z.eqb_spec c 1); [split; [discriminate | lia]|].
  destruct (Z.eqb_spec c 2); [split; [discriminate | lia]|].
  split; auto.
Qed.

Lemma symbols_of_none (row : list Z) :
  symbols_of row = None <-> exists c, In c row /\ c <> 0 /\ c <> 1 /\ c <> 2.
Proof.
  induction row as [|c row IH]; cbn [symbols_of].
  - split; [discriminate | intros (c & [] & _)].
  - destruct (symbol c) as [s|] eqn:Hs.
    + assert (Hc : ~ (c <> 0 /\ c <> 1 /\ c <> 2)).
      { intros Hbad. apply symbol_none in Hbad. congruence. }
      destruct (symbols_of row) as [ss|].
      * split; [discriminate|]. intros (c' & [<-|Hin] & Hbad); [contradiction|].
        pose proof (proj2 IH (ex_intro _ c' (conj Hin Hbad))). discriminate.
      * split; [|reflexivity]. intros _.
        destruct (proj1 IH eq_refl) as (c' & Hin & Hbad). exists c'. split; [right; exact Hin | exact Hbad].
    + split; [|reflexivity]. intros _. exists c. split; [left; reflexivity|].
      apply symbol_none. exact Hs.
Qed.

Lemma row_width (a b c : Z) :
  (a = 0 \/ a = 1 \/ a = 2) -> (b = 0 \/ b = 1 \/ b = 2) -> (c = 0 \/ c = 1 \/ c = 2) ->
  exists ss,
    symbols_of [a; b; c] = Some ss /\
    String.length (String.append "|"%string
                     (String.append (join "|"%string ss) "|"%string)) = 7%nat.
Proof.
  intros [-> | [-> | ->]] [-> | [-> | ->]] [-> | [-> | ->]];
    (eexists; split; [reflexivity | reflexivity]).
Qed.

(** X22.  What [print_board] prints.  On a 3x3 board with cells 0, 1 or 2
    it raises nothing and prints six lines, a row and the ruler of seven
    dashes in turn, and each row is as wide as the ruler. *)
Theorem print_board_rows (b : list (list Z)) :
  wf_board b ->
  marks_ok b ->
  exists r0 r1 r2,
    print_board b
    = Done [r0; "-------"%string; r1; "-------"%string; r2; "-------"%string] /\
    String.length r0 = 7%nat /\ String.length r1 = 7%nat /\ String.length r2 = 7%nat.
Proof.
  intros Hwf Hm.
  destruct (wf_board_inv _ Hwf) as (a0&a1&a2&a3&a4&a5&a6&a7&a8&->).
  assert (Hcell : forall row c, In row [[a0; a1; a2]; [a3; a4; a5]; [a6; a7; a8]] ->
            In c row -> c = 0 \/ c = 1 \/ c = 2) by exact Hm.
  destruct (row_width a0 a1 a2) as (s0 & Hs0 & Hw0);
    try (eapply Hcell; [left; reflexivity | cbn; tauto]).
  destruct (row_width a3 a4 a5) as (s1 & Hs1 & Hw1);
    try (eapply Hcell; [right; left; reflexivity | cbn; tauto]).
  destruct (row_width a6 a7 a8) as (s2 & Hs2 & Hw2);
    try (eapply Hcell; [right; right; left; reflexivity | cbn; tauto]).
  cbn [print_board]. rewrite Hs0, Hs1, Hs2.
  eexists _, _, _. split; [reflexivity|]. auto.
Qed.

Lemma marks_ok_scenario : marks_ok (board scenario).
Proof.
  intros row c Hrow Hc. cbn in Hrow.
  destruct Hrow as [<- | [<- | [<- | []]]]; cbn in Hc;
    destruct Hc as [<- | [<- | [<- | []]]]; auto.
Qed.

Lemma print_board_rows_witness :
  exists r0 r1 r2,
    print_board (board scenario)
    = Done [r0; "-------"%string; r1; "-------"%string; r2; "-------"%string] /\
    String.length r0 = 7%nat /\ String.length r1 = 7%nat /\ String.length r2 = 7%nat.
Proof.
  apply (print_board_rows (board scenario)).
  - apply wf_board_grid.
  - apply marks_ok_scenario.
Defined.

Example print_board_scenario :
  print_board (board scenario)
  = Done ["|X|X| |"%string; "-------"%string; "| |O| |"%string; "-------"%string;
          "| | |O|"%string; "-------"%string].
Proof. reflexivity. Qed.

(** X29.  The fault of [print_board].  Whatever the shape of the board, it
    raises exactly when some cell is not 0, 1 or 2, and what it raises is
    [KeyError]. *)
Theorem print_board_fault (b : list (list Z)) :
  ((exists e, print_board b = Failed e) <->
   (exists row c, In row b /\ In c row /\ c <> 0 /\ c <> 1 /\ c <> 2)) /\
  (forall e, print_board b = Failed e -> e = KeyError).
Proof.
  split.
  - induction b as [|row b IH]; cbn [print_board].
    + split; [intros [e He]; discriminate | intros (row & c & [] & _)].
    + destruct (symbols_of row) as [ss|] eqn:Hss.
      * destruct (print_board b) as [lines|e0].
        -- split; [intros [e He]; discriminate|].
           intros (row' & c & [<-|Hrow] & Hc & Hbad).
           ++ assert (Hnone : symbols_of row = None) by (apply symbols_of_none; eauto).
              congruence.
           ++ destruct (proj2 IH) as [e He]; [eauto 6 | discriminate].
        -- split; [|eauto]. intros _.
           destruct (proj1 IH (ex_intro _ e0 eq_refl)) as (row' & c & Hrow & Hrest).
           exists row', c. split; [right; exact Hrow | exact Hrest].
      * split; [|eauto]. intros _.
        destruct (proj1 (symbols_of_none row) Hss) as (c & Hc & Hbad).
        exists row, c. split; [left; reflexivity | auto].
  - induction b as [|row b IH]; cbn [print_board]; intros e He; [discriminate|].
    destruct (symbols_of row) as [ss|]; [|congruence].
    destruct (print_board b) as [lines|e0]; [discriminate|].
    apply IH. congruence.
Qed.

(** * The program *)


Section Program.
Context `{PyFloat} `{!PyFloatDomain}.


End Program.


(** * The playout *)

(** [random.choice] on a list that is not empty: the element at the position
    drawn modulo the length, and one draw is used. *)
Lemma choice_lookup {A} (l : list A) w :
  l <> [] ->
  exists v,
    l !! (rng w O mod length l)%nat = Some v /\
    choice l w
    = ({| heap := heap w; rng := fun i => rng w (S i); expand_log := expand_log w |}, Ok v).
Proof.
  intros Hne. unfold choice.
  assert (Hlt : (rng w O mod length l < length l)%nat).
  { apply Nat.mod_upper_bound. destruct l; [contradiction | discriminate]. }
  destruct (lookup_lt_is_Some_2 l _ Hlt) as [v Hv].
  exists v. rewrite Hv. split; reflexivity.
Qed.

(** The position and the draws determine where a playout stops, and after
    how many moves. *)
Lemma playout_run_det r s s1 k1 :
  playout_run r s s1 k1 ->
  forall s2 k2, playout_run r s s2 k2 -> s2 = s1 /\ k2 = k1.
Proof.
  induction 1 as [r s Hline | r s Hno Hfull | r s l a s1 s' k Hno Hl Ha Happ Hrun IH];
    intros s2 k2 H2.
  - inversion H2; subst; [auto | auto | contradiction].
  - inversion H2 as [| |r0 s0 l0 a0 s10 s0' k0 Hno0 Hl0 Ha0]; subst; [auto | auto |].
    rewrite Hfull in Hl0. inversion Hl0; subst. discriminate.
  - inversion H2 as [r0 s0 Hline0 | r0 s0 Hno0 Hfull0
                    | r0 s0 l0 a0 s10 s0' k0 Hno0 Hl0 Ha0 Happ0 Hrun0]; subst.
    + contradiction.
    + rewrite Hfull0 in Hl. inversion Hl; subst. discriminate.
    + rewrite Hl0 in Hl. inversion Hl; subst l0.
      assert (a0 = a) by congruence. subst a0.
      assert (s10 = s1) by congruence. subst s10.
      destruct (IH _ _ Hrun0) as [-> ->]. auto.
Qed.

Lemma playout_run_legal r s s' k : playout_run r s s' k -> legal_run s s'.
Proof.
  induction 1 as [r s Hline | r s Hno Hfull | r s l a s1 s' k Hno Hl Ha Happ Hrun IH].
  - constructor.
  - constructor.
  - econstructor 2; [exact Hl | | exact Happ | exact IH].
    apply list_elem_of_In. eapply list_elem_of_lookup_2. exact Ha.
Qed.

(** X24.  What a playout decides.  From a 3x3 position the playout plays the
    legal moves that the draws of [random.choice] pick, one draw a move,
    until the first state in which the side to move holds a line or no cell
    is empty, and stops there: the states it visits are those of
    [playout_run], which the position and the draws determine.  It makes at
    most as many moves as the position has empty cells.  It answers the side
    to move of the state it stops in when that side holds a line there, and
    no winner when it stops on a full board without such a line.  The store
    is read only, and as many draws are used as moves are made. *)
Theorem playout_verdict (fuel : nat) : forall (s : State) (w : World),
  wf_board (board s) ->
  (empties s < fuel)%nat ->
  exists winner s' k,
    playout fuel s w
    = ({| heap := heap w; rng := fun i => rng w (k + i)%nat; expand_log := expand_log w |},
       Ok winner) /\
    playout_run (rng w) s s' k /\
    (forall s2 k2, playout_run (rng w) s s2 k2 -> s2 = s' /\ k2 = k) /\
    (k <= empties s)%nat /\
    legal_run s s' /\
    match winner with
    | Some t => t = turn s' /\ has_line (board s') (Turn.value t)
    | None => get_valid_actions s' = Ok [] /\ ~ has_line (board s') (Turn.value (turn s'))
    end.
Proof.
  induction fuel as [|fuel IH]; intros s w Hwf Hfuel; [lia|].
  cbn [playout].
  destruct (check_win_conditions_verdict s Hwf) as [[Hwin Hline]|[Hwin Hnoline]];
    run_with Hwin.
  { assert (Hrun : playout_run (rng w) s s 0) by (constructor; exact Hline).
    exists (Some (turn s)), s, 0%nat.
    split; [destruct w; reflexivity|]. split; [exact Hrun|].
    split; [intros s2 k2 H2; apply (playout_run_det _ _ _ _ Hrun _ _ H2)|].
    split; [lia|]. split; [constructor | auto]. }
  destruct (get_valid_actions_wf s Hwf) as [l Hl].
  run_with Hl.
  destruct l as [|a l].
  { assert (Hrun : playout_run (rng w) s s 0) by (constructor 2; assumption).
    exists None, s, 0%nat.
    split; [destruct w; reflexivity|]. split; [exact Hrun|].
    split; [intros s2 k2 H2; apply (playout_run_det _ _ _ _ Hrun _ _ H2)|].
    split; [lia|]. split; [constructor | auto]. }
  run_with Hl.
  destruct (choice_lookup (a :: l) w) as (act & Hat & Hch); [discriminate|].
  assert (Hact : In act (a :: l))
    by (apply list_elem_of_In; eapply list_elem_of_lookup_2; exact Hat).
  run_with Hch.
  destruct (apply_action_valid s (a :: l) act Hwf Hl Hact) as (s1 & Happ & Hwf1 & _ & Hdec).
  run_with Happ.
  destruct (IH s1 {| heap := heap w; rng := fun i => rng w (S i); expand_log := expand_log w |}
              Hwf1 ltac:(lia)) as (winner & s' & k & Hplay & Hrun1 & _ & Hk & Hlegal & Hv).
  cbn [heap rng expand_log] in Hplay, Hrun1.
  assert (Hrun : playout_run (rng w) s s' (S k))
    by (econstructor 3; [exact Hnoline | exact Hl | exact Hat | exact Happ | exact Hrun1]).
  exists winner, s', (S k). split; [exact Hplay|]. split; [exact Hrun|].
  split; [intros s2 k2 H2; apply (playout_run_det _ _ _ _ Hrun _ _ H2)|].
  split; [lia|]. split; [|exact Hv].
  econstructor 2; [exact Hl | exact Hact | exact Happ | exact Hlegal].
Qed.

Lemma playout_verdict_witness :
  exists winner s' k,
    playout 6 scenario (fresh_world scenario (fun i => i))
    = ({| heap := heap (fresh_world scenario (fun i => i));
          rng := fun i => rng (fresh_world scenario (fun i => i)) (k + i)%nat;
          expand_log := expand_log (fresh_world scenario (fun i => i)) |},
       Ok winner) /\
    playout_run (rng (fresh_world scenario (fun i => i))) scenario s' k /\
    (forall s2 k2,
       playout_run (rng (fresh_world scenario (fun i => i))) scenario s2 k2 ->
       s2 = s' /\ k2 = k) /\
    (k <= empties scenario)%nat /\
    legal_run scenario s' /\
    match winner with
    | Some t => t = turn s' /\ has_line (board s') (Turn.value t)
    | None => get_valid_actions s' = Ok [] /\ ~ has_line (board s') (Turn.value (turn s'))
    end.
Proof.
  apply (playout_verdict 6 scenario (fresh_world scenario (fun i => i))).
  - apply wf_board_grid.
  - vm_compute. lia.
Defined.

(** A cell of a line of three that does not hold the value looked for. *)
Ltac other_cell :=
  first [ eexists; split; [left; reflexivity | cbn; discriminate]
        | eexists; split; [right; left; reflexivity | cbn; discriminate]
        | eexists; split; [right; right; left; reflexivity | cbn; discriminate] ].

(** The playout of the scenario with the draws 0, 1, ...: [x] plays the
    first of the five legal moves, (0, 2), and completes the top row; [o],
    who holds no line, plays the second of the four moves left, (1, 2); the
    side to move is then [x], who holds a line.  Two draws are used. *)
Example playout_scenario :
  playout 6 scenario (fresh_world scenario (fun i => i))
  = ({| heap := [fresh_root scenario]; rng := fun i => S (S i); expand_log := [] |},
     Ok (Some Turn.x)) /\
  playout_run (fun i => i) scenario
    {| board := [[1; 1; 1]; [0; 2; 2]; [0; 0; 2]]; turn := Turn.x |} 2.
Proof.
  split; [reflexivity|].
  assert (Hno : forall b v,
            (forall line, In line lines3x3 -> exists p, In p line /\ cell b p <> Ok v) ->
            ~ has_line b v).
  { intros b v Hall (line & Hin & Hline).
    destruct (Hall line Hin) as (p & Hp & Hne). apply Hne, Hline, Hp. }
  eapply (playout_move _ _ _ (0, 2)); [| reflexivity | reflexivity | reflexivity |].
  { apply Hno. cbn. intros line Hline.
    repeat (destruct Hline as [<-|Hline]; [other_cell|]). destruct Hline. }
  eapply (playout_move _ _ _ (1, 2)); [| reflexivity | reflexivity | reflexivity |].
  { apply Hno. cbn. intros line Hline.
    repeat (destruct Hline as [<-|Hline]; [other_cell|]). destruct Hline. }
  apply playout_stop_line. exists [(0, 0); (0, 1); (0, 2)].
  split; [left; reflexivity|]. intros p [<-|[<-|[<-|[]]]]; reflexivity.
Qed.

(** * The advance reuses the subtree *)




(** * Runs of legal moves *)

Lemma legal_run_trans (s1 s2 s3 : State) :
  legal_run s1 s2 -> legal_run s2 s3 -> legal_run s1 s3.
Proof.
  induction 1 as [s|s a l s1 s2 Hl Ha Happ Hrun IH]; intros H23; [exact H23|].
  econstructor 2; [exact Hl | exact Ha | exact Happ | apply IH; exact H23].
Qed.

(** X26.  Legal play overwrites no mark.  Along a run of legal moves from a
    3x3 position the board stays 3x3, a cell that holds a mark keeps it, the
    number of empty cells falls by one with each move, and the turn is the
    one of the start after an even number of moves and the other one after an
    odd number. *)
Theorem legal_run_keeps_marks (s s' : State) :
  wf_board (board s) ->
  legal_run s s' ->
  wf_board (board s') /\
  (empties s' <= empties s)%nat /\
  (forall p c, In p cells3x3 -> cell (board s) p = Ok c -> c <> 0 ->
               cell (board s') p = Ok c) /\
  turn s' = (if Nat.even (empties s - empties s') then turn s else Turn.other (turn s)).
Proof.
  intros Hwf Hrun. induction Hrun as [s|s a l s1 s2 Hl Ha Happ Hrun IH].
  - split; [exact Hwf|]. split; [lia|]. split; [auto|].
    rewrite Nat.sub_diag. reflexivity.
  - destruct (apply_action_valid _ _ _ Hwf Hl Ha) as (s1' & Happ' & Hwf1 & Hturn & Hdec).
    assert (s1' = s1) by congruence. subst s1'.
    destruct (IH Hwf1) as (Hwf2 & Hle & Hkeep & Hturn2).
    split; [exact Hwf2|]. split; [lia|]. split.
    + intros p c Hp Hc Hnz. apply Hkeep; [exact Hp | | exact Hnz].
      unfold get_valid_actions in Hl.
      pose proof (proj1 (scan_cells_in _ _ _ a Hl) Ha) as [Hina Hca].
      destruct s as [b t]. cbn [board turn] in *.
      destruct (apply_action_cells b t a Hwf Hina) as (b' & Hb' & _ & _ & Hsame).
      assert (s1 = {| board := b'; turn := Turn.other t |}) by congruence. subst s1.
      cbn [board]. rewrite Hsame; [exact Hc | exact Hp |].
      intros ->. rewrite Hca in Hc. congruence.
    + rewrite Hturn2, Hturn.
      replace (empties s - empties s2)%nat with (S (empties s1 - empties s2)) by lia.
      rewrite Nat.even_succ, <- Nat.negb_even.
      destruct (Nat.even (empties s1 - empties s2)); cbn [negb];
        destruct (turn s); reflexivity.
Qed.

Lemma legal_run_keeps_marks_witness :
  wf_board (board scenario_after_two) /\
  (empties scenario_after_two <= empties scenario)%nat /\
  (forall p c, In p cells3x3 -> cell (board scenario) p = Ok c -> c <> 0 ->
               cell (board scenario_after_two) p = Ok c) /\
  turn scenario_after_two
  = (if Nat.even (empties scenario - empties scenario_after_two)
     then turn scenario else Turn.other (turn scenario)).
Proof.
  apply (legal_run_keeps_marks scenario scenario_after_two).
  - apply wf_board_grid.
  - apply (run_step scenario (0, 2) [(0, 2); (1, 0); (1, 2); (2, 0); (2, 1)]
             {| board := [[1; 1; 1]; [0; 2; 0]; [0; 0; 2]]; turn := Turn.o |});
      [reflexivity | cbn; tauto | reflexivity |].
    apply (run_step _ (1, 2) [(1, 0); (1, 2); (2, 0); (2, 1)] scenario_after_two);
      [reflexivity | cbn; tauto | reflexivity | constructor].
Defined.

(** * The positions of the tree *)

Lemma store_step_reachable (s : State) root_node h h' :
  store_step root_node h h' ->
  (forall a n, h !! a = Some n -> legal_run s (state n)) ->
  forall a n, h' !! a = Some n -> legal_run s (state n).
Proof.
  intros [b nb l ss Hb _ _ Hl Hall | b nb l r h2 Hb _ _ Hch Hr Hin Hout] Hreach a n Ha.
  - destruct (expanded_inv _ _ _ _ _ _ Hb Ha) as [[-> ->]|[[Hne Ha']|[_ (s' & Hs' & ->)]]].
    + cbn. exact (Hreach b nb Hb).
    + exact (Hreach a n Ha').
    + cbn [state new_child].
      apply list_elem_of_In, list_elem_of_lookup_1 in Hs' as [i Hi].
      destruct (Forall2_lookup_r _ _ _ _ _ Hall Hi) as (act & Hact & Happ).
      eapply legal_run_trans; [exact (Hreach b nb Hb)|].
      econstructor 2; [exact Hl | | exact Happ | constructor].
      apply list_elem_of_In. eapply list_elem_of_lookup_2. exact Hact.
  - destruct (bumped_inv h h2 l r Hin Hout a n Ha) as (n0 & Hn0 & [[_ ->]|[_ ->]]).
    + exact (Hreach a n0 Hn0).
    + cbn. exact (Hreach a n0 Hn0).
Qed.

Lemma store_steps_reachable (s : State) root_node h h' :
  store_steps root_node h h' ->
  (forall a n, h !! a = Some n -> legal_run s (state n)) ->
  forall a n, h' !! a = Some n -> legal_run s (state n).
Proof.
  induction 1 as [h|h1 h2 h3 Hs Hss IH]; intros Hreach; [exact Hreach|].
  apply IH. eapply store_step_reachable; eassumption.
Qed.

Section Reachable.
Context `{PyFloat} `{!PyFloatDomain}.

(** X27.  The tree holds positions of the game only.  Every node of the tree
    that [mcts] grows from a fresh root holds a state that a run of legal
    moves leads to from the state of the root, for every budget and all
    random draws. *)
Theorem mcts_positions_reachable (fuel : nat) (s : State) (r : nat -> nat) (max_steps : Z) :
  wf_board (board s) ->
  (10 <= fuel)%nat ->
  exists w',
    mcts fuel {| root := 0%nat |} max_steps (fresh_world s r) = (w', Ok tt) /\
    forall a n, heap w' !! a = Some n -> legal_run s (state n).
Proof.
  intros Hwf Hfuel.
  destruct (mcts_effect (fun a => a = 0%nat) fuel {| root := 0%nat |} max_steps
              (fresh_root s) (fresh_world s r))
    as (w' & Hrun & _ & Hsteps);
    [apply fresh_tree_ok; exact Hwf | reflexivity | reflexivity | reflexivity | exact Hfuel |].
  exists w'. split; [exact Hrun|].
  apply (store_steps_reachable s _ _ _ Hsteps).
  intros [|a] n Hn; cbn in Hn; [|discriminate]. inversion Hn; subst. constructor.
Qed.

End Reachable.

Lemma mcts_positions_reachable_witness :
  exists w',
    mcts (H := Fixed.ops) 10 {| root := 0%nat |} 8 (fresh_world scenario (fun i => (5 * i)%nat))
    = (w', Ok tt) /\
    forall a n, heap w' !! a = Some n -> legal_run scenario (state n).
Proof.
  apply (mcts_positions_reachable (H := Fixed.ops) 10 scenario (fun i => (5 * i)%nat) 8).
  - apply wf_board_grid.
  - lia.
Defined.

(** * The move of an untrained machine *)

(** X28.  Without training the machine plays the first empty cell.  On a
    root that has no children, [play_game] expands the root; all children
    then have no simulations, [best_action] keeps the first one, and the
    move worked out is the first legal move of the position, in the order of
    rows and columns. *)
Theorem ai_move_untrained (w : World) (tree : SearchTree) (r : Node)
    (a : action) (l : list action) :
  heap w !! root tree = Some r ->
  truthy (children r) = false ->
  wf_board (board (state r)) ->
  get_valid_actions (state r) = Ok (a :: l) ->
  exists w', ai_move tree w = (w', Ok (Some a)).
Proof.
  intros Hr Htr Hwf Hl. unfold ai_move. run_with Hr. rewrite Htr. cbn [negb].
  destruct (expand_run_moves (root tree) r w (a :: l) Hr Hl) as (ss & Hrun & Hall).
  run_with Hrun.
  destruct ss as [|s1 ss]; [inversion Hall|].
  pose proof (Forall2_length _ _ _ Hall) as Hlen.
  pose proof (lookup_lt_Some _ _ _ Hr) as Hlt.
  set (h1 := expanded (heap w) (root tree) r (s1 :: ss)).
  set (w1 := {| heap := h1; rng := rng w;
                expand_log := expand_log w ++ [(root tree, children r)] |}).
  assert (Hr1 : heap w1 !! root tree
                = Some (set_children r (Some (seq (length (heap w)) (length (s1 :: ss))))))
    by (apply expanded_self; exact Hr).
  assert (Hnew : forall c, In c (seq (length (heap w)) (length (s1 :: ss))) ->
            exists s', heap w1 !! c = Some (new_child (root tree) s')).
  { intros c Hc. destruct (expanded_child _ _ _ _ c Hr Hc) as (s' & _ & Hc'). eauto. }
  destruct (best_action_run w1 (root tree) _ (length (heap w))
              (seq (S (length (heap w))) (length ss)) Hr1 eq_refl)
    as (i & c & Hbest & Hi & Hmax & Hbefore).
  { intros c Hc. destruct (Hnew c Hc) as [s' Hs']. eauto. }
  run_with Hbest. run_with Hr1.
  assert (Hzero : forall c', In c' (seq (length (heap w)) (length (s1 :: ss))) ->
            sims_at (heap w1) c' = 0).
  { intros c' Hc'. destruct (Hnew c' Hc') as [s' Hs'].
    rewrite (sims_at_lookup _ _ _ Hs'). reflexivity. }
  assert (i = 0%nat).
  { destruct i as [|i]; [reflexivity|]. exfalso.
    pose proof (Hbefore 0%nat (length (heap w)) ltac:(lia) eq_refl) as Hless.
    rewrite (Hzero (length (heap w))) in Hless by (left; reflexivity).
    rewrite (Hzero c) in Hless; [lia|].
    apply list_elem_of_In. eapply list_elem_of_lookup_2. exact Hi. }
  subst i. cbn in Hi. inversion Hi; subst c.
  assert (Hc : heap w1 !! length (heap w) = Some (new_child (root tree) s1)).
  { unfold w1, h1, expanded. cbn [heap].
    rewrite list_lookup_insert_ne by lia.
    rewrite lookup_app_r by lia. rewrite Nat.sub_diag. reflexivity. }
  run_with Hc. exists w1. rewrite lift_run. f_equal. cbn [state set_children new_child].
  inversion Hall; subst.
  eapply infer_action_move; [exact Hwf | exact Hl | left; reflexivity | assumption].
Qed.

Lemma ai_move_untrained_witness :
  exists w', ai_move {| root := 0%nat |} (fresh_world scenario (fun i => i)) = (w', Ok (Some (0, 2))).
Proof.
  apply (ai_move_untrained (fresh_world scenario (fun i => i)) {| root := 0%nat |}
           (fresh_root scenario) (0, 2) [(1, 0); (1, 2); (2, 0); (2, 1)]).
  - reflexivity.
  - reflexivity.
  - apply wf_board_grid.
  - reflexivity.
Defined.

(** * The search within the range of floats *)

Lemma bind_ext {A B} (m : M A) (k1 k2 : A -> M B) (w : World) :
  (forall a w', m w = (w', Ok a) -> k1 a w' = k2 a w') ->
  bind m k1 w = bind m k2 w.
Proof.
  intros Hk. unfold bind. destruct (m w) as [w' [a|e]]; [apply Hk|]; reflexivity.
Qed.

(** A node with a win rate between 0 and 1 and a count of simulations below
    the limit: both divisions of its score are in the range of floats. *)
Lemma score_in_range_bounded (n : Node) :
  (0 <= wins n)%Q -> (wins n <= inject_Z (simulations n))%Q ->
  simulations n < float_limit ->
  score_in_range n = true.
Proof.
  intros H0 H1 Hlt. unfold score_in_range, int_fits, wins_is_int.
  unfold Qle in H0, H1. cbn in H0, H1.
  destruct (Z.eqb_spec (simulations n) 0) as [Hz|Hnz]; [reflexivity|]. cbn [orb].
  destruct (Pos.eqb_spec (Qden (wins n)) 1) as [Hd|Hd].
  - rewrite Hd in H1. pose proof float_limit_pos.
    apply andb_true_intro. split; apply Z.ltb_lt; [lia | nia].
  - rewrite andb_true_r. apply Z.ltb_lt.
    assert (0 <= simulations n) by lia. lia.
Qed.

Lemma heap_in_range_bounded (h : list Node) (B : Z) :
  rates_ok h ->
  (forall b nb, h !! b = Some nb -> simulations nb <= B) ->
  B < float_limit ->
  heap_in_range h.
Proof.
  intros Hrt Hb Hlt b nb Hnb. destruct (Hrt b nb Hnb) as [H0 H1].
  apply score_in_range_bounded; [exact H0 | exact H1|].
  pose proof (Hb b nb Hnb). lia.
Qed.

Lemma heap_in_range_expanded (h : list Node) (a : addr) (n : Node) (ss : list State) :
  h !! a = Some n -> heap_in_range h -> heap_in_range (expanded h a n ss).
Proof.
  intros Hn Hr b nb' Hb'.
  destruct (expanded_inv _ _ _ _ _ _ Hn Hb') as [[-> ->]|[[Hne Hb]|[_ (s' & Hs' & ->)]]].
  - exact (Hr a n Hn).
  - exact (Hr b nb' Hb).
  - reflexivity.
Qed.

Section CheckedSearch.
Context `{PyFloat}.

(** On a store whose divisions are all in the range of floats,
    [select_child_checked] is [select_child], allocated or not what the
    node lists. *)
Lemma select_child_checked_agrees (a : addr) (w : World) :
  heap_in_range (heap w) -> select_child_checked a w = select_child a w.
Proof.
  intros Hr. unfold select_child_checked, select_child.
  apply bind_ext. intros ec w1 [= <- _]%(eq_trans (eq_sym (lift_run _ w))).
  apply bind_ext. intros node w1 Hload.
  assert (w1 = w) by (pose proof (read_only_load a w) as Hro; rewrite Hload in Hro; exact Hro).
  subst w1.
  destruct (children node) as [cs|]; [|reflexivity].
  apply py_max_ext. intros c _. unfold bind at 1 3, load at 1 3.
  destruct (heap w !! c) as [child|] eqn:Hchild; [|eexists; split; reflexivity].
  unfold bind, load. destruct (heap w !! a) as [node'|]; [|eexists; split; reflexivity].
  rewrite !lift_run, (ucb_key_checked_in_range _ _ _ (Hr c child Hchild)).
  eexists; split; reflexivity.
Qed.

Lemma descend_checked_agrees (fuel : nat) : forall (a : addr) (w : World),
  heap_in_range (heap w) -> descend_checked fuel a w = descend fuel a w.
Proof.
  induction fuel as [|fuel IH]; intros a w Hr; [reflexivity|].
  cbn [descend_checked descend].
  apply bind_ext. intros node w1 Hload.
  assert (w1 = w) by (pose proof (read_only_load a w) as Hro; rewrite Hload in Hro; exact Hro).
  subst w1.
  destruct (children node) as [[|c cs]|]; try reflexivity.
  apply bind_ext. intros every w1 Hall.
  assert (w1 = w)
    by (pose proof (read_only_all_simulated (c :: cs) w) as Hro; rewrite Hall in Hro;
        exact Hro).
  subst w1.
  destruct every; [|reflexivity].
  unfold bind. rewrite (select_child_checked_agrees a w Hr).
  pose proof (read_only_select_child a w) as Hro.
  destruct (select_child a w) as [w1 [next|e]]; [|reflexivity].
  cbn in Hro. subst w1. apply IH. exact Hr.
Qed.

(** One iteration on a well-formed tree whose divisions are in the range of
    floats. *)
Lemma mcts_step_checked_agrees L fuel root_node r w :
  tree_ok L (heap w) ->
  L root_node ->
  heap w !! root_node = Some r ->
  heap_in_range (heap w) ->
  mcts_step_checked fuel root_node w = mcts_step fuel root_node w.
Proof.
  intros Hok HLr Hr Hrange. unfold mcts_step_checked, mcts_step.
  apply bind_ext. intros r0 w0 Hload.
  rewrite (load_run _ _ _ Hr) in Hload. inversion Hload; subst r0 w0; clear Hload.
  apply bind_ext. intros x w1 Hfirst.
  assert (Hrange1 : heap_in_range (heap w1)).
  { destruct (truthy (children r)); cbn [negb] in Hfirst.
    - inversion Hfirst; subst. exact Hrange.
    - pose proof (ok_board _ _ Hok _ _ HLr Hr) as Hwf.
      destruct (get_valid_actions_wf _ Hwf) as [l Hl].
      destruct (expand_run_moves root_node r w l Hr Hl) as (ss & Hrun & _).
      rewrite Hrun in Hfirst. inversion Hfirst; subst. cbn [heap].
      apply heap_in_range_expanded; assumption. }
  unfold bind at 1 3. rewrite (descend_checked_agrees fuel root_node w1 Hrange1).
  reflexivity.
Qed.

(** The loop: as long as the counts stay below the limit, the search with
    the checked divisions runs as the search does, and to its end. *)
Lemma mcts_loop_checked_agrees `{!PyFloatDomain} fuel root_node steps :
  forall L r w B,
    tree_ok L (heap w) ->
    L root_node ->
    heap w !! root_node = Some r ->
    parent r = None ->
    (10 <= fuel)%nat ->
    rates_ok (heap w) ->
    0 <= B ->
    (forall b nb, heap w !! b = Some nb -> simulations nb <= B) ->
    B + Z.of_nat steps <= float_limit ->
    mcts_loop_checked fuel root_node steps w = mcts_loop fuel root_node steps w.
Proof.
  induction steps as [|steps IH]; intros L r w B Hok HLr Hr Hpar Hfuel Hrt HB Hb Hlim;
    [reflexivity|].
  cbn [mcts_loop_checked mcts_loop].
  assert (Hrange : heap_in_range (heap w)) by (apply (heap_in_range_bounded _ B); auto; lia).
  destruct (mcts_step_effect L fuel root_node r w Hok HLr Hr Hpar Hfuel)
    as (w1 & Hstep & Hok1 & _ & Hsteps1 & Hgrow1).
  unfold bind. rewrite (mcts_step_checked_agrees L fuel root_node r w Hok HLr Hr Hrange), Hstep.
  destruct (store_steps_frame _ _ _ Hsteps1 root_node r Hr) as (r1 & Hr1 & Hp1 & _).
  apply (IH (fun a => L a \/ (length (heap w) <= a < length (heap w1))%nat) r1 w1 (B + 1)).
  - exact Hok1.
  - left; exact HLr.
  - exact Hr1.
  - congruence.
  - exact Hfuel.
  - eapply store_steps_rates_ok; eassumption.
  - lia.
  - intros b nb' Hb'. destruct (Hgrow1 b nb' Hb') as [Hle|(nb & Hnb & Hle)]; [lia|].
    pose proof (Hb b nb Hnb). lia.
  - lia.
Qed.

(** X30.  Within the range of floats the search raises no [OverflowError].
    On a well-formed tree whose root has no parent, with a win rate between
    0 and 1 in every node and no count of simulations above [B], a search of
    [max_steps] iterations with [B + max_steps] not above the limit of
    floats, [2^1024 - 2^970], run with the divisions of [select_child] that
    check the conversion of an int to a float, computes what the search with
    the unchecked conversion computes: the same store, the same draws used,
    and no exception. *)
Theorem mcts_checked_in_range `{!PyFloatDomain} (L : addr -> Prop) (fuel : nat)
    (tree : SearchTree) (max_steps : Z) (r : Node) (w : World) (B : Z) :
  tree_ok L (heap w) ->
  L (root tree) ->
  heap w !! root tree = Some r ->
  parent r = None ->
  (10 <= fuel)%nat ->
  rates_ok (heap w) ->
  (forall b nb, heap w !! b = Some nb -> simulations nb <= B) ->
  0 <= B ->
  B + max_steps <= float_limit ->
  mcts_checked fuel tree max_steps w = mcts fuel tree max_steps w /\
  exists w', mcts_checked fuel tree max_steps w = (w', Ok tt).
Proof.
  intros Hok HLr Hr Hpar Hfuel Hrt Hb HB Hlim.
  assert (Heq : mcts_checked fuel tree max_steps w = mcts fuel tree max_steps w).
  { unfold mcts_checked, mcts.
    destruct (Z.to_nat max_steps) as [|k] eqn:Hk; [reflexivity|]. rewrite <- Hk.
    apply (mcts_loop_checked_agrees fuel (root tree) _ L r w B); auto. lia. }
  split; [exact Heq|]. rewrite Heq.
  destruct (mcts_effect L fuel tree max_steps r w Hok HLr Hr Hpar Hfuel) as (w' & Hrun & _).
  exists w'. exact Hrun.
Qed.

End CheckedSearch.

Lemma mcts_checked_in_range_witness :
  mcts_checked (H := Fixed.ops) 10 {| root := 0%nat |} 3 (fresh_world scenario (fun i => i))
  = mcts (H := Fixed.ops) 10 {| root := 0%nat |} 3 (fresh_world scenario (fun i => i)) /\
  exists w',
    mcts_checked (H := Fixed.ops) 10 {| root := 0%nat |} 3 (fresh_world scenario (fun i => i))
    = (w', Ok tt).
Proof.
  apply (mcts_checked_in_range (H := Fixed.ops) (fun a => a = 0%nat) 10 {| root := 0%nat |} 3
           (fresh_root scenario) (fresh_world scenario (fun i => i)) 0).
  - apply fresh_tree_ok. apply wf_board_grid.
  - reflexivity.
  - reflexivity.
  - reflexivity.
  - lia.
  - apply fresh_rates_ok.
  - intros [|b] nb Hnb; cbn in Hnb; [|discriminate]. inversion Hnb; subst. cbn. lia.
  - lia.
  - vm_compute. discriminate.
Defined.

(** A search of one iteration on a store with a count out of the range of
    floats: the search with the checked divisions raises [OverflowError]. *)
Example mcts_checked_overflows :
  snd (mcts_checked (H := Fixed.ops) 10 {| root := 0%nat |} 1 overflow_world)
  = Raise OverflowError.
Proof. vm_compute. reflexivity. Qed.
